(** * Build orchestration service (BuildService): model and properties

    The service drives one Build through code generation, packaging, the
    remote image build, the push to GitHub and the sandbox deployment, and
    records progress as steps of the Build's Action.  The database tables,
    the artifact disk and the history of calls made to the external
    collaborators are an explicit state; every [async] method is a
    computation over that state which either returns or throws.  An
    [await] is sequential composition: the awaiting method continues only
    when the awaited one has settled.  Where the service starts several
    callbacks and awaits them together ([Promise.all]), the callbacks take
    turns at their awaits, in an order that is not the service's to
    choose. *)

From Stdlib Require Import ZArith Ascii String List Sorting.Sorted Permutation.
From stdpp Require Import gmap strings list fin_maps sorting.

Local Open Scope string_scope.
Local Open Scope list_scope.

(** ** Enumerations *)

Module EnumActionStepStatus.
(** Modelled from the spec: the declaration
    ([../action/dto/EnumActionStepStatus]) is not among the sources; a
    step's status goes Pending, Running, then Succeeded or Failed.  The
    service names the last three Running, Success and Failed. *)
Inductive t := Pending | Running | Failed | Success.

#[global] Instance eq_dec : EqDecision t.
Proof. solve_decision. Defined.

(** [EnumActionStepStatus[status]]: the member's name. *)
Definition name (s : t) : string :=
  match s with
  | Pending => "Pending"
  | Running => "Running"
  | Failed => "Failed"
  | Success => "Success"
  end.
End EnumActionStepStatus.

Module EnumBuildStatus.
Inductive t := Running | Completed | Failed | Invalid.

#[global] Instance eq_dec : EqDecision t.
Proof. solve_decision. Defined.
End EnumBuildStatus.

Module ContainerBuildStatus.
(** [EnumBuildStatus] of the container builder. *)
Inductive t := Running | Completed | Failed.

#[global] Instance eq_dec : EqDecision t.
Proof. solve_decision. Defined.
End ContainerBuildStatus.

Module EnumActionLogLevel.
Inductive t := Error | Warning | Info | Debug.

#[global] Instance eq_dec : EqDecision t.
Proof. solve_decision. Defined.
End EnumActionLogLevel.

(** ** Constants of the service *)

Definition GENERATE_STEP_MESSAGE := "Generating Application".
Definition GENERATE_STEP_NAME := "GENERATE_APPLICATION".
Definition BUILD_DOCKER_IMAGE_STEP_MESSAGE := "Building Docker image".
Definition BUILD_DOCKER_IMAGE_STEP_NAME := "BUILD_DOCKER".
Definition BUILD_DOCKER_IMAGE_STEP_FINISH_LOG := "Built Docker image successfully".
Definition BUILD_DOCKER_IMAGE_STEP_FAILED_LOG := "Build Docker failed".
Definition BUILD_DOCKER_IMAGE_STEP_RUNNING_LOG := "Waiting for Docker image...".
Definition BUILD_DOCKER_IMAGE_STEP_START_LOG :=
  "Starting to build Docker image. It should take a few minutes.".
Definition PUSH_TO_GITHUB_STEP_NAME := "PUSH_TO_GITHUB".
Definition PUSH_TO_GITHUB_STEP_MESSAGE := "Push changes to GitHub".
Definition PUSH_TO_GITHUB_STEP_START_LOG := "Starting to push changes to GitHub.".
Definition PUSH_TO_GITHUB_STEP_FINISH_LOG := "Successfully pushed changes to GitHub".
Definition PUSH_TO_GITHUB_STEP_FAILED_LOG := "Push changes to GitHub failed".
Definition ACTION_ZIP_LOG := "Creating ZIP file".
Definition ACTION_JOB_DONE_LOG := "Build job done".
Definition JOB_STARTED_LOG := "Build job started".
Definition JOB_DONE_LOG := "Build job done".
Definition CONTAINER_STATUS_UPDATE_INTERVAL_SEC : Z := 10%Z.

(** ** Data transfer objects *)

(** A log line's metadata: a JSON object, here a list of keys with the
    strings stored under them. *)
Definition Meta := list (string * list string).

Module ActionLog.
Record t := mk {
  level : option EnumActionLogLevel.t;
  message : string;
  meta : Meta
}.
End ActionLog.

Module ActionStep.
Record t := mk {
  id : nat;
  actionId : nat;
  name : string;
  message : string;
  status : EnumActionStepStatus.t;
  completedAt : option Z;
  logs : list ActionLog.t
}.
End ActionStep.

Module Action.
Record t := mk { steps : list ActionStep.t }.
End Action.

Module App.
Record t := mk {
  id : string;
  name : string;
  description : string;
  githubSyncEnabled : bool;
  githubRepo : string;
  githubBranch : string;
  githubToken : string
}.
End App.

Module Commit.
Record t := mk { id : string; message : string }.
End Commit.

Module Build.
(** [app] and [commit] are present when the query includes them,
    [action] when it was made with [ACTION_INCLUDE]. *)
Record t := mk {
  id : string;
  createdAt : Z;
  appId : string;
  app : option App.t;
  commitId : string;
  commit : option Commit.t;
  version : string;
  message : string;
  actionId : nat;
  action : option Action.t;
  images : list string;
  containerStatusQuery : option string;
  containerStatusUpdatedAt : option Z
}.
End Build.

Module BuildResult.
(** Result of the container builder's [build] and [getStatus]. *)
Record t := mk {
  status : ContainerBuildStatus.t;
  images : list string;
  statusQuery : option string
}.
End BuildResult.

Module BuildRequest.
Record t := mk {
  tags : list string;
  cacheFrom : list string;
  url : option string
}.
End BuildRequest.

Module Entity.
(** [DataServiceGenerator.Entity]; only the creation time matters to the
    service. *)
Record t := mk { id : string; name : string; createdAt : Z }.
End Entity.

Module AppRole.
Record t := mk { name : string }.
End AppRole.

Module CodeModule.
(** [DataServiceGenerator.Module]: a generated file. *)
Record t := mk { path : string; code : string }.
End CodeModule.

Module AppInfo.
Record t := mk {
  name : string;
  description : string;
  version : string;
  id : string;
  url : string
}.
End AppInfo.

Module LogInfo.
(** A record emitted by the generator's winston logger. *)
Record t := mk { level : string; message : string; meta : Meta }.
End LogInfo.

Module PullRequest.
(** Arguments of [githubService.createPullRequest]. *)
Record t := mk {
  userName : option string;
  repoName : option string;
  modules : list CodeModule.t;
  branchName : string;
  commitMessage : string;
  body : string;
  baseBranch : string;
  token : string
}.
End PullRequest.

(** ** Errors *)

Inductive Error :=
| BuildNotFoundError (buildId : string)
| StepNotFoundError (stepName : string)
| StepNotCompleteError (stepName status : string)
| BuildResultNotFound (buildId : string)
| TypeError (what : string)
| ActionNotFound (actionId : nat)
| InvalidStepTransition (stepId : nat)
| MethodNotSupported
| RemoteError (detail : string).

(** [`${error}`]: the text of an error. *)
Definition errorText (e : Error) : string :=
  match e with
  | BuildNotFoundError i => "BuildNotFoundError: " +:+ i
  | StepNotFoundError n => "StepNotFoundError: " +:+ n
  | StepNotCompleteError n st => "StepNotCompleteError: " +:+ n +:+ " " +:+ st
  | BuildResultNotFound i => "BuildResultNotFound: " +:+ i
  | TypeError w => "TypeError: " +:+ w
  | ActionNotFound _ => "ActionNotFound"
  | InvalidStepTransition _ => "InvalidStepTransition"
  | MethodNotSupported => "MethodNotSupported"
  | RemoteError d => "Error: " +:+ d
  end.

Inductive Result (A : Type) :=
| Ok (a : A)
| Throw (e : Error).
Arguments Ok {A} a.
Arguments Throw {A} e.

(** ** Database rows, history of external calls, state *)

Module BuildRow.
(** A row of the build table; the key (the Build's id) is kept by the
    table. *)
Record t := mk {
  createdAt : Z;
  appId : string;
  commitId : string;
  version : string;
  message : string;
  actionId : nat;
  images : list string;
  containerStatusQuery : option string;
  containerStatusUpdatedAt : option Z
}.

Definition set_images (imgs : list string) (r : t) : t :=
  mk (createdAt r) (appId r) (commitId r) (version r) (message r)
     (actionId r) imgs (containerStatusQuery r) (containerStatusUpdatedAt r).

Definition set_containerStatus (q : option string) (at_ : Z) (r : t) : t :=
  mk (createdAt r) (appId r) (commitId r) (version r) (message r)
     (actionId r) (images r) q (Some at_).
End BuildRow.

Module StepRow.
(** A row of the step table; the step's id is its position in the
    table. *)
Record t := mk {
  actionId : nat;
  name : string;
  message : string;
  status : EnumActionStepStatus.t;
  completedAt : option Z;
  logs : list ActionLog.t
}.

Definition set_status (st : EnumActionStepStatus.t) (at_ : Z) (r : t) : t :=
  mk (actionId r) (name r) (message r) st (Some at_) (logs r).

Definition add_log (l : ActionLog.t) (r : t) : t :=
  mk (actionId r) (name r) (message r) (status r) (completedAt r)
     (logs r ++ [l]).
End StepRow.

(** Calls made to the external collaborators, in the order in which they
    were made. *)
Inductive Event :=
| EvLoggerInfo (buildId message : string)
| EvCreateDataService (buildId : string) (entities : list Entity.t)
| EvProjectsSync (buildId : string)
| EvCreatePullRequest (buildId : string) (pr : PullRequest.t)
| EvReportSyncMessage (appId message : string)
| EvContainerBuild (buildId : string) (request : BuildRequest.t)
| EvGetStatus (buildId : string) (statusQuery : option string)
| EvAutoDeployToSandbox (buildId : string)
| EvDiskPut (path : string).

Record State := mkState {
  builds : gmap string BuildRow.t;
  actions : nat;
  steps : list StepRow.t;
  disk : gmap string (list Byte.byte);
  clock : Z;
  trace : list Event
}.

Definition set_builds (f : gmap string BuildRow.t → gmap string BuildRow.t)
    (s : State) : State :=
  mkState (f (builds s)) (actions s) (steps s) (disk s) (clock s) (trace s).

Definition set_actions (f : nat → nat) (s : State) : State :=
  mkState (builds s) (f (actions s)) (steps s) (disk s) (clock s) (trace s).

Definition set_steps (f : list StepRow.t → list StepRow.t) (s : State) : State :=
  mkState (builds s) (actions s) (f (steps s)) (disk s) (clock s) (trace s).

Definition set_disk (f : gmap string (list Byte.byte) → gmap string (list Byte.byte))
    (s : State) : State :=
  mkState (builds s) (actions s) (steps s) (f (disk s)) (clock s) (trace s).

Definition add_event (e : Event) (s : State) : State :=
  mkState (builds s) (actions s) (steps s) (disk s) (clock s) (trace s ++ [e]).

(** ** The monad of asynchronous methods *)

Definition M (A : Type) : Type := State → Result A * State.

#[global] Instance M_ret : MRet M := λ A a s, (Ok a, s).

#[global] Instance M_bind : MBind M := λ A B f m s,
  match m s with
  | (Ok a, s') => f a s'
  | (Throw e, s') => (Throw e, s')
  end.

Definition throw {A} (e : Error) : M A := λ s, (Throw e, s).

(** [try { m } catch (error) { h error }]; what [m] did to the state before
    it threw stays done. *)
Definition try_catch {A} (m : M A) (h : Error → M A) : M A := λ s,
  match m s with
  | (Ok a, s') => (Ok a, s')
  | (Throw e, s') => h e s'
  end.

Definition gets {A} (f : State → A) : M A := λ s, (Ok (f s), s).
Definition modify (f : State → State) : M unit := λ s, (Ok tt, f s).
Definition emit (e : Event) : M unit := modify (add_event e).

(** An external call whose outcome the environment decides. *)
Definition liftResult {A} (r : Result A) : M A := λ s, (r, s).

(** [new Date()] *)
Definition newDate : M Z := gets clock.

(** [for (const x of xs) { await body(x) }] *)
Fixpoint forOf {A} (body : A → M unit) (xs : list A) : M unit :=
  match xs with
  | [] => mret tt
  | x :: xs' => _ ← body x; forOf body xs'
  end.

(** ** Callbacks that run side by side *)

(** An asynchronous callback as the event loop sees it: it has settled, or
    it waits for an operation it awaits.  [effect] is what that operation
    does to the state when it takes place, [next] is the callback as it
    goes on from there (up to its next [await]).  Between two operations
    of one callback, operations of other callbacks may take place. *)
Inductive Task (A : Type) : Type :=
| Settled (r : Result A)
| Pending (effect : State → State) (next : State → Task A).
Arguments Settled {A} r.
Arguments Pending {A} effect next.

Fixpoint task_bind {A B} (t : Task A) (k : A → Task B) : Task B :=
  match t with
  | Settled (Ok a) => k a
  | Settled (Throw e) => Settled (Throw e)
  | Pending effect next => Pending effect (λ s, task_bind (next s) k)
  end.

#[global] Instance Task_ret : MRet Task := λ A a, Settled (Ok a).

#[global] Instance Task_bind : MBind Task := λ A B k t, task_bind t k.

(** [await m] inside a callback: the operation [m] takes place in one
    piece, at a moment of its own. *)
Definition await {A} (m : M A) : Task A :=
  Pending (λ s, (m s).2) (λ s, Settled (m s).1).

(** [try { t } catch (error) { h error }] inside a callback. *)
Fixpoint tryCatch {A} (t : Task A) (h : Error → Task A) : Task A :=
  match t with
  | Settled (Ok a) => Settled (Ok a)
  | Settled (Throw e) => h e
  | Pending effect next => Pending effect (λ s, tryCatch (next s) h)
  end.

(** [for (const x of xs) { await body(x) }] inside a callback. *)
Fixpoint forOfTask {A} (body : A → Task unit) (xs : list A) : Task unit :=
  match xs with
  | [] => mret tt
  | x :: xs' => _ ← body x; forOfTask body xs'
  end.

(** [x.field] on a value that may be null or undefined, inside a
    callback. *)
Definition derefTask {A} (what : string) (x : option A) : Task A :=
  match x with
  | Some a => mret a
  | None => Settled (Throw (TypeError what))
  end.

(** A callback awaited by a caller beside which nothing else runs: its
    operations take place one after the other. *)
Fixpoint settle {A} (t : Task A) : M A :=
  match t with
  | Settled r => λ s, (r, s)
  | Pending effect next => λ s, settle (next s) (effect s)
  end.

(** The callbacks given to one [Promise.all], and the first rejection among
    them so far. *)
Record Pool := mkPool {
  callbacks : list (Task unit);
  rejection : option Error
}.

Definition noteRejection (seen : option Error) (t : Task unit) : option Error :=
  match seen, t with
  | Some e, _ => Some e
  | None, Settled (Throw e) => Some e
  | None, _ => None
  end.

(** Callback [i] takes a turn: the operation it waits for takes place and
    the callback runs on to its next [await].  (A turn of a callback that
    has settled, or that does not exist, changes nothing.) *)
Definition takeTurn (i : nat) (ps : Pool * State) : Pool * State :=
  match callbacks ps.1 !! i with
  | Some (Pending effect next) =>
      let t' := next ps.2 in
      (mkPool (<[i := t']> (callbacks ps.1)) (noteRejection (rejection ps.1) t'),
       effect ps.2)
  | Some t => (mkPool (callbacks ps.1) (noteRejection (rejection ps.1) t), ps.2)
  | None => ps
  end.

Definition takeTurns (turns : list nat) (ps : Pool * State) : Pool * State :=
  foldl (λ ps i, takeTurn i ps) ps turns.

(** Callback [i] is left to run to its end. *)
Definition finish (i : nat) (ps : Pool * State) : Pool * State :=
  match callbacks ps.1 !! i with
  | Some t =>
      let rs := settle t ps.2 in
      (mkPool (<[i := Settled rs.1]> (callbacks ps.1))
              (noteRejection (rejection ps.1) (Settled rs.1)),
       rs.2)
  | None => ps
  end.

(** [Promise.all(xs.map(async x => ...))], part-way.  Mapping the callback
    over the list starts every callback in turn: each runs on its own up
    to its first [await], where the first operation it calls has been
    started (its first turn).  From then on a callback goes on whenever the
    operation it awaits completes, which the service does not control:
    [turns] names the callbacks in the order in which they go on. *)
Definition promiseAllAfter (turns : list nat) (ts : list (Task unit)) (s : State)
    : Pool * State :=
  takeTurns (seq 0 (length ts) ++ turns) (mkPool ts None, s).

(** [await Promise.all(...)]: the callbacks take the turns of [schedule],
    and those that have not settled by then are run to their end; every
    callback runs to its end whether or not another one rejects, and the
    whole rejects with the rejection that came first.  (The state is the
    one all callbacks have left: when one rejects, the caller goes on at
    once, while the others finish in the background.) *)
Definition promiseAll (schedule : list nat) (ts : list (Task unit)) : M unit := λ s,
  let ps := foldl (λ ps i, finish i ps) (promiseAllAfter schedule ts s)
                  (seq 0 (length ts)) in
  (match rejection ps.1 with Some e => Throw e | None => Ok tt end, ps.2).

(** What two operations awaited together settle to, [ra] being the
    outcome of the one that settled first. *)
Definition firstRejection (ra rb : Result unit) : Result unit :=
  match ra with
  | Throw e => Throw e
  | Ok _ => rb
  end.

(** ** JavaScript and lodash helpers *)

(** [s.slice(start)] *)
Definition jsSlice (s : string) (start : Z) : string :=
  let len := Z.of_nat (String.length s) in
  let from := if (start <? 0)%Z then Z.max (len + start) 0 else Z.min start len in
  substring (Z.to_nat from) (Z.to_nat (len - from)) s.

(** [s.split(sep)] for a separator of one character *)
Fixpoint jsSplit (sep : Ascii.ascii) (s : string) : list string :=
  match s with
  | EmptyString => [EmptyString]
  | String c s' =>
      if Ascii.eqb c sep then EmptyString :: jsSplit sep s'
      else match jsSplit sep s' with
           | h :: t => String c h :: t
           | [] => [String c EmptyString]
           end
  end.

Definition newline : string := String (Ascii.ascii_of_nat 10) EmptyString.

(** [orderBy(xs, key)] of lodash, and [orderBy: { key: asc }] of a query: a
    stable sort, ascending in [key].  [insertBy key x l] puts [x], which
    came before the members of [l], in front of the first member whose key
    is not smaller. *)
Fixpoint insertBy {A} (key : A → Z) (x : A) (l : list A) : list A :=
  match l with
  | [] => [x]
  | y :: l' => if (key y <? key x)%Z then y :: insertBy key x l' else x :: l
  end.

Definition orderBy {A} (xs : list A) (key : A → Z) : list A :=
  foldr (insertBy key) [] xs.

(** [groupBy(xs, key)] of lodash: an object with one property per key,
    here the list of its properties in the order in which they were added
    (the order in which the keys first occur), each with its members in
    the order of [xs]. *)
Fixpoint addToGroup {A} (k : string) (x : A) (groups : list (string * list A))
    : list (string * list A) :=
  match groups with
  | [] => [(k, [x])]
  | (k', g) :: groups' =>
      if String.eqb k' k then (k', g ++ [x]) :: groups'
      else (k', g) :: addToGroup k x groups'
  end.

Definition groupBy {A} (xs : list A) (key : A → string) : list (string * list A) :=
  fold_left (λ groups x, addToGroup (key x) x groups) xs [].

(** The value of a string of decimal digits. *)
Fixpoint digitsValue (s : string) (acc : N) : option N :=
  match s with
  | EmptyString => Some acc
  | String c s' =>
      let n := N_of_ascii c in
      if (48 <=? n)%N && (n <=? 57)%N then digitsValue s' (acc * 10 + (n - 48))%N
      else None
  end.

(** A property key that is an array index: the canonical decimal form of
    an integer from 0 to 2^32 - 2. *)
Definition arrayIndex (k : string) : option N :=
  match k with
  | EmptyString => None
  | String c rest =>
      if Ascii.eqb c "0"%char && negb (String.eqb rest "") then None
      else match digitsValue k 0 with
           | Some n => if (n <? 4294967295)%N then Some n else None
           | None => None
           end
  end.

Definition isArrayIndex (k : string) : bool :=
  match arrayIndex k with Some _ => true | None => false end.

(** [Object.entries(o)]: the properties whose keys are array indices come
    first, in ascending numeric order, then the others in the order in
    which they were added. *)
Definition objectEntries {A} (o : list (string * A)) : list (string * A) :=
  orderBy (List.filter (λ kv, isArrayIndex kv.1) o)
          (λ kv, match arrayIndex kv.1 with Some n => Z.of_N n | None => 0%Z end)
  ++ List.filter (λ kv, negb (isArrayIndex kv.1)) o.

(** ** The action service *)

Definition toActionStep (i : nat) (r : StepRow.t) : ActionStep.t :=
  ActionStep.mk i (StepRow.actionId r) (StepRow.name r) (StepRow.message r)
    (StepRow.status r) (StepRow.completedAt r) (StepRow.logs r).

(** The steps of an action, as a query returns them. *)
Definition stepsOf (s : State) (actionId : nat) : list ActionStep.t :=
  filter (λ st, ActionStep.actionId st = actionId) (imap toActionStep (steps s)).

(** Modelled from the spec: the action service ([../action/action.service])
    is not among the sources.  [beginStep action name message] creates and
    persists a step in Running state and fails with ActionNotFound if the
    action does not exist. *)
Definition beginStep (actionId : nat) (name message : string) : M ActionStep.t :=
  n ← gets actions;
  if decide (actionId < n)%nat then
    i ← gets (λ s, length (steps s));
    let row := StepRow.mk actionId name message EnumActionStepStatus.Running None [] in
    _ ← modify (set_steps (λ l, l ++ [row]));
    mret (toActionStep i row)
  else throw (ActionNotFound actionId).

(** Modelled from the spec: [log step level message meta] appends a log
    line to the step and never fails the enclosing operation. *)
Definition log (step : ActionStep.t) (level : option EnumActionLogLevel.t)
    (message : string) (meta : Meta) : M unit :=
  modify (set_steps (alter (StepRow.add_log (ActionLog.mk level message meta))
                           (ActionStep.id step))).

(** Modelled from the spec: [logInfo step message meta?] is [log] at level
    Info. *)
Definition logInfo (step : ActionStep.t) (message : string) (meta : Meta) : M unit :=
  log step (Some EnumActionLogLevel.Info) message meta.

(** Modelled from the spec: [complete step status] moves the step from
    Running to the terminal status exactly once; on a step that is not
    Running it fails with InvalidStepTransition. *)
Definition complete (step : ActionStep.t) (status : EnumActionStepStatus.t) : M unit :=
  row ← gets (λ s, steps s !! ActionStep.id step);
  match row with
  | Some r =>
      if decide (StepRow.status r = EnumActionStepStatus.Running) then
        now ← newDate;
        modify (set_steps (alter (StepRow.set_status status now) (ActionStep.id step)))
      else throw (InvalidStepTransition (ActionStep.id step))
  | None => throw (InvalidStepTransition (ActionStep.id step))
  end.

(** Modelled from the spec: [run actionId stepName stepMessage work
    isFinalStep] begins the step and invokes [work step].  On normal return
    the step is marked Succeeded only if [work] did not set a terminal
    status itself, and a stage run with the flag set (the remote build, the
    push to GitHub) is left as [work] left it, since it completes or is
    completed on its own.  On a thrown error the error is logged, the step
    is marked Failed, and the error is re-signalled when [isFinalStep] is
    set; otherwise it is swallowed and the result is undefined. *)
Definition run {T} (actionId : nat) (stepName stepMessage : string)
    (work : ActionStep.t → M T) (isFinalStep : bool) : M (option T) :=
  step ← beginStep actionId stepName stepMessage;
  try_catch
    (result ← work step;
     row ← gets (λ s, steps s !! ActionStep.id step);
     _ ← match row with
         | Some r =>
             if negb isFinalStep
                && bool_decide (StepRow.status r = EnumActionStepStatus.Running)
             then complete step EnumActionStepStatus.Success
             else mret tt
         | None => mret tt
         end;
     mret (Some result))
    (λ error,
     _ ← logInfo step (errorText error) [];
     _ ← complete step EnumActionStepStatus.Failed;
     if isFinalStep then throw error else mret None).

(** ** External collaborators *)

(** What the service consumes from outside: configuration, the services
    owning applications, commits, entities and roles, the code generator,
    the archive writers and storage paths, the container builder, the
    deployment service and the GitHub service.  A call that can fail yields
    a [Result].  [createDataService] yields, with the generator's result,
    the records of its logger that reach the step's log, in the order in
    which they are written there.  [putFile] is whether the disk accepts a
    write.  [schedule] is the order in which the callbacks of a
    [Promise.all] go on after their awaits. *)
Record Env := mkEnv {
  HOST : string;
  AMP_PROJECTS_PATH : option string;
  canDeploy : bool;
  localDiskRoot : string;
  findApp : string → option App.t;
  findCommit : string → option Commit.t;
  getLatestVersions : string → Result (list string);
  getEntitiesByVersions : string → Result (list Entity.t);
  getAppRoles : string → Result (list AppRole.t);
  createDataService :
    list Entity.t → list AppRole.t → AppInfo.t →
    list LogInfo.t * Result (list CodeModule.t);
  projectsSync : string → Build.t → list CodeModule.t → Result unit;
  createZipFileFromModules : list CodeModule.t → list Byte.byte;
  createTarGzFileFromModules : list CodeModule.t → list Byte.byte;
  getBuildZipFilePath : string → string;
  getBuildTarGzFilePath : string → string;
  diskGetUrl : string → Result string;
  pathJoin : string → string → string;
  createImageId : string → string;
  containerBuild : BuildRequest.t → Result BuildResult.t;
  getStatus : option string → Result BuildResult.t;
  autoDeployToSandbox : Build.t → Result unit;
  createPullRequest : PullRequest.t → Result string;
  reportSyncMessage : string → string → Result unit;
  putFile : string → list Byte.byte → Result unit;
  schedule : list nat
}.

Module CreateBuildArgs.
(** [args.data]: the application and the commit to connect, and the
    message. *)
Record t := mk { appId : string; commitId : string; message : string }.
End CreateBuildArgs.

Module StepCreateInput.
(** The data of a step created together with its action. *)
Record t := mk {
  message : string;
  name : string;
  status : EnumActionStepStatus.t;
  completedAt : option Z;
  logs : list ActionLog.t
}.
End StepCreateInput.

(** ** The build service *)

Definition createInitialStepData (version message : string) : M StepCreateInput.t :=
  now ← newDate;
  mret (StepCreateInput.mk
          "Adding task to queue"
          "ADD_TO_QUEUE"
          EnumActionStepStatus.Success
          (Some now)
          [ ActionLog.mk (Some EnumActionLogLevel.Info) "create build generation task" [];
            ActionLog.mk (Some EnumActionLogLevel.Info) ("Build Version: " +:+ version) [];
            ActionLog.mk (Some EnumActionLogLevel.Info) ("Build message: " +:+ message) [] ]).

(** [WINSTON_LEVEL_TO_ACTION_LOG_LEVEL[level]] *)
Definition WINSTON_LEVEL_TO_ACTION_LOG_LEVEL (level : string)
    : option EnumActionLogLevel.t :=
  if String.eqb level "error" then Some EnumActionLogLevel.Error
  else if String.eqb level "warn" then Some EnumActionLogLevel.Warning
  else if String.eqb level "info" then Some EnumActionLogLevel.Info
  else if String.eqb level "debug" then Some EnumActionLogLevel.Debug
  else None.

(** A row of the build table as the object a query returns. *)
Definition toBuild (id : string) (r : BuildRow.t) (app : option App.t)
    (commit : option Commit.t) (action : option Action.t) : Build.t :=
  Build.mk id (BuildRow.createdAt r) (BuildRow.appId r) app (BuildRow.commitId r)
    commit (BuildRow.version r) (BuildRow.message r) (BuildRow.actionId r) action
    (BuildRow.images r) (BuildRow.containerStatusQuery r)
    (BuildRow.containerStatusUpdatedAt r).

(** [include: ACTION_INCLUDE]: the Build's action with its steps. *)
Definition withAction (s : State) (id : string) (r : BuildRow.t) : Build.t :=
  toBuild id r None None (Some (Action.mk (stepsOf s (BuildRow.actionId r)))).

(** [x.field] on a value that may be null or undefined. *)
Definition deref {A} (what : string) (x : option A) : M A :=
  match x with
  | Some a => mret a
  | None => throw (TypeError what)
  end.

(** [this.prisma.build.update({ where: { id }, data })] *)
Definition prismaBuildUpdate (id : string) (f : BuildRow.t → BuildRow.t) : M unit :=
  row ← gets (λ s, builds s !! id);
  match row with
  | Some _ => modify (set_builds (alter f id))
  | None => throw (RemoteError "Record to update not found")
  end.

Definition isRunningDockerStep (st : ActionStep.t) : bool :=
  bool_decide (ActionStep.status st = EnumActionStepStatus.Running)
  && String.eqb (ActionStep.name st) BUILD_DOCKER_IMAGE_STEP_NAME.

(** The [where] clause of the query of [updateRunningBuildsStatus]. *)
Definition dueForPoll (lastUpdateThreshold : Z) (b : Build.t) : bool :=
  match Build.containerStatusUpdatedAt b with
  | Some t => (t <? lastUpdateThreshold)%Z
  | None => false
  end
  && match Build.action b with
     | Some action => existsb isRunningDockerStep (Action.steps action)
     | None => false
     end.

(** The query of [updateRunningBuildsStatus]: the Builds last polled
    before the threshold that have a running "build docker" step, oldest
    first, each with its action and steps. *)
Definition runningBuildsAt (lastUpdateThreshold : Z) (s : State) : list Build.t :=
  orderBy
    (List.filter (dueForPoll lastUpdateThreshold)
       (map (λ kv, withAction s kv.1 kv.2) (map_to_list (builds s))))
    Build.createdAt.

Definition findRunningBuilds (lastUpdateThreshold : Z) : M (list Build.t) :=
  gets (runningBuildsAt lastUpdateThreshold).

Section BuildService.

Variable env : Env.

(** [this.prisma.build.create]: the Build, its action and the action's
    first step are created together, under an id not in use; the result
    includes the commit and the application. *)
Definition prismaBuildCreate (data : CreateBuildArgs.t) (version : string)
    (createdAt : Z) (entityVersions : list string) (step : StepCreateInput.t)
    : M Build.t :=
  match findApp env (CreateBuildArgs.appId data),
        findCommit env (CreateBuildArgs.commitId data) with
  | Some app, Some commit =>
      id ← gets (λ s, fresh (dom (builds s)));
      actionId ← gets actions;
      _ ← modify (set_actions S);
      _ ← modify (set_steps (λ l, l ++
             [StepRow.mk actionId (StepCreateInput.name step)
                (StepCreateInput.message step) (StepCreateInput.status step)
                (StepCreateInput.completedAt step) (StepCreateInput.logs step)]));
      let row := BuildRow.mk createdAt (CreateBuildArgs.appId data)
                   (CreateBuildArgs.commitId data) version
                   (CreateBuildArgs.message data) actionId [] None None in
      _ ← modify (set_builds (insert id row));
      mret (toBuild id row (Some app) (Some commit) None)
  | _, _ => throw (RemoteError "Record to connect not found")
  end.

(** [handleContainerBuilderResult(build, step, result)], with its awaits. *)
Definition handleContainerBuilderResultTask (build : Build.t) (step : ActionStep.t)
    (result : BuildResult.t) : Task unit :=
  match BuildResult.status result with
  | ContainerBuildStatus.Completed =>
      _ ← await (logInfo step BUILD_DOCKER_IMAGE_STEP_FINISH_LOG
                   [("images", BuildResult.images result)]);
      _ ← await (complete step EnumActionStepStatus.Success);
      _ ← await (prismaBuildUpdate (Build.id build)
                   (BuildRow.set_images (BuildResult.images result)));
      if canDeploy env then
        await (_ ← emit (EvAutoDeployToSandbox (Build.id build));
               liftResult (autoDeployToSandbox env build))
      else mret tt
  | ContainerBuildStatus.Failed =>
      _ ← await (logInfo step BUILD_DOCKER_IMAGE_STEP_FAILED_LOG []);
      await (complete step EnumActionStepStatus.Failed)
  | _ =>
      _ ← await (logInfo step BUILD_DOCKER_IMAGE_STEP_RUNNING_LOG []);
      await (now ← newDate;
             prismaBuildUpdate (Build.id build)
               (BuildRow.set_containerStatus (BuildResult.statusQuery result) now))
  end.

(** The method awaited by a caller beside which nothing else runs, as in
    [buildDockerImage]. *)
Definition handleContainerBuilderResult (build : Build.t) (step : ActionStep.t)
    (result : BuildResult.t) : M unit :=
  settle (handleContainerBuilderResultTask build step result).

(** The body of the loop of [updateRunningBuildsStatus] for one Build.
    Its first operation is the call to [getStatus]; what the call answers
    is known when the callback goes on. *)
Definition pollBuildTask (build : Build.t) : Task unit :=
  action ← derefTask "steps" (Build.action build);
  let stepBuildDocker :=
    List.find (λ step, String.eqb (ActionStep.name step) BUILD_DOCKER_IMAGE_STEP_NAME)
              (Action.steps action) in
  tryCatch
    (_ ← await (emit (EvGetStatus (Build.id build) (Build.containerStatusQuery build)));
     result ← Settled (getStatus env (Build.containerStatusQuery build));
     step ← derefTask "id" stepBuildDocker;
     handleContainerBuilderResultTask build step result)
    (λ error,
     step ← derefTask "id" stepBuildDocker;
     _ ← await (logInfo step (errorText error) []);
     await (complete step EnumActionStepStatus.Failed)).

Definition updateRunningBuildsStatus : M unit :=
  now ← newDate;
  let lastUpdateThreshold := (now - CONTAINER_STATUS_UPDATE_INTERVAL_SEC * 1000)%Z in
  builds ← findRunningBuilds lastUpdateThreshold;
  let groups := groupBy builds Build.appId in
  promiseAll (schedule env)
    (map (λ entry, forOfTask pollBuildTask entry.2) (objectEntries groups)).

Definition findOne (id : string) : M (option Build.t) :=
  gets (λ s, (λ r, toBuild id r None None None) <$> builds s !! id).

Definition getGenerateCodeStepStatus (buildId : string) : M (option ActionStep.t) :=
  row ← gets (λ s, builds s !! buildId);
  r ← deref "not iterable" row;
  gets (λ s,
    head (filter (λ st, ActionStep.name st = GENERATE_STEP_NAME)
                 (stepsOf s (BuildRow.actionId r)))).

Definition calcBuildStatus (buildId : string) : M EnumBuildStatus.t :=
  found ← gets (λ s, withAction s buildId <$> builds s !! buildId);
  build ← deref "action" found;
  match Build.action build with
  | None => mret EnumBuildStatus.Invalid
  | Some action =>
      let steps := Action.steps action in
      if bool_decide (length steps = 0%nat) then mret EnumBuildStatus.Invalid
      else if forallb (λ step, bool_decide
                 (ActionStep.status step = EnumActionStepStatus.Success)) steps
      then mret EnumBuildStatus.Completed
      else if existsb (λ step, bool_decide
                 (ActionStep.status step = EnumActionStepStatus.Failed)) steps
      then mret EnumBuildStatus.Failed
      else mret EnumBuildStatus.Running
  end.

(** The stream [download] returns is the content of the file. *)
Definition download (id : string) : M (list Byte.byte) :=
  found ← findOne id;
  match found with
  | None => throw (BuildNotFoundError id)
  | Some build =>
      generatedCodeStep ← getGenerateCodeStepStatus id;
      match generatedCodeStep with
      | None => throw (StepNotFoundError GENERATE_STEP_NAME)
      | Some step =>
          if negb (bool_decide
                (ActionStep.status step = EnumActionStepStatus.Success))
          then throw (StepNotCompleteError GENERATE_STEP_NAME
                        (EnumActionStepStatus.name (ActionStep.status step)))
          else
            let filePath := getBuildZipFilePath env id in
            content ← gets (λ s, disk s !! filePath);
            match content with
            | None => throw (BuildResultNotFound (Build.id build))
            | Some bytes => mret bytes
            end
      end
  end.

(** [getOrderedEntities buildId]: the entities of the Build's versions,
    ordered by creation time.  The source's comment: "this function must
    always return the entities in the same order to prevent unintended code
    changes". *)
Definition getOrderedEntities (buildId : string) : M (list Entity.t) :=
  entities ← liftResult (getEntitiesByVersions env buildId);
  mret (orderBy entities Entity.createdAt).

(** The generator's logger is made with [defaultMeta: { buildId }]: a
    record that has no [buildId] of its own gets the Build's. *)
Definition withDefaultMeta (buildId : string) (info : LogInfo.t) : LogInfo.t :=
  LogInfo.mk (LogInfo.level info) (LogInfo.message info)
    (if existsb (λ kv, String.eqb kv.1 "buildId") (LogInfo.meta info)
     then LogInfo.meta info
     else ("buildId", [buildId]) :: LogInfo.meta info).

Definition createLog (step : ActionStep.t) (info : LogInfo.t) : M unit :=
  let level := WINSTON_LEVEL_TO_ACTION_LOG_LEVEL (LogInfo.level info) in
  let meta := List.filter (λ kv, negb (String.eqb kv.1 "level")) (LogInfo.meta info) in
  log step level (LogInfo.message info) meta.

Definition getFileURL (filePath : string) : M string :=
  match diskGetUrl env filePath with
  | Ok url => mret url
  | Throw MethodNotSupported => mret (pathJoin env (localDiskRoot env) filePath)
  | Throw error => throw error
  end.

(** [disk.put(path, content)]: the file is there once the disk has
    accepted the write. *)
Definition diskPut (path : string) (content : list Byte.byte) : M unit :=
  _ ← emit (EvDiskPut path);
  _ ← liftResult (putFile env path content);
  modify (set_disk (insert path content)).

(** The two archives are made and written by two chains started together;
    making an archive is the first operation of its chain. *)
Definition save (build : Build.t) (modules : list CodeModule.t) : M string :=
  let zipFilePath := getBuildZipFilePath env (Build.id build) in
  let tarFilePath := getBuildTarGzFilePath env (Build.id build) in
  _ ← promiseAll (schedule env)
        [ (zip ← await (mret (createZipFileFromModules env modules));
           await (diskPut zipFilePath zip));
          (tar ← await (mret (createTarGzFileFromModules env modules));
           await (diskPut tarFilePath tar)) ];
  getFileURL tarFilePath.

Definition saveToGitHub (build : Build.t) (modules : list CodeModule.t) : M unit :=
  let app := Build.app build in
  let commit := Build.commit build in
  let truncateBuildId :=
    jsSlice (Build.id build) (Z.of_nat (String.length (Build.id build)) - 8) in
  commit ← deref "message" commit;
  let commitMessage :=
    if negb (String.eqb (Commit.message commit) "")
    then Commit.message commit +:+ " (Amplication build " +:+ truncateBuildId +:+ ")"
    else "Amplication build " +:+ truncateBuildId in
  let host := HOST env in
  let url := host +:+ "/" +:+ Build.appId build +:+ "/builds/" +:+ Build.id build in
  app ← deref "githubSyncEnabled" app;
  if App.githubSyncEnabled app then
    let parts := jsSplit "/"%char (App.githubRepo app) in
    let userName := parts !! 0%nat in
    let repoName := parts !! 1%nat in
    _ ← run (Build.actionId build) PUSH_TO_GITHUB_STEP_NAME PUSH_TO_GITHUB_STEP_MESSAGE
          (λ step,
           _ ← logInfo step PUSH_TO_GITHUB_STEP_START_LOG [];
           try_catch
             (let pr := PullRequest.mk userName repoName modules
                          ("amplication-build-" +:+ Build.id build)
                          commitMessage
                          ("Amplication build # " +:+ Build.id build +:+ "." +:+ newline
                           +:+ "Commit message: " +:+ Commit.message commit +:+ newline
                           +:+ newline +:+ url +:+ newline)
                          (App.githubBranch app) (App.githubToken app) in
              _ ← emit (EvCreatePullRequest (Build.id build) pr);
              prUrl ← liftResult (createPullRequest env pr);
              _ ← emit (EvReportSyncMessage (Build.appId build)
                          "Sync Completed Successfully");
              _ ← liftResult (reportSyncMessage env (Build.appId build)
                                "Sync Completed Successfully");
              _ ← logInfo step prUrl [("githubUrl", [prUrl])];
              _ ← logInfo step PUSH_TO_GITHUB_STEP_FINISH_LOG [];
              complete step EnumActionStepStatus.Success)
             (λ error,
              _ ← logInfo step PUSH_TO_GITHUB_STEP_FAILED_LOG [];
              _ ← logInfo step (errorText error) [];
              _ ← complete step EnumActionStepStatus.Failed;
              _ ← emit (EvReportSyncMessage (Build.appId build)
                          ("Error: " +:+ errorText error));
              liftResult (reportSyncMessage env (Build.appId build)
                            ("Error: " +:+ errorText error))))
          true;
    mret tt
  else mret tt.

(** The callback of [generate].  The block guarded by
    [process.env.AMP_PROJECTS_PATH], which writes the modules into a local
    git working copy, is one call to the environment.  The generator's
    logger hands each record to [createLog] when its transport has logged
    it, whatever the generator's result; which records reach the step's
    log before the stage goes on, and in which order, is the
    environment's. *)
Definition generateWork (build : Build.t) (step : ActionStep.t) : M string :=
  entities ← getOrderedEntities (Build.id build);
  roles ← liftResult (getAppRoles env (Build.appId build));
  let app := findApp env (Build.appId build) in
  let host := HOST env in
  let url := host +:+ "/" +:+ Build.appId build in
  app ← deref "name" app;
  _ ← emit (EvCreateDataService (Build.id build) entities);
  let generated :=
    createDataService env entities roles
      (AppInfo.mk (App.name app) (App.description app) (Build.version build)
         (Build.appId build) url) in
  _ ← forOf (createLog step) (withDefaultMeta (Build.id build) <$> generated.1);
  modules ← liftResult generated.2;
  _ ← logInfo step ACTION_ZIP_LOG [];
  _ ← match AMP_PROJECTS_PATH env with
      | Some projectsPath =>
          _ ← emit (EvProjectsSync (Build.id build));
          liftResult (projectsSync env projectsPath build modules)
      | None => mret tt
      end;
  tarballURL ← save build modules;
  _ ← saveToGitHub build modules;
  _ ← logInfo step ACTION_JOB_DONE_LOG [];
  mret tarballURL.

Definition generate (build : Build.t) : M (option string) :=
  run (Build.actionId build) GENERATE_STEP_NAME GENERATE_STEP_MESSAGE
    (generateWork build) false.

Definition buildDockerImage (build : Build.t) (tarballURL : option string) : M unit :=
  _ ← run (Build.actionId build) BUILD_DOCKER_IMAGE_STEP_NAME
        BUILD_DOCKER_IMAGE_STEP_MESSAGE
        (λ step,
         _ ← logInfo step BUILD_DOCKER_IMAGE_STEP_START_LOG [];
         let tag := Build.appId build +:+ ":" +:+ Build.id build in
         let latestTag := Build.appId build +:+ ":latest" in
         let latestImageId := createImageId env latestTag in
         let request := BuildRequest.mk [tag; latestTag] [latestImageId] tarballURL in
         _ ← emit (EvContainerBuild (Build.id build) request);
         result ← liftResult (containerBuild env request);
         handleContainerBuilderResult build step result)
        true;
  mret tt.

Definition create (args : CreateBuildArgs.t) (skipPublish : bool) : M Build.t :=
  let appId := CreateBuildArgs.appId args in
  let commitId := CreateBuildArgs.commitId args in
  let version := jsSlice commitId (Z.of_nat (String.length commitId) - 8) in
  latestEntityVersions ← liftResult (getLatestVersions env appId);
  createdAt ← newDate;
  initialStep ← createInitialStepData version (CreateBuildArgs.message args);
  build ← prismaBuildCreate args version createdAt latestEntityVersions initialStep;
  _ ← emit (EvLoggerInfo (Build.id build) JOB_STARTED_LOG);
  tarballURL ← generate build;
  _ ← (if negb skipPublish then buildDockerImage build tarballURL else mret tt);
  _ ← emit (EvLoggerInfo (Build.id build) JOB_DONE_LOG);
  mret build.

End BuildService.

(** ** Vocabulary of the properties *)

Definition stepSucceeded (st : ActionStep.t) : Prop :=
  ActionStep.status st = EnumActionStepStatus.Success.

Definition stepFailed (st : ActionStep.t) : Prop :=
  ActionStep.status st = EnumActionStepStatus.Failed.

(** Ascending in [key]. *)
Definition keyLe {A} (key : A → Z) (x y : A) : Prop := (key x ≤ key y)%Z.

(** The Build's generation step, as [getGenerateCodeStepStatus] finds it:
    the first step named GENERATE_APPLICATION of its action. *)
Definition generationStep (s : State) (r : BuildRow.t) : option ActionStep.t :=
  head (filter (λ st, ActionStep.name st = GENERATE_STEP_NAME)
               (stepsOf s (BuildRow.actionId r))).

(** Referential integrity of the step table: every step belongs to an
    action that exists. *)
Definition stepsBelongToActions (s : State) : Prop :=
  Forall (λ r, (StepRow.actionId r < actions s)%nat) (steps s).

(** Time passing between two requests. *)
Definition elapse (ms : Z) (s : State) : State :=
  mkState (builds s) (actions s) (steps s) (disk s) (clock s + ms)%Z (trace s).

(** ** A concrete deployment, for running the service *)

Module Scenario.

Definition app (githubSyncEnabled : bool) : App.t :=
  App.mk "app1" "Shop" "demo" githubSyncEnabled "acme/shop" "main" "token".

Definition commit : Commit.t := Commit.mk "commit-0123456789" "first".

Definition user : Entity.t := Entity.mk "e1" "User" 10.
Definition order : Entity.t := Entity.mk "e2" "Order" 20.

(** One application with one commit; the generator writes one module per
    entity; the disk accepts every write and has no URLs of its own; the
    container builder answers [submitted] to a build request and [polled]
    to a status query; callbacks started together go on in the order in
    which they were started. *)
Definition env (githubSyncEnabled : bool) (entities : list Entity.t)
    (submitted : Result BuildResult.t)
    (polled : option string → Result BuildResult.t) : Env :=
  mkEnv "https://host" None true "/data"
    (λ id, if String.eqb id "app1" then Some (app githubSyncEnabled) else None)
    (λ id, if String.eqb id "commit-0123456789" then Some commit else None)
    (λ _, Ok ["version1"])
    (λ _, Ok entities)
    (λ _, Ok [AppRole.mk "user"])
    (λ es _ _, ([LogInfo.mk "info" "generating" []],
                Ok (map (λ e, CodeModule.mk (Entity.name e) "code") es)))
    (λ _ _ _, Ok tt)
    (λ _, [Byte.x50; Byte.x4b])
    (λ _, [Byte.x1f; Byte.x8b])
    (λ id, "builds/" +:+ id +:+ ".zip")
    (λ id, "builds/" +:+ id +:+ ".tar.gz")
    (λ _, Throw MethodNotSupported)
    (λ root path, root +:+ "/" +:+ path)
    (λ tag, "registry/" +:+ tag)
    (λ _, submitted)
    polled
    (λ _, Ok tt)
    (λ _, Ok "https://github.com/acme/shop/pull/1")
    (λ _ _, Ok tt)
    (λ _ _, Ok tt)
    [].

Definition running (statusQuery : string) : BuildResult.t :=
  BuildResult.mk ContainerBuildStatus.Running [] (Some statusQuery).

Definition completed : BuildResult.t :=
  BuildResult.mk ContainerBuildStatus.Completed ["img:v1"] None.

Definition failed : BuildResult.t :=
  BuildResult.mk ContainerBuildStatus.Failed [] None.

Definition empty : State := mkState ∅ 0 [] ∅ 1000 [].

Definition args : CreateBuildArgs.t :=
  CreateBuildArgs.mk "app1" "commit-0123456789" "msg".

End Scenario.

(** ** Relations between the state before and after a computation *)

(** [respects T m]: whatever [m] returns or throws, the state it leaves is
    related by [T] to the state it started in. *)
Definition respects {A} (T : State → State → Prop) (m : M A) : Prop :=
  ∀ s, T s (m s).2.

(** [TaskRespects T t]: whatever the state in which an operation of the
    callback [t] takes place, the state it leaves is related by [T] to that
    state. *)
Fixpoint TaskRespects {A} (T : State → State → Prop) (t : Task A) : Prop :=
  match t with
  | Settled _ => True
  | Pending effect next => (∀ s, T s (effect s)) ∧ ∀ s, TaskRespects T (next s)
  end.

(** ** Callbacks that rely on one another *)

(** An assertion on the state that the operations [R] allows to others
    cannot falsify. *)
Definition stable (R : State → State → Prop) (P : State → Prop) : Prop :=
  ∀ s s', P s → R s s' → P s'.

(** [Triple R Inv Pre t Post]: when the callback [t] goes on in a state
    satisfying [Pre], and between its operations the others do to the
    state only what [R] allows, then after each of its operations, and
    after whatever the others do next, [Inv] holds, and when it settles
    with [r] the state satisfies [Post r]. *)
Fixpoint Triple {A} (R : State → State → Prop) (Inv : State → Prop)
    (Pre : State → Prop) (t : Task A) (Post : Result A → State → Prop) : Prop :=
  match t with
  | Settled r => ∀ s, Pre s → Post r s
  | Pending effect next =>
      ∀ s, Pre s →
        ∃ Mid : State → Prop,
          stable R Mid ∧ (∀ s', Mid s' → Inv s') ∧ Mid (effect s)
          ∧ Triple R Inv Mid (next s) Post
  end.

(** The callbacks of a pool keep their word: callback [i] does to the
    state only what [G i] allows, and as long as the others do only what
    [R i] allows it maintains [Inv i] and settles as [Post i] says. *)
Definition PoolOk (R G : nat → State → State → Prop) (Inv : nat → State → Prop)
    (Post : nat → Result unit → State → Prop) (ps : Pool * State) : Prop :=
  ∀ i t, callbacks ps.1 !! i = Some t →
    TaskRespects (G i) t
    ∧ ∃ Pre : State → Prop,
        stable (R i) Pre ∧ (∀ s, Pre s → Inv i s) ∧ Pre ps.2
        ∧ Triple (R i) (Inv i) Pre t (Post i).

(** The history of external calls only grows, by calls satisfying [P]. *)
Definition emitsOnly (P : Event → Prop) (s s' : State) : Prop :=
  ∃ events, trace s' = trace s ++ events ∧ Forall P events.

(** Of the step table at most row [i], and of the build table at most the
    row of Build [k], is written; nothing is removed. *)
Definition touchesOnly (i : nat) (k : string) (s s' : State) : Prop :=
  (∀ j, j ≠ i → steps s' !! j = steps s !! j)
  ∧ (∀ k', k' ≠ k → builds s' !! k' = builds s !! k')
  ∧ (∃ events, trace s' = trace s ++ events).

(** What identifies a step and where it stands: action, name and status. *)
Definition stepCore (r : StepRow.t) : nat * string * EnumActionStepStatus.t :=
  (StepRow.actionId r, StepRow.name r, StepRow.status r).

(** The first [n] rows of the step table keep action, name and status
    (they may receive log lines); rows are never removed. *)
Definition keepsStepsBelow (n : nat) (s s' : State) : Prop :=
  (n ≤ length (steps s))%nat →
  (n ≤ length (steps s'))%nat
  ∧ ∀ j, (j < n)%nat → stepCore <$> steps s' !! j = stepCore <$> steps s !! j.

(** The "build docker" step the loop of [updateRunningBuildsStatus] finds
    in a Build read with its action. *)
Definition dockerStepOf (b : Build.t) : option ActionStep.t :=
  action ← Build.action b;
  List.find (λ step, String.eqb (ActionStep.name step) BUILD_DOCKER_IMAGE_STEP_NAME)
            (Action.steps action).

(** ** Vocabulary of the reconciliation sweep *)

(** The Builds a sweep started in state [s] selects. *)
Definition selectedBuilds (s : State) : list Build.t :=
  runningBuildsAt (clock s - CONTAINER_STATUS_UPDATE_INTERVAL_SEC * 1000)%Z s.

(** The status in which a poll leaves the "build docker" step. *)
Definition statusAfterPoll (r : Result BuildResult.t) : EnumActionStepStatus.t :=
  match r with
  | Throw _ => EnumActionStepStatus.Failed
  | Ok result =>
      match BuildResult.status result with
      | ContainerBuildStatus.Completed => EnumActionStepStatus.Success
      | ContainerBuildStatus.Failed => EnumActionStepStatus.Failed
      | ContainerBuildStatus.Running => EnumActionStepStatus.Running
      end
  end.

(** Build [b], as the query returned it, can be polled in state [s]: its
    "build docker" step is Running and its row exists. *)
Definition pollable (s : State) (b : Build.t) : Prop :=
  ∃ step row r,
    dockerStepOf b = Some step
    ∧ steps s !! ActionStep.id step = Some row
    ∧ StepRow.status row = EnumActionStepStatus.Running
    ∧ builds s !! Build.id b = Some r.

(** Build [b] has been polled and advanced: the status call was made, the
    step stands where the answer puts it, and a thrown error is logged in
    the step. *)
Definition polled (env : Env) (s : State) (b : Build.t) : Prop :=
  EvGetStatus (Build.id b) (Build.containerStatusQuery b) ∈ trace s
  ∧ ∃ step row,
      dockerStepOf b = Some step
      ∧ steps s !! ActionStep.id step = Some row
      ∧ StepRow.status row
        = statusAfterPoll (getStatus env (Build.containerStatusQuery b))
      ∧ ∀ e, getStatus env (Build.containerStatusQuery b) = Throw e →
             ActionLog.mk (Some EnumActionLogLevel.Info) (errorText e) []
               ∈ StepRow.logs row.

(** Two Builds with different rows and different "build docker" steps. *)
Definition apart (b c : Build.t) : Prop :=
  Build.id b ≠ Build.id c
  ∧ ActionStep.id <$> dockerStepOf b ≠ ActionStep.id <$> dockerStepOf c.

(** An action has at most one "build docker" step. *)
Definition oneDockerStepPerAction (s : State) : Prop :=
  ∀ i j ri rj,
    steps s !! i = Some ri → steps s !! j = Some rj →
    StepRow.name ri = BUILD_DOCKER_IMAGE_STEP_NAME →
    StepRow.name rj = BUILD_DOCKER_IMAGE_STEP_NAME →
    StepRow.actionId ri = StepRow.actionId rj → i = j.

(** Every Build has an action of its own. *)
Definition actionsNotShared (s : State) : Prop :=
  ∀ id id' r r',
    builds s !! id = Some r → builds s !! id' = Some r' →
    BuildRow.actionId r = BuildRow.actionId r' → id = id'.

(** The deployment of Build [b], should the sweep find its image built
    and deploy it, does not fail. *)
Definition deploymentSucceeds (env : Env) (b : Build.t) : Prop :=
  canDeploy env = true →
  ∀ result,
    getStatus env (Build.containerStatusQuery b) = Ok result →
    BuildResult.status result = ContainerBuildStatus.Completed →
    autoDeployToSandbox env b = Ok tt.


(** ** A sweep whose loops take turns *)

(** The applications of the Builds a sweep started in state [s] selects,
    each with its Builds, in the order in which [Object.entries] lists
    them. *)
Definition sweepGroups (s : State) : list (string * list Build.t) :=
  objectEntries (groupBy (selectedBuilds s) Build.appId).

(** The callbacks the sweep gives to [Promise.all]: for each application
    the loop over its Builds. *)
Definition sweepCallbacks (env : Env) (s : State) : list (Task unit) :=
  map (λ entry, forOfTask (pollBuildTask env) entry.2) (sweepGroups s).

(** The Builds of the [i]-th callback of the sweep. *)
Definition groupAt (s : State) (i : nat) : list Build.t :=
  match sweepGroups s !! i with Some entry => entry.2 | None => [] end.

(** The state in which a sweep started in state [s] has left the system
    once its loops, all started, have gone on in the order [turns]. *)
Definition sweepAfter (env : Env) (turns : list nat) (s : State) : State :=
  (promiseAllAfter turns (sweepCallbacks env s) s).2.

(** The external calls made since the sweep started in state [s0]. *)
Definition callsSince (s0 s : State) : list Event :=
  drop (length (trace s0)) (trace s).

(** The poll of Build [b] has started: its status query has been sent. *)
Definition pollStarted (s0 s : State) (b : Build.t) : Prop :=
  EvGetStatus (Build.id b) (Build.containerStatusQuery b) ∈ callsSince s0 s.

(** Where the poll of Build [b] leaves its "build docker" step and its
    row once the answer has been handled: a thrown error fails the step and
    is logged in it; a completed image build closes the step as Success and
    stores the images; a failed one fails the step; otherwise the step
    stays Running and the new status query and the time of the poll are
    stored. *)
Definition advancedRows (env : Env) (now : Z) (b : Build.t)
    (row : StepRow.t) (r : BuildRow.t) : Prop :=
  match getStatus env (Build.containerStatusQuery b) with
  | Throw e =>
      StepRow.status row = EnumActionStepStatus.Failed
      ∧ ActionLog.mk (Some EnumActionLogLevel.Info) (errorText e) [] ∈ StepRow.logs row
  | Ok result =>
      match BuildResult.status result with
      | ContainerBuildStatus.Completed =>
          StepRow.status row = EnumActionStepStatus.Success
          ∧ BuildRow.images r = BuildResult.images result
      | ContainerBuildStatus.Failed =>
          StepRow.status row = EnumActionStepStatus.Failed
      | ContainerBuildStatus.Running =>
          StepRow.status row = EnumActionStepStatus.Running
          ∧ BuildRow.containerStatusQuery r = BuildResult.statusQuery result
          ∧ BuildRow.containerStatusUpdatedAt r = Some now
      end
  end.

(** Build [b] has been polled and advanced by the sweep started in state
    [s0]: its poll has started and the answer has been handled. *)
Definition advanced (env : Env) (s0 s : State) (b : Build.t) : Prop :=
  pollStarted s0 s b
  ∧ ∃ step row r,
      dockerStepOf b = Some step
      ∧ steps s !! ActionStep.id step = Some row
      ∧ builds s !! Build.id b = Some r
      ∧ advancedRows env (clock s0) b row r.

(** What part of a sweep does to the state: of the step table it writes
    only [rows], of the build table only the rows of [ids]; it does not
    let time pass, and the status queries it sends are for Builds of
    [ids]. *)
Definition sweepStep (rows : nat → Prop) (ids : string → Prop) (s s' : State) : Prop :=
  (∀ j, ¬ rows j → steps s' !! j = steps s !! j)
  ∧ (∀ k, ¬ ids k → builds s' !! k = builds s !! k)
  ∧ clock s' = clock s
  ∧ ∃ events,
      trace s' = trace s ++ events
      ∧ Forall (λ e, ∀ id statusQuery, e = EvGetStatus id statusQuery → ids id) events.

(** The "build docker" steps of the Builds of a group. *)
Definition dockerRows (g : list Build.t) : list nat :=
  omap (λ b, ActionStep.id <$> dockerStepOf b) g.

(** What the loop over the group [g] does to the state, and what it lets
    the other loops do. *)
Definition loopStep (g : list Build.t) : State → State → Prop :=
  sweepStep (λ j, j ∈ dockerRows g) (λ k, k ∈ Build.id <$> g).

Definition othersStep (g : list Build.t) : State → State → Prop :=
  sweepStep (λ j, j ∉ dockerRows g) (λ k, k ∉ Build.id <$> g).

(** The loop stands between the Builds [done] and the Builds [rest]: the
    former have been advanced, the latter wait with their steps Running and
    their polls not started. *)
Definition loopAt (env : Env) (s0 : State) (done rest : list Build.t) (s : State)
    : Prop :=
  clock s = clock s0
  ∧ (length (trace s0) ≤ length (trace s))%nat
  ∧ (∀ b, b ∈ done → advanced env s0 s b)
  ∧ (∀ b, b ∈ rest →
       pollable s b ∧ ∀ statusQuery, EvGetStatus (Build.id b) statusQuery ∉ callsSince s0 s).

(** The loop over [g] is about to poll the first of [rest], or is at its
    end. *)
Definition betweenPolls (env : Env) (s0 : State) (g rest : list Build.t) (s : State)
    : Prop :=
  ∃ done, g = done ++ rest ∧ loopAt env s0 done rest s.

(** The loop over [g] is handling the poll of [b], which has started; the
    step and the row of [b] stand as [φ] says; [rest] is still to come. *)
Definition duringPoll (env : Env) (s0 : State) (g : list Build.t) (b : Build.t)
    (step : ActionStep.t) (rest : list Build.t)
    (φ : StepRow.t → BuildRow.t → Prop) (s : State) : Prop :=
  ∃ done row r,
    g = done ++ b :: rest
    ∧ loopAt env s0 done rest s
    ∧ pollStarted s0 s b
    ∧ dockerStepOf b = Some step
    ∧ steps s !! ActionStep.id step = Some row
    ∧ builds s !! Build.id b = Some r
    ∧ φ row r.

(** The Builds of [g] are polled one after the other: when the poll of
    one has started, those before it in [g] have been advanced. *)
Definition sequentialIn (env : Env) (s0 : State) (g : list Build.t) (s : State)
    : Prop :=
  ∀ before b after,
    g = before ++ b :: after → pollStarted s0 s b →
    ∀ a, a ∈ before → advanced env s0 s a.

(** How the loop over [g] ends: normally, with every Build advanced, or,
    after a deployment has failed, by throwing. *)
Definition loopEnds (env : Env) (s0 : State) (g : list Build.t)
    (r : Result unit) (s : State) : Prop :=
  match r with
  | Ok _ => ∀ b, b ∈ g → advanced env s0 s b
  | Throw _ => ∃ b, b ∈ g ∧ ¬ deploymentSucceeds env b
  end.

(** ** Vocabulary of the pipeline's stages *)

Definition isPublish (e : Event) : Prop :=
  match e with
  | EvCreatePullRequest _ _ => True
  | _ => False
  end.

Definition isImageBuild (e : Event) : Prop :=
  match e with
  | EvContainerBuild _ _ | EvGetStatus _ _ | EvAutoDeployToSandbox _ => True
  | _ => False
  end.

(** The external calls the generation stage of [build] may make: none to
    the container builder or the deployment service, and one to the GitHub
    service only for this Build and only when its application has
    [githubSyncEnabled] set. *)
Definition generationCall (build : Build.t) (e : Event) : Prop :=
  match e with
  | EvCreatePullRequest id _ =>
      id = Build.id build
      ∧ ∃ app, Build.app build = Some app ∧ App.githubSyncEnabled app = true
  | EvContainerBuild _ _ | EvGetStatus _ _ | EvAutoDeployToSandbox _ => False
  | _ => True
  end.

(** The external calls made when the image build is submitted, polled or
    handled: none to the GitHub service. *)
Definition imageBuildCall (e : Event) : Prop := ¬ isPublish e.

(** ** Two runs of the service *)

Module Runs.

(** The image build is accepted at submission and found failed by the
    first poll; the application pushes to GitHub. *)
Definition envFailing : Env :=
  Scenario.env true [Scenario.order; Scenario.user]
    (Ok (Scenario.running "query1")) (λ _, Ok Scenario.failed).

(** A Build is requested in the empty system. *)
Definition created : Result Build.t * State :=
  create envFailing Scenario.args false Scenario.empty.

(** What that request returns, and the state it leaves. *)
Definition createdBuild : Build.t :=
  toBuild "0"
    (BuildRow.mk 1000 "app1" "commit-0123456789" "23456789" "msg" 0 [] None None)
    (Some (Scenario.app true)) (Some Scenario.commit) None.

Definition createdState : State := Eval vm_compute in created.2.

(** The row of that Build once [create] has returned. *)
Definition createdRow : BuildRow.t :=
  BuildRow.mk 1000 "app1" "commit-0123456789" "23456789" "msg" 0 []
    (Some "query1") (Some 1000%Z).

(** The state twenty seconds later, and the Build as a sweep reads it. *)
Definition later : State := Eval vm_compute in elapse 20000 createdState.

Definition laterBuild : Build.t := Eval vm_compute in withAction later "0" createdRow.

(** Its "build docker" step, waiting for the image. *)
Definition laterDockerRow : StepRow.t :=
  StepRow.mk 0 BUILD_DOCKER_IMAGE_STEP_NAME BUILD_DOCKER_IMAGE_STEP_MESSAGE
    EnumActionStepStatus.Running None
    [ ActionLog.mk (Some EnumActionLogLevel.Info) BUILD_DOCKER_IMAGE_STEP_START_LOG [];
      ActionLog.mk (Some EnumActionLogLevel.Info) BUILD_DOCKER_IMAGE_STEP_RUNNING_LOG [] ].

Definition laterDockerStep : ActionStep.t := toActionStep 3 laterDockerRow.

(** The scheduler runs a sweep. *)
Definition swept : Result unit * State :=
  updateRunningBuildsStatus envFailing later.

Definition sweptState : State := Eval vm_compute in swept.2.

End Runs.

(** ** The two readings of the pipeline this development compares *)

(** "If the remote image build fails, the source publisher is never called
    for that Build": no Build whose "build docker" step is Failed has a
    pull request call in the history. *)
Definition publisherNeverCalledForFailedImageBuild (s : State) : Prop :=
  ∀ id r,
    builds s !! id = Some r →
    (∃ i step,
       stepsOf s (BuildRow.actionId r) !! i = Some step
       ∧ ActionStep.name step = BUILD_DOCKER_IMAGE_STEP_NAME
       ∧ ActionStep.status step = EnumActionStepStatus.Failed) →
    ∀ j pr, trace s !! j ≠ Some (EvCreatePullRequest id pr).

(** "create returns the Build right after persisting it, generation not
    being completed before create returns": when [create] returns, the
    Build's action has no generation step that has reached a terminal
    status, and the code generator has not been called for the Build. *)
Definition returnsBeforeGeneration (env : Env) (args : CreateBuildArgs.t)
    (skipPublish : bool) (s : State) : Prop :=
  ∀ build s',
    create env args skipPublish s = (Ok build, s') →
    (∀ i step,
       stepsOf s' (Build.actionId build) !! i = Some step →
       ActionStep.name step = GENERATE_STEP_NAME →
       ActionStep.status step ≠ EnumActionStepStatus.Success
       ∧ ActionStep.status step ≠ EnumActionStepStatus.Failed)
    ∧ (∀ j entities,
         trace s' !! j ≠ Some (EvCreateDataService (Build.id build) entities)).

(** ** Further vocabulary: what an operation leaves alone *)

(** No action is created or removed. *)
Definition keepsActions (s s' : State) : Prop := actions s' = actions s.

(** No file is written. *)
Definition keepsDisk (s s' : State) : Prop := disk s' = disk s.

(** Every row of the step table either was there before, with the same
    action and name, or belongs to an action and has a name that [P]
    allows. *)
Definition addsSteps (P : nat → string → Prop) (s s' : State) : Prop :=
  ∀ i row', steps s' !! i = Some row' →
    (∃ row, steps s !! i = Some row
            ∧ StepRow.actionId row = StepRow.actionId row'
            ∧ StepRow.name row = StepRow.name row')
    ∨ P (StepRow.actionId row') (StepRow.name row').

(** The log line [createLog] stores for a record of the generator's
    logger. *)
Definition toActionLog (info : LogInfo.t) : ActionLog.t :=
  ActionLog.mk (WINSTON_LEVEL_TO_ACTION_LOG_LEVEL (LogInfo.level info))
    (LogInfo.message info)
    (List.filter (λ kv, negb (String.eqb kv.1 "level")) (LogInfo.meta info)).

(** The request [buildDockerImage] sends to the container builder. *)
Definition dockerRequest (env : Env) (build : Build.t) (tarballURL : option string)
    : BuildRequest.t :=
  BuildRequest.mk
    [Build.appId build +:+ ":" +:+ Build.id build; Build.appId build +:+ ":latest"]
    [createImageId env (Build.appId build +:+ ":latest")]
    tarballURL.

(** The pull request [saveToGitHub] asks for. *)
Definition pullRequestOf (env : Env) (build : Build.t) (app : App.t)
    (commit : Commit.t) (modules : list CodeModule.t) : PullRequest.t :=
  let truncateBuildId :=
    jsSlice (Build.id build) (Z.of_nat (String.length (Build.id build)) - 8) in
  PullRequest.mk
    (jsSplit "/"%char (App.githubRepo app) !! 0%nat)
    (jsSplit "/"%char (App.githubRepo app) !! 1%nat)
    modules
    ("amplication-build-" +:+ Build.id build)
    (if negb (String.eqb (Commit.message commit) "")
     then Commit.message commit +:+ " (Amplication build " +:+ truncateBuildId +:+ ")"
     else "Amplication build " +:+ truncateBuildId)
    ("Amplication build # " +:+ Build.id build +:+ "." +:+ newline
     +:+ "Commit message: " +:+ Commit.message commit +:+ newline
     +:+ newline
     +:+ (HOST env +:+ "/" +:+ Build.appId build +:+ "/builds/" +:+ Build.id build)
     +:+ newline)
    (App.githubBranch app) (App.githubToken app).

(** What identifies a Build's row: everything but the images and the
    polling fields. *)
Definition buildCore (r : BuildRow.t)
    : Z * string * string * string * string * nat :=
  (BuildRow.createdAt r, BuildRow.appId r, BuildRow.commitId r,
   BuildRow.version r, BuildRow.message r, BuildRow.actionId r).

(** No Build is added or removed, every Build keeps what identifies it,
    and only the row of Build [id] may change at all. *)
Definition buildsKept (id : string) (s s' : State) : Prop :=
  ∀ k, (k ≠ id → builds s' !! k = builds s !! k)
       ∧ buildCore <$> builds s' !! k = buildCore <$> builds s !! k.

(** The status query an external call carries, if it is one. *)
Definition statusCall (e : Event) : option (string * option string) :=
  match e with
  | EvGetStatus id statusQuery => Some (id, statusQuery)
  | _ => None
  end.

(** The status query a poll of Build [b] sends. *)
Definition statusCallOf (b : Build.t) : string * option string :=
  (Build.id b, Build.containerStatusQuery b).

(** Calls to the container builder's status endpoint and to the deployment
    service. *)
Definition sweepCall (e : Event) : Prop :=
  match e with
  | EvGetStatus _ _ | EvAutoDeployToSandbox _ => True
  | _ => False
  end.

(** The history grows by status queries and deployments only, and the
    status queries are among [queries], none sent more often than it is
    listed. *)
Definition callsWithin (queries : list (string * option string)) (s s' : State) : Prop :=
  ∃ events,
    trace s' = trace s ++ events
    ∧ Forall sweepCall events
    ∧ omap statusCall events ⊆+ queries.

(** [TaskCalls t queries]: whatever the states in which its operations
    take place, the callback [t] calls nothing but the status endpoint and
    the deployment service, and the status queries it sends are among
    [queries], none sent more often than it is listed. *)
Fixpoint TaskCalls {A} (t : Task A) (queries : list (string * option string)) : Prop :=
  match t with
  | Settled _ => True
  | Pending effect next =>
      ∀ s, ∃ events left,
        trace (effect s) = trace s ++ events
        ∧ Forall sweepCall events
        ∧ omap statusCall events ++ left ⊆+ queries
        ∧ TaskCalls (next s) left
  end.

(** ** Variants of the deployment *)

Module Variants.

(** The container builder refuses every build request. *)
Definition envRefusing : Env :=
  Scenario.env true [Scenario.order; Scenario.user]
    (Throw (RemoteError "ECONNREFUSED")) (λ _, Ok Scenario.failed).

(** The same deployment as in the first run, with the entities read in the
    other order. *)
Definition envReversed : Env :=
  Scenario.env true [Scenario.user; Scenario.order]
    (Ok (Scenario.running "query1")) (λ _, Ok Scenario.failed).

(** The first run stopped between persisting the Build and generating it,
    and the state generation leaves from there. *)
Definition persistedRow : BuildRow.t :=
  BuildRow.mk 1000 "app1" "commit-0123456789" "23456789" "msg" 0 [] None None.

Definition persisting : M Build.t :=
  initialStep ← createInitialStepData "23456789" "msg";
  prismaBuildCreate Runs.envFailing Scenario.args "23456789" 1000 ["version1"]
    initialStep.

Definition persisted : State := Eval vm_compute in (persisting Scenario.empty).2.

Definition generated : Result (option string) * State :=
  generate Runs.envFailing Runs.createdBuild persisted.

Definition generatedState : State := Eval vm_compute in generated.2.

End Variants.

(** ** A sweep over two applications *)

Module Sweeps.

(** What the container builder answers to a status query. *)
Definition answers (statusQuery : option string) : Result BuildResult.t :=
  match statusQuery with
  | Some q =>
      if String.eqb q "unreachable" then Throw (RemoteError "ECONNRESET")
      else if String.eqb q "built" then Ok Scenario.completed
      else if String.eqb q "broken" then Ok Scenario.failed
      else Ok (Scenario.running "again")
  | None => Throw (RemoteError "no status query")
  end.

(** The deployment service answers [deployed]; the loops of a sweep go on
    in the order [turns]. *)
Definition env (deployed : Result unit) (turns : list nat) : Env :=
  let e := Scenario.env false [] (Ok (Scenario.running "q")) answers in
  mkEnv (HOST e) (AMP_PROJECTS_PATH e) true (localDiskRoot e) (findApp e)
    (findCommit e) (getLatestVersions e) (getEntitiesByVersions e) (getAppRoles e)
    (createDataService e) (projectsSync e) (createZipFileFromModules e)
    (createTarGzFileFromModules e) (getBuildZipFilePath e) (getBuildTarGzFilePath e)
    (diskGetUrl e) (pathJoin e) (createImageId e) (containerBuild e) (getStatus e)
    (λ _, deployed) (createPullRequest e) (reportSyncMessage e) (putFile e) turns.

Definition dockerStep (actionId : nat) : StepRow.t :=
  StepRow.mk actionId BUILD_DOCKER_IMAGE_STEP_NAME "Building docker image"
    EnumActionStepStatus.Running None [].

Definition row (createdAt : Z) (appId : string) (actionId : nat) (statusQuery : string)
    : BuildRow.t :=
  BuildRow.mk createdAt appId "commit" "version" "message" actionId []
    (Some statusQuery) (Some 0%Z).

(** Four Builds wait for their images: three of one application, two of
    them created at the same time, and one of another application. *)
Definition state : State :=
  mkState
    (<["b1" := row 100 "app1" 0 "unreachable"]>
       (<["b2" := row 100 "app1" 1 "built"]>
          (<["b3" := row 200 "app1" 2 "pending"]>
             (<["b4" := row 150 "app2" 3 "built"]> ∅))))
    4 [dockerStep 0; dockerStep 1; dockerStep 2; dockerStep 3] ∅ 100000 [].


(** Deployments succeed; the loop of the second application goes on
    first. *)
Definition envCalm : Env := env (Ok tt) [1; 1; 1; 1; 0; 0].





End Sweeps.

(** * Properties *)

(** ** Evaluation of the monad *)

Lemma bind_unfold {A B} (m : M A) (k : A → M B) (s : State) :
  (m ≫= k) s = match m s with
               | (Ok a, s') => k a s'
               | (Throw e, s') => (Throw e, s')
               end.
Proof. reflexivity. Qed.

Lemma bind_ok {A B} (m : M A) (k : A → M B) s a s' :
  m s = (Ok a, s') → (m ≫= k) s = k a s'.
Proof. intros E. rewrite bind_unfold, E. reflexivity. Qed.

Lemma bind_throw {A B} (m : M A) (k : A → M B) s e s' :
  m s = (Throw e, s') → (m ≫= k) s = (Throw e, s').
Proof. intros E. rewrite bind_unfold, E. reflexivity. Qed.

Lemma bind_gets {A B} (f : State → A) (k : A → M B) s :
  (gets f ≫= k) s = k (f s) s.
Proof. reflexivity. Qed.

Lemma bind_modify {B} (f : State → State) (k : unit → M B) s :
  (modify f ≫= k) s = k tt (f s).
Proof. reflexivity. Qed.

Lemma bind_emit {B} (e : Event) (k : unit → M B) s :
  (emit e ≫= k) s = k tt (add_event e s).
Proof. reflexivity. Qed.

Lemma bind_liftResult {A B} (r : Result A) (k : A → M B) s :
  (liftResult r ≫= k) s = match r with
                          | Ok a => k a s
                          | Throw e => (Throw e, s)
                          end.
Proof. unfold liftResult. rewrite bind_unfold. by destruct r. Qed.

Lemma bind_ret {A B} (a : A) (k : A → M B) s : (mret a ≫= k) s = k a s.
Proof. reflexivity. Qed.

(** ** Callbacks run on their own *)

Lemma settle_ret {A} (a : A) s : settle (mret a) s = (Ok a, s).
Proof. reflexivity. Qed.

Lemma settle_await {A} (m : M A) s : settle (await m) s = m s.
Proof. simpl. by destruct (m s). Qed.

Lemma settle_bind {A B} (t : Task A) (k : A → Task B) s :
  settle (t ≫= k) s = (settle t ≫= λ a, settle (k a)) s.
Proof.
  revert s. induction t as [[a|e]|effect next IH]; intros s; [done..|].
  change (settle (next s ≫= k) (effect s)
          = (settle (next s) ≫= λ a, settle (k a)) (effect s)).
  apply IH.
Qed.

Lemma settle_tryCatch {A} (t : Task A) (h : Error → Task A) s :
  settle (tryCatch t h) s = try_catch (settle t) (λ e, settle (h e)) s.
Proof.
  revert s. induction t as [[a|e]|effect next IH]; intros s; [done| |].
  - unfold try_catch. simpl. by destruct (settle (h e) s).
  - change (settle (tryCatch (next s) h) (effect s)
            = try_catch (settle (next s)) (λ e, settle (h e)) (effect s)).
    apply IH.
Qed.

Lemma settle_forOfTask {A} (body : A → Task unit) (xs : list A) s :
  settle (forOfTask body xs) s = forOf (λ x, settle (body x)) xs s.
Proof.
  revert s. induction xs as [|x xs IH]; intros s; [done|].
  simpl. rewrite settle_bind, !bind_unfold.
  destruct (settle (body x) s) as [[[]|e] s1]; [apply IH|done].
Qed.

Lemma settle_derefTask {A} what (x : option A) s :
  settle (derefTask what x) s = deref what x s.
Proof. by destruct x. Qed.

(** Equal computations are related to the same states. *)
Lemma bind_ext {A B} (m m' : M A) (k k' : A → M B) s :
  m s = m' s → (∀ a s1, k a s1 = k' a s1) → (m ≫= k) s = (m' ≫= k') s.
Proof.
  intros Hm Hk. rewrite !bind_unfold, Hm. destruct (m' s) as [[a|e] s1]; [apply Hk|done].
Qed.

(** The method awaited on its own does its operations in the order of
    the source. *)
Lemma handleContainerBuilderResult_seq env build step result s :
  handleContainerBuilderResult env build step result s =
    match BuildResult.status result with
    | ContainerBuildStatus.Completed =>
        _ ← logInfo step BUILD_DOCKER_IMAGE_STEP_FINISH_LOG
              [("images", BuildResult.images result)];
        _ ← complete step EnumActionStepStatus.Success;
        _ ← prismaBuildUpdate (Build.id build)
              (BuildRow.set_images (BuildResult.images result));
        if canDeploy env then
          _ ← emit (EvAutoDeployToSandbox (Build.id build));
          liftResult (autoDeployToSandbox env build)
        else mret tt
    | ContainerBuildStatus.Failed =>
        _ ← logInfo step BUILD_DOCKER_IMAGE_STEP_FAILED_LOG [];
        complete step EnumActionStepStatus.Failed
    | _ =>
        _ ← logInfo step BUILD_DOCKER_IMAGE_STEP_RUNNING_LOG [];
        now ← newDate;
        prismaBuildUpdate (Build.id build)
          (BuildRow.set_containerStatus (BuildResult.statusQuery result) now)
    end s.
Proof.
  unfold handleContainerBuilderResult, handleContainerBuilderResultTask.
  destruct (BuildResult.status result).
  - rewrite settle_bind. apply bind_ext; [apply settle_await|]. intros _ s1.
    apply settle_await.
  - rewrite settle_bind. apply bind_ext; [apply settle_await|]. intros _ s1.
    rewrite settle_bind. apply bind_ext; [apply settle_await|]. intros _ s2.
    rewrite settle_bind. apply bind_ext; [apply settle_await|]. intros _ s3.
    destruct (canDeploy env); [apply settle_await|done].
  - rewrite settle_bind. apply bind_ext; [apply settle_await|]. intros _ s1.
    apply settle_await.
Qed.

Lemma try_catch_ext {A} (m m' : M A) (h h' : Error → M A) s :
  m s = m' s → (∀ e s1, h e s1 = h' e s1) → try_catch m h s = try_catch m' h' s.
Proof.
  intros Hm Hh. unfold try_catch. rewrite Hm.
  destruct (m' s) as [[a|e] s1]; [done|apply Hh].
Qed.

(** ** The turns of callbacks started together *)

Lemma takeTurns_cons i turns ps :
  takeTurns (i :: turns) ps = takeTurns turns (takeTurn i ps).
Proof. reflexivity. Qed.

Lemma takeTurns_app turns more ps :
  takeTurns (turns ++ more) ps = takeTurns more (takeTurns turns ps).
Proof. unfold takeTurns. by rewrite foldl_app. Qed.

Lemma takeTurns_invariant (I : Pool * State → Prop) :
  (∀ i ps, I ps → I (takeTurn i ps)) →
  ∀ turns ps, I ps → I (takeTurns turns ps).
Proof.
  intros Hstep turns. induction turns as [|i turns IH]; intros ps Hps; [done|].
  apply IH, Hstep, Hps.
Qed.

Lemma length_takeTurn i ps : length (callbacks (takeTurn i ps).1) = length (callbacks ps.1).
Proof.
  unfold takeTurn. destruct (callbacks ps.1 !! i) as [[r|effect next]|]; simpl;
    [done| |done]. by rewrite length_insert.
Qed.

(** Leaving a callback to run to its end is giving it turns until it has
    settled. *)
Lemma finish_turns (t : Task unit) i p s :
  callbacks p !! i = Some t →
  ∃ n, finish i (p, s) = takeTurns (replicate (S n) i) (p, s).
Proof.
  revert p s. induction t as [r|effect next IH]; intros p s Ht.
  - exists 0%nat. unfold finish, takeTurns, takeTurn. simpl. rewrite Ht. simpl.
    by rewrite list_insert_id.
  - destruct (IH s (mkPool (<[i := next s]> (callbacks p))
                       (noteRejection (rejection p) (next s))) (effect s))
      as (n & Hn).
    { simpl. apply list_lookup_insert_eq. by eapply lookup_lt_Some. }
    exists (S n). change (replicate (S (S n)) i) with ([i] ++ replicate (S n) i).
    rewrite takeTurns_app.
    assert (Hturn : takeTurns [i] (p, s)
                    = (mkPool (<[i := next s]> (callbacks p))
                         (noteRejection (rejection p) (next s)), effect s)).
    { unfold takeTurns, takeTurn. simpl. by rewrite Ht. }
    rewrite Hturn, <- Hn. unfold finish. simpl. rewrite Ht.
    rewrite list_lookup_insert_eq by (by eapply lookup_lt_Some).
    simpl. rewrite list_insert_insert_eq. f_equal. f_equal.
    destruct (rejection p) as [e|]; [done|].
    destruct (next s) as [[[]|e]|effect' next'] eqn:Hnext; simpl; done.
Qed.

Lemma finishAll_turns (indices : list nat) ps :
  ∃ turns, foldl (λ ps i, finish i ps) ps indices = takeTurns turns ps.
Proof.
  revert ps. induction indices as [|i indices IH]; intros ps.
  - by exists [].
  - simpl. destruct (callbacks ps.1 !! i) as [t|] eqn:Ht.
    + destruct ps as [p s]. destruct (finish_turns t i p s Ht) as (n & Hn).
      destruct (IH (finish i (p, s))) as (turns & Hturns).
      exists (replicate (S n) i ++ turns). by rewrite takeTurns_app, <- Hn.
    + destruct (IH ps) as (turns & Hturns). exists turns.
      unfold finish at 2. by rewrite Ht.
Qed.

(** Leaving all callbacks to run to their ends is a sequence of turns. *)
Lemma promiseAll_finished schedule ts s :
  ∃ more,
    foldl (λ ps i, finish i ps) (promiseAllAfter schedule ts s) (seq 0 (length ts))
      = promiseAllAfter (schedule ++ more) ts s.
Proof.
  destruct (finishAll_turns (seq 0 (length ts)) (promiseAllAfter schedule ts s))
    as (more & Hmore).
  exists more. rewrite Hmore. unfold promiseAllAfter.
  by rewrite !app_assoc, <- !takeTurns_app.
Qed.

(** What [await Promise.all] returns is read off the callbacks after some
    sequence of turns which begins with the turns of the schedule. *)
Lemma promiseAll_turns schedule ts s :
  ∃ more,
    let ps := promiseAllAfter (schedule ++ more) ts s in
    promiseAll schedule ts s
      = (match rejection ps.1 with Some e => Throw e | None => Ok tt end, ps.2).
Proof.
  destruct (promiseAll_finished schedule ts s) as (more & Hmore).
  exists more. simpl. unfold promiseAll. by rewrite Hmore.
Qed.

Lemma length_takeTurns turns ps :
  length (callbacks (takeTurns turns ps).1) = length (callbacks ps.1).
Proof.
  revert ps. induction turns as [|i turns IH]; intros ps; [done|].
  rewrite takeTurns_cons, IH. apply length_takeTurn.
Qed.






(** ** Callbacks that rely on one another *)

Section Rely.

Context (R : State → State → Prop) (Inv : State → Prop).

Lemma Triple_pre {A} (Pre Pre' : State → Prop) (t : Task A) Post :
  (∀ s, Pre s → Pre' s) → Triple R Inv Pre' t Post → Triple R Inv Pre t Post.
Proof.
  intros Himp Ht. destruct t as [r|effect next]; simpl in *;
    intros s Hs; apply Ht, Himp, Hs.
Qed.

Lemma Triple_post {A} Pre (t : Task A) (Post Post' : Result A → State → Prop) :
  (∀ r s, Post r s → Post' r s) → Triple R Inv Pre t Post → Triple R Inv Pre t Post'.
Proof.
  intros Himp. revert Pre. induction t as [r|effect next IH]; intros Pre Ht; simpl in *.
  - intros s Hs. apply Himp, Ht, Hs.
  - intros s Hs. destruct (Ht s Hs) as (Mid & Hst & Hinv & Hmid & Hnext).
    exists Mid. split_and!; [done..|]. by apply IH.
Qed.

Lemma Triple_settled {A} (Pre : State → Prop) (r : Result A)
    (Post : Result A → State → Prop) :
  (∀ s, Pre s → Post r s) → Triple R Inv Pre (Settled r) Post.
Proof. done. Qed.

Lemma Triple_ret {A} (Pre : State → Prop) (a : A) (Post : Result A → State → Prop) :
  (∀ s, Pre s → Post (Ok a) s) → Triple R Inv Pre (mret a) Post.
Proof. done. Qed.

Lemma Triple_await {A} (Pre : State → Prop) (m : M A) (Post : Result A → State → Prop) :
  (∀ r, stable R (Post r)) → (∀ r s, Post r s → Inv s) →
  (∀ s, Pre s → Post (m s).1 (m s).2) →
  Triple R Inv Pre (await m) Post.
Proof.
  intros Hst Hinv Hm s Hs. exists (Post (m s).1).
  split_and!; [apply Hst|apply Hinv|by apply Hm|]. simpl. done.
Qed.

Lemma Triple_bind {A B} Pre (t : Task A) (k : A → Task B)
    (Mid : Result A → State → Prop) Post :
  Triple R Inv Pre t Mid →
  (∀ a, Triple R Inv (Mid (Ok a)) (k a) Post) →
  (∀ e s, Mid (Throw e) s → Post (Throw e) s) →
  Triple R Inv Pre (t ≫= k) Post.
Proof.
  intros Ht Hk Hthrow. revert Pre Ht.
  induction t as [[a|e]|effect next IH]; intros Pre Ht.
  - change (Triple R Inv Pre (k a) Post). eapply Triple_pre; [exact Ht|apply Hk].
  - intros s Hs. apply Hthrow, Ht, Hs.
  - intros s Hs. destruct (Ht s Hs) as (Mid' & Hst & Hinv & Hmid & Hnext).
    exists Mid'. split_and!; [done..|]. apply IH, Hnext.
Qed.

Lemma Triple_tryCatch {A} Pre (t : Task A) (h : Error → Task A)
    (Mid : Result A → State → Prop) Post :
  Triple R Inv Pre t Mid →
  (∀ e, Triple R Inv (Mid (Throw e)) (h e) Post) →
  (∀ a s, Mid (Ok a) s → Post (Ok a) s) →
  Triple R Inv Pre (tryCatch t h) Post.
Proof.
  intros Ht Hh Hok. revert Pre Ht.
  induction t as [[a|e]|effect next IH]; intros Pre Ht.
  - intros s Hs. apply Hok, Ht, Hs.
  - change (Triple R Inv Pre (h e) Post). eapply Triple_pre; [exact Ht|apply Hh].
  - intros s Hs. destruct (Ht s Hs) as (Mid' & Hst & Hinv & Hmid & Hnext).
    exists Mid'. split_and!; [done..|]. apply IH, Hnext.
Qed.

(** What the precondition implies of no state in particular may be
    assumed. *)
Lemma Triple_pure {A} (Pre : State → Prop) (t : Task A) Post (P : Prop) :
  (∀ s, Pre s → P) → (P → Triple R Inv Pre t Post) → Triple R Inv Pre t Post.
Proof.
  intros HP Ht. destruct t as [r|effect next]; intros s Hs; by apply (Ht (HP s Hs)).
Qed.

(** A loop with the invariant [L], stated of what is left of the list. *)
Lemma Triple_forOfTask {A} (body : A → Task unit) (L : list A → State → Prop)
    (Post : Result unit → State → Prop) xs :
  (∀ x rest,
     Triple R Inv (L (x :: rest)) (body x)
       (λ r s, match r with Ok _ => L rest s | Throw e => Post (Throw e) s end)) →
  (∀ s, L [] s → Post (Ok tt) s) →
  Triple R Inv (L xs) (forOfTask body xs) Post.
Proof.
  intros Hbody Hend. induction xs as [|x xs IH]; [exact Hend|].
  simpl. eapply Triple_bind; [apply Hbody|intros []; exact IH|done].
Qed.

End Rely.

(** A turn of one callback leaves the pool in order, provided what any
    callback may do is something all the others allow for. *)
Lemma PoolOk_takeTurn R G Inv Post j ps :
  (∀ i k s s', i ≠ k → G k s s' → R i s s') →
  PoolOk R G Inv Post ps → PoolOk R G Inv Post (takeTurn j ps).
Proof.
  intros Hcompat Hok. unfold takeTurn.
  destruct (callbacks ps.1 !! j) as [[r|effect next]|] eqn:Hj; [done| |done].
  destruct (Hok j _ Hj) as ([Hg Hgnext] & Prej & _ & _ & Hprej & Htriple).
  destruct (Htriple _ Hprej) as (Mid & Hstable & Hinv & Hmid & Hnext).
  intros i t Hi. simpl in Hi. simpl.
  destruct (decide (i = j)) as [->|Hne].
  - rewrite list_lookup_insert_eq in Hi by (by eapply lookup_lt_Some).
    injection Hi as <-. split; [apply Hgnext|]. by exists Mid.
  - rewrite list_lookup_insert_ne in Hi by done.
    destruct (Hok i t Hi) as (Hgi & Prei & Hsti & Hinvi & Hprei & Htriplei).
    split; [done|]. exists Prei. split_and!; [done..| |done].
    eapply Hsti; [exact Hprei|]. eapply Hcompat; [exact Hne|]. apply Hg.
Qed.

Lemma PoolOk_takeTurns R G Inv Post turns ps :
  (∀ i k s s', i ≠ k → G k s s' → R i s s') →
  PoolOk R G Inv Post ps → PoolOk R G Inv Post (takeTurns turns ps).
Proof.
  intros Hcompat. apply takeTurns_invariant. intros i ps'. by apply PoolOk_takeTurn.
Qed.

(** Callbacks which keep their word from the start do so after any
    sequence of turns; each maintains its invariant, and one that has
    settled has done so as promised. *)
Lemma PoolOk_promiseAllAfter R G Inv Post (Pre : nat → State → Prop) turns ts s :
  (∀ i k s s', i ≠ k → G k s s' → R i s s') →
  (∀ i t, ts !! i = Some t →
     TaskRespects (G i) t ∧ stable (R i) (Pre i) ∧ (∀ s, Pre i s → Inv i s) ∧ Pre i s
     ∧ Triple (R i) (Inv i) (Pre i) t (Post i)) →
  let ps := promiseAllAfter turns ts s in
  ∀ i, (i < length ts)%nat →
    Inv i ps.2 ∧ ∀ r, callbacks ps.1 !! i = Some (Settled r) → Post i r ps.2.
Proof.
  intros Hcompat Hts ps i Hi.
  assert (Hok : PoolOk R G Inv Post ps).
  { apply PoolOk_takeTurns; [done|]. intros k t Hk. simpl in Hk.
    destruct (Hts k t Hk) as (Hg & Hst & Hinv & Hpre & Htriple).
    split; [done|]. by exists (Pre k). }
  assert (Hlen : (i < length (callbacks ps.1))%nat).
  { unfold ps, promiseAllAfter. by rewrite length_takeTurns. }
  apply lookup_lt_is_Some_2 in Hlen as [t Ht].
  destruct (Hok i t Ht) as (_ & Prei & _ & Hinv & Hpre & Htriple).
  split; [by apply Hinv|]. intros r Hr. rewrite Ht in Hr. injection Hr as ->.
  by apply Htriple.
Qed.

(** ** Status of a Build (calcBuildStatus) *)

Lemma forallb_succeeded (l : list ActionStep.t) :
  forallb (λ step, bool_decide (ActionStep.status step = EnumActionStepStatus.Success)) l
    = true ↔ Forall stepSucceeded l.
Proof.
  induction l as [|x l IH]; simpl.
  - split; [constructor|done].
  - rewrite andb_true_iff, bool_decide_eq_true, IH, Forall_cons. reflexivity.
Qed.

Lemma existsb_failed (l : list ActionStep.t) :
  existsb (λ step, bool_decide (ActionStep.status step = EnumActionStepStatus.Failed)) l
    = true ↔ Exists stepFailed l.
Proof.
  induction l as [|x l IH]; simpl.
  - split; [done|]. intros H. by apply Exists_nil in H.
  - rewrite orb_true_iff, bool_decide_eq_true, IH, Exists_cons. reflexivity.
Qed.

(** What [calcBuildStatus] answers for an existing Build, as a function of
    the steps the query returns. *)
Lemma calcBuildStatus_found s buildId r :
  builds s !! buildId = Some r →
  calcBuildStatus buildId s =
    (Ok (let steps := stepsOf s (BuildRow.actionId r) in
         if bool_decide (length steps = 0%nat) then EnumBuildStatus.Invalid
         else if forallb (λ step, bool_decide
                   (ActionStep.status step = EnumActionStepStatus.Success)) steps
         then EnumBuildStatus.Completed
         else if existsb (λ step, bool_decide
                   (ActionStep.status step = EnumActionStepStatus.Failed)) steps
         then EnumBuildStatus.Failed
         else EnumBuildStatus.Running), s).
Proof.
  intros Hr. unfold calcBuildStatus. rewrite bind_gets, Hr. simpl.
  rewrite bind_ret. simpl.
  destruct (bool_decide (length (stepsOf s (BuildRow.actionId r)) = 0%nat));
    [reflexivity|].
  destruct (forallb _ _); [reflexivity|].
  destruct (existsb _ _); reflexivity.
Qed.

(** C4.  For an existing Build, [calcBuildStatus] changes nothing, and its
    answer is determined by the statuses of the steps of the Build's
    action: Invalid exactly when there is no step; Completed exactly when
    there are steps and all have status Success; Failed exactly when some
    step has status Failed and not all succeeded; Running in every other
    case.  Two Builds whose steps carry the same statuses get the same
    answer. *)
Theorem calcBuildStatus_by_step_statuses s buildId r :
  builds s !! buildId = Some r →
  let steps := stepsOf s (BuildRow.actionId r) in
  ∃ status,
    calcBuildStatus buildId s = (Ok status, s)
    ∧ (status = EnumBuildStatus.Invalid ↔ steps = [])
    ∧ (status = EnumBuildStatus.Completed ↔ steps ≠ [] ∧ Forall stepSucceeded steps)
    ∧ (status = EnumBuildStatus.Failed ↔
         Exists stepFailed steps ∧ ¬ Forall stepSucceeded steps)
    ∧ (status = EnumBuildStatus.Running ↔
         steps ≠ [] ∧ ¬ Forall stepSucceeded steps ∧ ¬ Exists stepFailed steps)
    ∧ (∀ s2 buildId2 r2,
         builds s2 !! buildId2 = Some r2 →
         ActionStep.status <$> stepsOf s2 (BuildRow.actionId r2)
           = ActionStep.status <$> steps →
         (calcBuildStatus buildId2 s2).1 = Ok status).
Proof.
  intros Hr steps. eexists. split; [by apply calcBuildStatus_found|].
  fold steps. simpl.
  assert (Hnil : bool_decide (length steps = 0%nat) = true ↔ steps = []).
  { rewrite bool_decide_eq_true. apply length_zero_iff_nil. }
  pose proof (forallb_succeeded steps) as Hall.
  pose proof (existsb_failed steps) as Hex.
  assert (Hfail_nonempty : Exists stepFailed steps → steps ≠ []).
  { intros H ->. by apply Exists_nil in H. }
  assert (Hfail_notall : Exists stepFailed steps → ¬ Forall stepSucceeded steps).
  { intros H1 H2. apply Exists_exists in H1 as (x & Hx & Hf).
    rewrite Forall_forall in H2. specialize (H2 x Hx).
    unfold stepFailed, stepSucceeded in *. congruence. }
  split_and!.
  1-4: destruct (bool_decide (length steps = 0%nat));
    [assert (E1 : steps = []) by (by apply Hnil)
    |assert (E1 : steps ≠ []) by (intros X; apply Hnil in X; discriminate)];
    (destruct (forallb _ steps);
      [assert (E2 : Forall stepSucceeded steps) by (by apply Hall)
      |assert (E2 : ¬ Forall stepSucceeded steps)
         by (intros X; apply Hall in X; discriminate)]);
    (destruct (existsb _ steps);
      [assert (E3 : Exists stepFailed steps) by (by apply Hex)
      |assert (E3 : ¬ Exists stepFailed steps)
         by (intros X; apply Hex in X; discriminate)]);
    clear Hnil Hall Hex;
    (split; intros H; first [discriminate | reflexivity | tauto | exfalso; tauto]).
  - intros s2 buildId2 r2 Hr2 Heq.
    rewrite (calcBuildStatus_found _ _ _ Hr2). simpl. f_equal.
    set (steps2 := stepsOf s2 (BuildRow.actionId r2)) in *.
    assert (Hlen : length steps2 = length steps).
    { by rewrite <- (length_fmap ActionStep.status steps2), Heq, length_fmap. }
    assert (Hfa : ∀ l : list ActionStep.t,
              forallb (λ step, bool_decide
                (ActionStep.status step = EnumActionStepStatus.Success)) l
              = forallb (λ st, bool_decide (st = EnumActionStepStatus.Success))
                  (ActionStep.status <$> l)).
    { intros l. induction l as [|x l IH]; simpl; [done|]. by rewrite IH. }
    assert (Hexb : ∀ l : list ActionStep.t,
              existsb (λ step, bool_decide
                (ActionStep.status step = EnumActionStepStatus.Failed)) l
              = existsb (λ st, bool_decide (st = EnumActionStepStatus.Failed))
                  (ActionStep.status <$> l)).
    { intros l. induction l as [|x l IH]; simpl; [done|]. by rewrite IH. }
    by rewrite Hlen, (Hfa steps2), (Hfa steps), (Hexb steps2), (Hexb steps), Heq.
Qed.

(** C10.  For an identifier that matches no Build, [calcBuildStatus]
    returns no status at all: the lookup yields null, reading its [action]
    throws, and nothing is changed. *)
Theorem calcBuildStatus_unknown_build_throws s buildId :
  builds s !! buildId = None →
  calcBuildStatus buildId s = (Throw (TypeError "action"), s)
  ∧ ∀ status, (calcBuildStatus buildId s).1 ≠ Ok status.
Proof.
  intros Hr.
  assert (E : calcBuildStatus buildId s = (Throw (TypeError "action"), s)).
  { unfold calcBuildStatus. rewrite bind_gets, Hr. reflexivity. }
  split; [exact E|]. intros status. rewrite E. discriminate.
Qed.

(** ** Ordering (orderBy) *)

Section OrderBy.

Context {A : Type} (key : A → Z).

Lemma insertBy_Permutation x l : insertBy key x l ≡ₚ x :: l.
Proof.
  induction l as [|y l IH]; simpl; [done|].
  destruct (key y <? key x)%Z; [|done].
  rewrite IH. apply perm_swap.
Qed.

Lemma orderBy_Permutation l : orderBy l key ≡ₚ l.
Proof.
  unfold orderBy. induction l as [|x l IH]; simpl; [done|].
  by rewrite insertBy_Permutation, IH.
Qed.

Lemma insertBy_StronglySorted x l :
  StronglySorted (keyLe key) l → StronglySorted (keyLe key) (insertBy key x l).
Proof.
  induction l as [|y l IH]; simpl; intros Hs.
  - repeat constructor.
  - apply StronglySorted_cons in Hs as [Hy Hl].
    destruct (key y <? key x)%Z eqn:E.
    + apply Z.ltb_lt in E. apply StronglySorted_cons. split; [|by apply IH].
      rewrite insertBy_Permutation. constructor; [unfold keyLe; lia|done].
    + apply Z.ltb_ge in E. apply StronglySorted_cons. split.
      * constructor; [unfold keyLe; lia|].
        eapply Forall_impl; [exact Hy|]. unfold keyLe. intros z Hz. lia.
      * by apply StronglySorted_cons.
Qed.

Lemma orderBy_StronglySorted l : StronglySorted (keyLe key) (orderBy l key).
Proof.
  unfold orderBy. induction l as [|x l IH]; simpl; [constructor|].
  by apply insertBy_StronglySorted.
Qed.

(** On elements with pairwise different keys the result depends on the
    set of elements only. *)
Lemma orderBy_canonical l1 l2 :
  (∀ x y, x ∈ l1 → y ∈ l1 → key x = key y → x = y) →
  l1 ≡ₚ l2 → orderBy l1 key = orderBy l2 key.
Proof.
  intros Hinj Hp.
  apply (StronglySorted_unique_strong (keyLe key)).
  - intros x y Hx Hy Hxy Hyx. apply Hinj.
    + by rewrite orderBy_Permutation in Hx.
    + by rewrite orderBy_Permutation, <- Hp in Hy.
    + unfold keyLe in *. lia.
  - apply orderBy_StronglySorted.
  - apply orderBy_StronglySorted.
  - by rewrite !orderBy_Permutation.
Qed.

(** A list that is already in ascending order is left as it is; so
    elements with equal keys keep the order they came in. *)
Lemma orderBy_sorted_id l : StronglySorted (keyLe key) l → orderBy l key = l.
Proof.
  unfold orderBy. induction l as [|x l IH]; simpl; [done|]. intros Hs.
  apply StronglySorted_cons in Hs as [Hx Hl]. rewrite (IH Hl).
  destruct l as [|y l]; simpl; [done|].
  apply Forall_cons in Hx as [Hxy _]. unfold keyLe in Hxy.
  destruct (key y <? key x)%Z eqn:E; [|done].
  apply Z.ltb_lt in E. lia.
Qed.

End OrderBy.

(** ** Entities in creation order (getOrderedEntities) *)

Lemma getOrderedEntities_eval env buildId s :
  getOrderedEntities env buildId s =
    match getEntitiesByVersions env buildId with
    | Ok entities => (Ok (orderBy entities Entity.createdAt), s)
    | Throw e => (Throw e, s)
    end.
Proof.
  unfold getOrderedEntities, liftResult. rewrite bind_unfold.
  by destruct (getEntitiesByVersions env buildId).
Qed.

(** Whatever order the query yields the entities in, the result holds
    the same entities, sorted ascending by creation time. *)
Lemma getOrderedEntities_sorted env buildId s entities :
  getEntitiesByVersions env buildId = Ok entities →
  ∃ ordered,
    getOrderedEntities env buildId s = (Ok ordered, s)
    ∧ ordered ≡ₚ entities
    ∧ StronglySorted (keyLe Entity.createdAt) ordered.
Proof.
  intros E. rewrite getOrderedEntities_eval, E. eexists. split; [done|].
  split; [apply orderBy_Permutation | apply orderBy_StronglySorted].
Qed.

(** When no two entities share a creation time, the result is the same
    for every order in which the query yields them. *)
Lemma getOrderedEntities_canonical env1 env2 buildId s es1 es2 :
  getEntitiesByVersions env1 buildId = Ok es1 →
  getEntitiesByVersions env2 buildId = Ok es2 →
  es1 ≡ₚ es2 →
  NoDup (Entity.createdAt <$> es1) →
  getOrderedEntities env1 buildId s = getOrderedEntities env2 buildId s.
Proof.
  intros E1 E2 Hp Hnd. rewrite !getOrderedEntities_eval, E1, E2.
  f_equal. f_equal. apply orderBy_canonical; [|done].
  intros x y Hx Hy Hk.
  apply list_elem_of_lookup in Hx as [i Hi], Hy as [j Hj].
  assert (i = j).
  { eapply NoDup_lookup; [exact Hnd| |].
    - rewrite list_lookup_fmap, Hi. reflexivity.
    - rewrite list_lookup_fmap, Hj. simpl. by rewrite Hk. }
  subst. congruence.
Qed.

(** C8.  The order of the result is not independent of the order in which
    the query yields the entities: two entities created at the same time
    come out in the order the query gave them, so the same entity set read
    in two orders gives two different results. *)
Theorem getOrderedEntities_ties_follow_query_order :
  let a := Entity.mk "e1" "User" 10 in
  let b := Entity.mk "e2" "Order" 10 in
  let poll := λ _, Ok Scenario.failed in
  let env1 := Scenario.env true [a; b] (Ok Scenario.failed) poll in
  let env2 := Scenario.env true [b; a] (Ok Scenario.failed) poll in
  [a; b] ≡ₚ [b; a]
  ∧ (getOrderedEntities env1 "0" Scenario.empty).1 = Ok [a; b]
  ∧ (getOrderedEntities env2 "0" Scenario.empty).1 = Ok [b; a]
  ∧ (getOrderedEntities env1 "0" Scenario.empty).1
      ≠ (getOrderedEntities env2 "0" Scenario.empty).1.
Proof.
  intros a b poll env1 env2. split_and!.
  - apply perm_swap.
  - vm_compute. reflexivity.
  - vm_compute. reflexivity.
  - vm_compute. discriminate.
Qed.

(** ** Steps of an action (stepsOf) *)

Lemma stepsOf_unfold s a :
  stepsOf s a = filter (λ st, ActionStep.actionId st = a) (imap toActionStep (steps s)).
Proof. reflexivity. Qed.

Lemma elem_of_stepsOf s a st :
  st ∈ stepsOf s a ↔
  ∃ r, steps s !! ActionStep.id st = Some r
       ∧ st = toActionStep (ActionStep.id st) r ∧ StepRow.actionId r = a.
Proof.
  rewrite stepsOf_unfold, list_elem_of_filter, elem_of_lookup_imap. split.
  - intros (Ha & i & r & -> & Hr). exists r. simpl. done.
  - intros (r & Hr & Hst & Ha). split.
    + rewrite Hst. done.
    + exists (ActionStep.id st), r. done.
Qed.

Lemma stepsOf_append s a row :
  stepsOf (set_steps (λ l, l ++ [row]) s) a =
    stepsOf s a ++
    (if decide (StepRow.actionId row = a)
     then [toActionStep (length (steps s)) row] else []).
Proof.
  rewrite !stepsOf_unfold. simpl. rewrite imap_app, filter_app. f_equal.
  simpl. rewrite Nat.add_0_r.
  rewrite filter_cons, filter_nil. simpl. by repeat case_decide.
Qed.

Lemma stepsOf_set_builds f s a : stepsOf (set_builds f s) a = stepsOf s a.
Proof. reflexivity. Qed.

Lemma stepsOf_set_actions f s a : stepsOf (set_actions f s) a = stepsOf s a.
Proof. reflexivity. Qed.

Lemma stepsOf_set_disk f s a : stepsOf (set_disk f s) a = stepsOf s a.
Proof. reflexivity. Qed.

Lemma stepsOf_add_event e s a : stepsOf (add_event e s) a = stepsOf s a.
Proof. reflexivity. Qed.

Lemma stepsOf_fresh_action s :
  stepsBelongToActions s → stepsOf s (actions s) = [].
Proof.
  intros Hwf. apply elem_of_nil_inv. intros st Hst.
  apply elem_of_stepsOf in Hst as (r & Hr & _ & Ha).
  unfold stepsBelongToActions in Hwf. rewrite Forall_forall in Hwf.
  apply list_elem_of_lookup_2 in Hr. apply Hwf in Hr. lia.
Qed.

(** ** Download *)

Lemma getGenerateCodeStepStatus_found s id r :
  builds s !! id = Some r →
  getGenerateCodeStepStatus id s = (Ok (generationStep s r), s).
Proof.
  intros Hr. unfold getGenerateCodeStepStatus. rewrite bind_gets, Hr. reflexivity.
Qed.

Lemma download_eval env s id :
  download env id s =
    match builds s !! id with
    | None => (Throw (BuildNotFoundError id), s)
    | Some r =>
        match generationStep s r with
        | None => (Throw (StepNotFoundError GENERATE_STEP_NAME), s)
        | Some step =>
            if bool_decide (ActionStep.status step = EnumActionStepStatus.Success)
            then match disk s !! getBuildZipFilePath env id with
                 | None => (Throw (BuildResultNotFound id), s)
                 | Some bytes => (Ok bytes, s)
                 end
            else (Throw (StepNotCompleteError GENERATE_STEP_NAME
                           (EnumActionStepStatus.name (ActionStep.status step))), s)
        end
    end.
Proof.
  unfold download, findOne. rewrite bind_gets.
  destruct (builds s !! id) as [r|] eqn:Hr; simpl; [|reflexivity].
  rewrite (bind_ok _ _ _ _ _ (getGenerateCodeStepStatus_found s id r Hr)).
  destruct (generationStep s r) as [step|]; [|reflexivity].
  destruct (bool_decide (ActionStep.status step = EnumActionStepStatus.Success));
    simpl; [|reflexivity].
  rewrite bind_gets. by destruct (disk s !! getBuildZipFilePath env id).
Qed.

(** *** Two chains of one operation each, started together *)

(** Both have settled: nothing changes any more. *)
Lemma both_settled (ra rb : Result unit) seen turns s :
  noteRejection (noteRejection seen (Settled ra)) (Settled rb) = seen →
  takeTurns turns (mkPool [Settled ra; Settled rb] seen, s)
    = (mkPool [Settled ra; Settled rb] seen, s).
Proof.
  intros Hseen. induction turns as [|i turns IH]; [done|].
  rewrite takeTurns_cons.
  assert (Hi : takeTurn i (mkPool [Settled ra; Settled rb] seen, s)
               = (mkPool [Settled ra; Settled rb] seen, s)).
  { unfold takeTurn. destruct i as [|[|i]]; simpl; [| |done].
    - f_equal. f_equal. destruct seen as [e|]; [done|].
      by destruct ra as [[]|ea].
    - f_equal. f_equal. destruct seen as [e|]; [done|].
      destruct ra as [[]|ea]; [|done]. by destruct rb as [[]|eb]. }
  by rewrite Hi.
Qed.

Lemma finish_both_settled (ra rb : Result unit) seen s :
  noteRejection (noteRejection seen (Settled ra)) (Settled rb) = seen →
  foldl (λ ps i, finish i ps) (mkPool [Settled ra; Settled rb] seen, s) [0; 1]%nat
    = (mkPool [Settled ra; Settled rb] seen, s).
Proof.
  intros Hseen. unfold finish. simpl. f_equal. f_equal.
  destruct seen as [e|]; [done|]. destruct ra as [[]|ea]; [|done].
  by destruct rb as [[]|eb].
Qed.

Section TwoChains.

Variables (m1 m2 : M unit).

(** The first chain has written, the second has not. *)
Lemma first_written (r1 : Result unit) turns s :
  let ps := foldl (λ ps i, finish i ps)
              (takeTurns turns
                 (mkPool [Settled r1; await m2] (noteRejection None (Settled r1)), s))
              [0; 1]%nat in
  (match rejection ps.1 with Some e => Throw e | None => Ok tt end, ps.2)
    = (firstRejection r1 (m2 s).1, (m2 s).2).
Proof.
  destruct r1 as [[]|e1]; (induction turns as [|i turns IH];
    [unfold finish, takeTurns; simpl; by destruct (m2 s) as [[[]|e2] s2]
    |rewrite takeTurns_cons; destruct i as [|[|i]]; [exact IH| |exact IH]]).
  - change (takeTurn 1 _)
      with (mkPool [Settled (Ok tt); Settled (m2 s).1]
              (noteRejection None (Settled (m2 s).1)), (m2 s).2).
    destruct (m2 s) as [[[]|e2] s2];
      by rewrite both_settled, finish_both_settled.
  - change (takeTurn 1 _)
      with (mkPool [Settled (Throw e1); Settled (m2 s).1] (Some e1), (m2 s).2).
    destruct (m2 s) as [[[]|e2] s2];
      by rewrite both_settled, finish_both_settled.
Qed.

(** The second chain has written, the first has not. *)
Lemma second_written (r2 : Result unit) turns s :
  let ps := foldl (λ ps i, finish i ps)
              (takeTurns turns
                 (mkPool [await m1; Settled r2] (noteRejection None (Settled r2)), s))
              [0; 1]%nat in
  (match rejection ps.1 with Some e => Throw e | None => Ok tt end, ps.2)
    = (firstRejection r2 (m1 s).1, (m1 s).2).
Proof.
  destruct r2 as [[]|e2]; (induction turns as [|i turns IH];
    [unfold finish, takeTurns; simpl; by destruct (m1 s) as [[[]|e1] s1]
    |rewrite takeTurns_cons; destruct i as [|[|i]]; [|exact IH|exact IH]]).
  - change (takeTurn 0 _)
      with (mkPool [Settled (m1 s).1; Settled (Ok tt)]
              (noteRejection None (Settled (m1 s).1)), (m1 s).2).
    destruct (m1 s) as [[[]|e1] s1];
      by rewrite both_settled, finish_both_settled.
  - change (takeTurn 0 _)
      with (mkPool [Settled (m1 s).1; Settled (Throw e2)] (Some e2), (m1 s).2).
    destruct (m1 s) as [[[]|e1] s1];
      by rewrite both_settled, finish_both_settled.
Qed.

(** Two chains which each begin an operation without effect and then do
    one operation: the two operations take place one after the other, in
    one order or the other, and the whole rejects with the rejection that
    came first. *)
Lemma promiseAll_two_chains {B1 B2} (begin1 : M B1) (begin2 : M B2) b1 b2
    (k1 : B1 → M unit) (k2 : B2 → M unit) schedule s :
  (∀ s, begin1 s = (Ok b1, s)) → (∀ s, begin2 s = (Ok b2, s)) →
  k1 b1 = m1 → k2 b2 = m2 →
  let chains := [ (x ← await begin1; await (k1 x)); (y ← await begin2; await (k2 y)) ] in
  promiseAll schedule chains s
    = (let r1 := m1 s in let r2 := m2 r1.2 in (firstRejection r1.1 r2.1, r2.2))
  ∨ promiseAll schedule chains s
    = (let r2 := m2 s in let r1 := m1 r2.2 in (firstRejection r2.1 r1.1, r1.2)).
Proof.
  intros Hb1 Hb2 Hk1 Hk2 chains. unfold promiseAll, promiseAllAfter.
  rewrite takeTurns_app.
  assert (Hstart : takeTurns (seq 0 (length chains)) (mkPool chains None, s)
                   = (mkPool [await m1; await m2] None, s)).
  { subst m1 m2. unfold takeTurns, takeTurn. simpl. by rewrite !Hb1, !Hb2. }
  rewrite Hstart. clear Hstart. change (length chains) with 2%nat.
  induction schedule as [|i turns IH].
  - left. unfold finish, takeTurns. simpl.
    destruct (m1 s) as [[[]|e1] s1]; simpl; by destruct (m2 s1) as [[[]|e2] s2].
  - rewrite takeTurns_cons.
    destruct i as [|[|i]].
    + left. apply (first_written (m1 s).1 turns (m1 s).2).
    + right. apply (second_written (m2 s).1 turns (m2 s).2).
    + exact IH.
Qed.

End TwoChains.

(** ** Packaging *)

Lemma diskPut_eval env path content s :
  diskPut env path content s =
    match putFile env path content with
    | Ok _ => (Ok tt, set_disk (insert path content) (add_event (EvDiskPut path) s))
    | Throw e => (Throw e, add_event (EvDiskPut path) s)
    end.
Proof.
  unfold diskPut. rewrite bind_emit, bind_liftResult.
  by destruct (putFile env path content).
Qed.

(** The two writes of [save] take place in one order or the other. *)
Lemma save_eval env build modules s :
  let writeZip := diskPut env (getBuildZipFilePath env (Build.id build))
                    (createZipFileFromModules env modules) in
  let writeTar := diskPut env (getBuildTarGzFilePath env (Build.id build))
                    (createTarGzFileFromModules env modules) in
  save env build modules s
    = (_ ← (λ s, let r1 := writeZip s in let r2 := writeTar r1.2 in
                 (firstRejection r1.1 r2.1, r2.2));
       getFileURL env (getBuildTarGzFilePath env (Build.id build))) s
  ∨ save env build modules s
    = (_ ← (λ s, let r2 := writeTar s in let r1 := writeZip r2.2 in
                 (firstRejection r2.1 r1.1, r1.2));
       getFileURL env (getBuildTarGzFilePath env (Build.id build))) s.
Proof.
  intros writeZip writeTar. unfold save. rewrite !bind_unfold.
  destruct (promiseAll_two_chains writeZip writeTar
              (mret (createZipFileFromModules env modules))
              (mret (createTarGzFileFromModules env modules))
              (createZipFileFromModules env modules)
              (createTarGzFileFromModules env modules)
              (diskPut env (getBuildZipFilePath env (Build.id build)))
              (diskPut env (getBuildTarGzFilePath env (Build.id build)))
              (schedule env) s) as [H|H]; [done..| |].
  - left. by rewrite H.
  - right. by rewrite H.
Qed.

(** What packaging leaves on the disk: a file the disk accepted is there,
    whatever became of the other. *)
Lemma save_disk_zip env build modules s :
  getBuildZipFilePath env (Build.id build) ≠ getBuildTarGzFilePath env (Build.id build) →
  disk (save env build modules s).2 !! getBuildZipFilePath env (Build.id build)
    = (if putFile env (getBuildZipFilePath env (Build.id build))
            (createZipFileFromModules env modules) is Ok _
       then Some (createZipFileFromModules env modules)
       else disk s !! getBuildZipFilePath env (Build.id build)).
Proof.
  intros Hne.
  assert (Hurl : ∀ s1, disk ((getFileURL env
                    (getBuildTarGzFilePath env (Build.id build))) s1).2 = disk s1).
  { intros s1. unfold getFileURL. by destruct (diskGetUrl env _) as [url|[]]. }
  destruct (save_eval env build modules s) as [H|H]; rewrite H; clear H;
    rewrite bind_unfold; simpl; rewrite !diskPut_eval;
    destruct (putFile env (getBuildZipFilePath env (Build.id build)) _) as [[]|e1];
    destruct (putFile env (getBuildTarGzFilePath env (Build.id build)) _) as [[]|e2];
    simpl; rewrite ?Hurl; simpl;
    rewrite ?lookup_insert_eq, ?(lookup_insert_ne _ _ _ _ (not_eq_sym Hne)),
      ?lookup_insert_eq; reflexivity.
Qed.

(** [save] returns only if the disk accepted both writes; both files are
    then there (if their paths differ, each with its content). *)
Lemma save_ok env build modules s url s' :
  save env build modules s = (Ok url, s') →
  let zipFilePath := getBuildZipFilePath env (Build.id build) in
  let tarFilePath := getBuildTarGzFilePath env (Build.id build) in
  putFile env zipFilePath (createZipFileFromModules env modules) = Ok tt
  ∧ putFile env tarFilePath (createTarGzFileFromModules env modules) = Ok tt
  ∧ (zipFilePath ≠ tarFilePath →
     disk s' !! zipFilePath = Some (createZipFileFromModules env modules))
  ∧ disk s' !! tarFilePath ≠ None
  ∧ (∀ path, path ≠ zipFilePath → path ≠ tarFilePath → disk s' !! path = disk s !! path)
  ∧ builds s' = builds s ∧ steps s' = steps s ∧ actions s' = actions s
  ∧ clock s' = clock s
  ∧ (trace s' = trace s ++ [EvDiskPut zipFilePath; EvDiskPut tarFilePath]
     ∨ trace s' = trace s ++ [EvDiskPut tarFilePath; EvDiskPut zipFilePath]).
Proof.
  intros Hsave zipFilePath tarFilePath.
  assert (Hurl : ∀ s1 u s2, getFileURL env tarFilePath s1 = (Ok u, s2) → s2 = s1).
  { intros s1 u s2. unfold getFileURL.
    destruct (diskGetUrl env _) as [u'|[]]; by intros [= _ <-]. }
  destruct (save_eval env build modules s) as [H|H]; rewrite H in Hsave; clear H;
    rewrite bind_unfold in Hsave; simpl in Hsave;
    fold zipFilePath tarFilePath in Hsave; rewrite !diskPut_eval in Hsave.
  - destruct (putFile env zipFilePath _) as [[]|e1]; simpl in Hsave;
      rewrite ?diskPut_eval in Hsave;
      destruct (putFile env tarFilePath _) as [[]|e2]; simpl in Hsave; try done.
    apply Hurl in Hsave. subst s'. simpl. split_and!; try done.
    + intros Hne. by rewrite lookup_insert_ne, lookup_insert_eq.
    + by rewrite lookup_insert_eq.
    + intros path Hz Ht. by rewrite !lookup_insert_ne.
    + left. by rewrite <- app_assoc.
  - destruct (putFile env tarFilePath _) as [[]|e2]; simpl in Hsave;
      rewrite ?diskPut_eval in Hsave;
      destruct (putFile env zipFilePath _) as [[]|e1]; simpl in Hsave; try done.
    apply Hurl in Hsave. subst s'. simpl. split_and!; try done.
    + intros Hne. by rewrite lookup_insert_eq.
    + destruct (decide (zipFilePath = tarFilePath)) as [->|Hne].
      * by rewrite lookup_insert_eq.
      * by rewrite lookup_insert_ne, lookup_insert_eq.
    + intros path Hz Ht. by rewrite !lookup_insert_ne.
    + right. by rewrite <- app_assoc.
Qed.

(** ** Packaging *)

(** [save] asks the disk to write the zip archive under the Build's zip
    path and the tarball under its tar path, in one order or the other and
    whether or not the other write is accepted.  A file the disk accepts is
    there afterwards (if the two paths coincide, one of the two archives
    is); a write the disk refuses leaves the file as it was; every other
    file and everything else is left alone.  If the disk refuses a write,
    [save] throws the error of a refused write; otherwise it returns the
    disk's URL of the tarball, or the tar path under the local disk's root
    if the disk has no URLs, and throws any other error of the disk. *)
Theorem save_writes_both_archives env build modules s :
  let zipFilePath := getBuildZipFilePath env (Build.id build) in
  let tarFilePath := getBuildTarGzFilePath env (Build.id build) in
  let zip := createZipFileFromModules env modules in
  let tar := createTarGzFileFromModules env modules in
  let s' := (save env build modules s).2 in
  (trace s' = trace s ++ [EvDiskPut zipFilePath; EvDiskPut tarFilePath]
   ∨ trace s' = trace s ++ [EvDiskPut tarFilePath; EvDiskPut zipFilePath])
  ∧ (zipFilePath ≠ tarFilePath →
     disk s' !! zipFilePath
       = (if putFile env zipFilePath zip is Ok _ then Some zip else disk s !! zipFilePath)
     ∧ disk s' !! tarFilePath
       = (if putFile env tarFilePath tar is Ok _ then Some tar else disk s !! tarFilePath))
  ∧ (zipFilePath = tarFilePath →
     putFile env zipFilePath zip = Ok tt → putFile env tarFilePath tar = Ok tt →
     disk s' !! tarFilePath = Some zip ∨ disk s' !! tarFilePath = Some tar)
  ∧ (∀ path, path ≠ zipFilePath → path ≠ tarFilePath → disk s' !! path = disk s !! path)
  ∧ builds s' = builds s ∧ steps s' = steps s ∧ actions s' = actions s
  ∧ clock s' = clock s
  ∧ (putFile env zipFilePath zip = Ok tt → putFile env tarFilePath tar = Ok tt →
     (save env build modules s).1 =
       match diskGetUrl env tarFilePath with
       | Ok url => Ok url
       | Throw MethodNotSupported => Ok (pathJoin env (localDiskRoot env) tarFilePath)
       | Throw error => Throw error
       end)
  ∧ (putFile env zipFilePath zip ≠ Ok tt ∨ putFile env tarFilePath tar ≠ Ok tt →
     ∃ e, (save env build modules s).1 = Throw e
          ∧ (putFile env zipFilePath zip = Throw e ∨ putFile env tarFilePath tar = Throw e)).
Proof.
  intros zipFilePath tarFilePath zip tar s'. unfold s'.
  assert (Hurl : ∀ s1,
            getFileURL env tarFilePath s1
            = (match diskGetUrl env tarFilePath with
               | Ok url => Ok url
               | Throw MethodNotSupported =>
                   Ok (pathJoin env (localDiskRoot env) tarFilePath)
               | Throw error => Throw error
               end, s1)).
  { intros s1. unfold getFileURL. by destruct (diskGetUrl env tarFilePath) as [url|[]]. }
  destruct (save_eval env build modules s) as [H|H]; rewrite H; clear H;
    rewrite bind_unfold; cbv zeta; fold zipFilePath tarFilePath zip tar;
    rewrite !diskPut_eval;
    destruct (putFile env zipFilePath zip) as [[]|ez] eqn:Hz; cbn [fst snd];
    rewrite ?diskPut_eval, ?Hz;
    destruct (putFile env tarFilePath tar) as [[]|et] eqn:Ht; cbn [fst snd firstRejection];
    rewrite ?diskPut_eval, ?Hz, ?Hurl; cbn [fst snd firstRejection].
  all: split_and!.
  all: try done.
  all: try (first [left; simpl; by rewrite <- app_assoc
                  |right; simpl; by rewrite <- app_assoc]).
  all: try (intros Hne; simpl;
            rewrite ?lookup_insert_eq, ?lookup_insert_ne by done;
            by rewrite ?lookup_insert_eq, ?lookup_insert_ne by done).
  all: try (intros Heq _ _; simpl; rewrite ?Heq, ?lookup_insert_eq; tauto).
  all: try (intros path Hp1 Hp2; simpl; by rewrite ?lookup_insert_ne).
  all: try (intros [Hno|Hno]; [by destruct Hno|by destruct Hno]).
  all: try (intros _; eexists; split; [reflexivity|]; first [by left|by right]).
Qed.

(** C7.  For the identifier of an existing Build, [download] fails with
    StepNotFound when the Build has no generation step, with
    StepNotComplete when the generation step's status is not Success, with
    BuildResultNotFound when the step succeeded and the disk has no zip file
    for the Build, and otherwise returns the content of that zip file, which
    is the file packaging wrote if the disk accepted it, and the file that
    was there before if it did not.  Nothing is changed in any case. *)
Theorem download_outcomes env s id r :
  builds s !! id = Some r →
  (generationStep s r = None ↔
     Forall (λ st, ActionStep.name st ≠ GENERATE_STEP_NAME)
       (stepsOf s (BuildRow.actionId r)))
  ∧ (generationStep s r = None →
       download env id s = (Throw (StepNotFoundError GENERATE_STEP_NAME), s))
  ∧ (∀ step, generationStep s r = Some step →
       ActionStep.status step ≠ EnumActionStepStatus.Success →
       download env id s =
         (Throw (StepNotCompleteError GENERATE_STEP_NAME
                   (EnumActionStepStatus.name (ActionStep.status step))), s))
  ∧ (∀ step, generationStep s r = Some step →
       ActionStep.status step = EnumActionStepStatus.Success →
       disk s !! getBuildZipFilePath env id = None →
       download env id s = (Throw (BuildResultNotFound id), s))
  ∧ (∀ step bytes, generationStep s r = Some step →
       ActionStep.status step = EnumActionStepStatus.Success →
       disk s !! getBuildZipFilePath env id = Some bytes →
       download env id s = (Ok bytes, s))
  ∧ (∀ build modules s0,
       Build.id build = id →
       getBuildZipFilePath env id ≠ getBuildTarGzFilePath env id →
       disk (save env build modules s0).2 !! getBuildZipFilePath env id
         = (if putFile env (getBuildZipFilePath env id)
                 (createZipFileFromModules env modules) is Ok _
            then Some (createZipFileFromModules env modules)
            else disk s0 !! getBuildZipFilePath env id)).
Proof.
  intros Hr. split_and!.
  - unfold generationStep. rewrite head_None. split.
    + intros H. apply Forall_forall. intros st Hst Hn.
      eapply (filter_nil_not_elem_of _ _ st H); done.
    + intros H. apply elem_of_nil_inv. intros st Hst.
      apply list_elem_of_filter in Hst as [Hn Hst].
      rewrite Forall_forall in H. by apply (H st).
  - intros Hg. by rewrite download_eval, Hr, Hg.
  - intros step Hg Hst. rewrite download_eval, Hr, Hg.
    by rewrite bool_decide_eq_false_2.
  - intros step Hg Hst Hd. rewrite download_eval, Hr, Hg, Hd.
    by rewrite bool_decide_eq_true_2.
  - intros step bytes Hg Hst Hd. rewrite download_eval, Hr, Hg, Hd.
    by rewrite bool_decide_eq_true_2.
  - intros build modules s0 <- Hne. by apply save_disk_zip.
Qed.

(** ** Creation of a Build *)

Lemma createInitialStepData_eval version message s :
  createInitialStepData version message s =
    (Ok (StepCreateInput.mk "Adding task to queue" "ADD_TO_QUEUE"
           EnumActionStepStatus.Success (Some (clock s))
           [ ActionLog.mk (Some EnumActionLogLevel.Info) "create build generation task" [];
             ActionLog.mk (Some EnumActionLogLevel.Info) ("Build Version: " +:+ version) [];
             ActionLog.mk (Some EnumActionLogLevel.Info) ("Build message: " +:+ message) [] ]),
     s).
Proof. reflexivity. Qed.

Lemma prismaBuildCreate_eval env data version createdAt evs init s app commit :
  findApp env (CreateBuildArgs.appId data) = Some app →
  findCommit env (CreateBuildArgs.commitId data) = Some commit →
  let id : string := fresh (dom (builds s)) in
  let row := BuildRow.mk createdAt (CreateBuildArgs.appId data)
               (CreateBuildArgs.commitId data) version
               (CreateBuildArgs.message data) (actions s) [] None None in
  let stepRow := StepRow.mk (actions s) (StepCreateInput.name init)
                   (StepCreateInput.message init) (StepCreateInput.status init)
                   (StepCreateInput.completedAt init) (StepCreateInput.logs init) in
  prismaBuildCreate env data version createdAt evs init s =
    (Ok (toBuild id row (Some app) (Some commit) None),
     set_builds (insert id row)
       (set_steps (λ l, l ++ [stepRow]) (set_actions S s))).
Proof.
  intros Ha Hc. unfold prismaBuildCreate. rewrite Ha, Hc. reflexivity.
Qed.

(** C9.  The step created with every Build is named ADD_TO_QUEUE and is
    stored already in Success status, with a completion time; right after
    the Build, its action and this step have been persisted the action
    holds this step only, and [calcBuildStatus] answers Completed. *)
Theorem initial_step_alone_gives_completed env data version createdAt evs s app commit :
  stepsBelongToActions s →
  findApp env (CreateBuildArgs.appId data) = Some app →
  findCommit env (CreateBuildArgs.commitId data) = Some commit →
  ∃ init build s',
    createInitialStepData version (CreateBuildArgs.message data) s = (Ok init, s)
    ∧ StepCreateInput.name init = "ADD_TO_QUEUE"
    ∧ StepCreateInput.status init = EnumActionStepStatus.Success
    ∧ StepCreateInput.completedAt init = Some (clock s)
    ∧ prismaBuildCreate env data version createdAt evs init s = (Ok build, s')
    ∧ (ActionStep.name <$> stepsOf s' (Build.actionId build)) = ["ADD_TO_QUEUE"]
    ∧ (ActionStep.status <$> stepsOf s' (Build.actionId build))
        = [EnumActionStepStatus.Success]
    ∧ calcBuildStatus (Build.id build) s' = (Ok EnumBuildStatus.Completed, s').
Proof.
  intros Hwf Ha Hc. eexists _, _, _.
  split; [apply createInitialStepData_eval|]. split_and!; try reflexivity.
  - by apply prismaBuildCreate_eval.
  - cbn [toBuild Build.actionId].
    rewrite stepsOf_set_builds, stepsOf_append, stepsOf_set_actions.
    rewrite stepsOf_fresh_action by done. cbn [StepRow.actionId].
    by rewrite decide_True.
  - cbn [toBuild Build.actionId].
    rewrite stepsOf_set_builds, stepsOf_append, stepsOf_set_actions.
    rewrite stepsOf_fresh_action by done. cbn [StepRow.actionId].
    by rewrite decide_True.
  - erewrite calcBuildStatus_found; [|apply lookup_insert_eq].
    cbn [BuildRow.actionId].
    rewrite stepsOf_set_builds, stepsOf_append, stepsOf_set_actions.
    rewrite stepsOf_fresh_action by done. cbn [StepRow.actionId].
    by rewrite decide_True.
Qed.

(** ** The action service, evaluated *)

Lemma log_eval step level message meta s :
  log step level message meta s =
    (Ok tt, set_steps (alter (StepRow.add_log (ActionLog.mk level message meta))
                             (ActionStep.id step)) s).
Proof. reflexivity. Qed.

Lemma logInfo_eval step message meta s :
  logInfo step message meta s =
    (Ok tt, set_steps (alter (StepRow.add_log
                                (ActionLog.mk (Some EnumActionLogLevel.Info) message meta))
                             (ActionStep.id step)) s).
Proof. reflexivity. Qed.

Lemma complete_running step status s row :
  steps s !! ActionStep.id step = Some row →
  StepRow.status row = EnumActionStepStatus.Running →
  complete step status s =
    (Ok tt, set_steps (alter (StepRow.set_status status (clock s)) (ActionStep.id step)) s).
Proof.
  intros Hrow Hst. unfold complete. rewrite bind_gets, Hrow.
  by rewrite decide_True.
Qed.

Lemma complete_not_running step status s row :
  steps s !! ActionStep.id step = Some row →
  StepRow.status row ≠ EnumActionStepStatus.Running →
  complete step status s = (Throw (InvalidStepTransition (ActionStep.id step)), s).
Proof.
  intros Hrow Hst. unfold complete. rewrite bind_gets, Hrow.
  by rewrite decide_False.
Qed.

Lemma prismaBuildUpdate_found id f s r :
  builds s !! id = Some r →
  prismaBuildUpdate id f s = (Ok tt, set_builds (alter f id) s).
Proof. intros Hr. unfold prismaBuildUpdate. by rewrite bind_gets, Hr. Qed.

Lemma prismaBuildUpdate_missing id f s :
  builds s !! id = None →
  prismaBuildUpdate id f s = (Throw (RemoteError "Record to update not found"), s).
Proof. intros Hr. unfold prismaBuildUpdate. by rewrite bind_gets, Hr. Qed.

(** ** Handling the container builder's result *)

Lemma handleContainerBuilderResult_completed env build step result s row r :
  BuildResult.status result = ContainerBuildStatus.Completed →
  steps s !! ActionStep.id step = Some row →
  StepRow.status row = EnumActionStepStatus.Running →
  builds s !! Build.id build = Some r →
  let s3 :=
    set_builds (alter (BuildRow.set_images (BuildResult.images result)) (Build.id build))
      (set_steps
         (alter (StepRow.set_status EnumActionStepStatus.Success (clock s))
                (ActionStep.id step))
         (set_steps
            (alter (StepRow.add_log
                      (ActionLog.mk (Some EnumActionLogLevel.Info)
                         BUILD_DOCKER_IMAGE_STEP_FINISH_LOG
                         [("images", BuildResult.images result)]))
                   (ActionStep.id step)) s)) in
  handleContainerBuilderResult env build step result s =
    if canDeploy env
    then (autoDeployToSandbox env build,
          add_event (EvAutoDeployToSandbox (Build.id build)) s3)
    else (Ok tt, s3).
Proof.
  intros Hres Hrow Hst Hr s3. rewrite handleContainerBuilderResult_seq, Hres.
  rewrite (bind_ok _ _ _ _ _ (logInfo_eval _ _ _ _)).
  erewrite bind_ok; cycle 1.
  { eapply complete_running.
    - simpl. rewrite list_lookup_alter_eq, Hrow. reflexivity.
    - exact Hst. }
  erewrite bind_ok; cycle 1.
  { apply (prismaBuildUpdate_found _ _ _ r). exact Hr. }
  fold s3. destruct (canDeploy env); [|reflexivity].
  rewrite bind_emit. unfold liftResult. reflexivity.
Qed.

Lemma handleContainerBuilderResult_failed env build step result s row :
  BuildResult.status result = ContainerBuildStatus.Failed →
  steps s !! ActionStep.id step = Some row →
  StepRow.status row = EnumActionStepStatus.Running →
  handleContainerBuilderResult env build step result s =
    (Ok tt,
     set_steps
       (alter (StepRow.set_status EnumActionStepStatus.Failed (clock s))
              (ActionStep.id step))
       (set_steps
          (alter (StepRow.add_log
                    (ActionLog.mk (Some EnumActionLogLevel.Info)
                       BUILD_DOCKER_IMAGE_STEP_FAILED_LOG []))
                 (ActionStep.id step)) s)).
Proof.
  intros Hres Hrow Hst. rewrite handleContainerBuilderResult_seq, Hres.
  rewrite (bind_ok _ _ _ _ _ (logInfo_eval _ _ _ _)).
  erewrite complete_running;
    [reflexivity
    |simpl; rewrite list_lookup_alter_eq, Hrow; reflexivity
    |exact Hst].
Qed.

Lemma handleContainerBuilderResult_running env build step result s r :
  BuildResult.status result = ContainerBuildStatus.Running →
  builds s !! Build.id build = Some r →
  handleContainerBuilderResult env build step result s =
    (Ok tt,
     set_builds
       (alter (BuildRow.set_containerStatus (BuildResult.statusQuery result) (clock s))
              (Build.id build))
       (set_steps
          (alter (StepRow.add_log
                    (ActionLog.mk (Some EnumActionLogLevel.Info)
                       BUILD_DOCKER_IMAGE_STEP_RUNNING_LOG []))
                 (ActionStep.id step)) s)).
Proof.
  intros Hres Hr. rewrite handleContainerBuilderResult_seq, Hres.
  rewrite (bind_ok _ _ _ _ _ (logInfo_eval _ _ _ _)).
  unfold newDate. rewrite bind_gets.
  by rewrite (prismaBuildUpdate_found _ _ _ r).
Qed.

(** C5.  Handling the result of a poll for a Build whose "build docker"
    step is Running.  Completed: the step becomes Success, the returned
    images are stored on the Build, and the sandbox deployment is called
    exactly when [canDeploy] holds.  Failed: the step becomes Failed, the
    build table is untouched and no deployment is called.  Any other
    status: the Build's status query and poll time are stored, the step
    stays Running and no deployment is called. *)
Theorem handleContainerBuilderResult_cases env build step result s row r :
  steps s !! ActionStep.id step = Some row →
  StepRow.status row = EnumActionStepStatus.Running →
  builds s !! Build.id build = Some r →
  ∃ outcome s',
    handleContainerBuilderResult env build step result s = (outcome, s')
    ∧ match BuildResult.status result with
      | ContainerBuildStatus.Completed =>
          StepRow.status <$> steps s' !! ActionStep.id step
            = Some EnumActionStepStatus.Success
          ∧ builds s' !! Build.id build
            = Some (BuildRow.set_images (BuildResult.images result) r)
          ∧ trace s' = trace s ++
              (if canDeploy env then [EvAutoDeployToSandbox (Build.id build)] else [])
          ∧ outcome = (if canDeploy env then autoDeployToSandbox env build else Ok tt)
      | ContainerBuildStatus.Failed =>
          outcome = Ok tt
          ∧ StepRow.status <$> steps s' !! ActionStep.id step
            = Some EnumActionStepStatus.Failed
          ∧ builds s' = builds s
          ∧ trace s' = trace s
      | ContainerBuildStatus.Running =>
          outcome = Ok tt
          ∧ StepRow.status <$> steps s' !! ActionStep.id step
            = Some EnumActionStepStatus.Running
          ∧ builds s' !! Build.id build
            = Some (BuildRow.set_containerStatus
                      (BuildResult.statusQuery result) (clock s) r)
          ∧ trace s' = trace s
      end.
Proof.
  intros Hrow Hst Hr.
  destruct (BuildResult.status result) eqn:Hres.
  - eexists _, _. split.
    { by eapply handleContainerBuilderResult_running. }
    split_and!; try reflexivity.
    + simpl. rewrite list_lookup_alter_eq, Hrow. simpl. by rewrite Hst.
    + simpl. by rewrite lookup_alter_eq, Hr.
  - rewrite (handleContainerBuilderResult_completed env build step result s row r)
      by done.
    destruct (canDeploy env); eexists _, _; (split; [reflexivity|]).
    + split_and!; try reflexivity.
      * simpl. rewrite !list_lookup_alter_eq, Hrow. reflexivity.
      * simpl. by rewrite lookup_alter_eq, Hr.
    + split_and!; try reflexivity.
      * simpl. rewrite !list_lookup_alter_eq, Hrow. reflexivity.
      * simpl. by rewrite lookup_alter_eq, Hr.
      * simpl. by rewrite app_nil_r.
  - eexists _, _. split.
    { by eapply handleContainerBuilderResult_failed. }
    split_and!; try reflexivity.
    simpl. rewrite !list_lookup_alter_eq, Hrow. reflexivity.
Qed.

(** ** Relations respected by the combinators *)

Section Respects.

Context (T : relation State) `{!PreOrder T}.

Lemma respects_ret {A} (a : A) : respects T (mret a).
Proof. intros s. reflexivity. Qed.

Lemma respects_throw {A} e : respects T (throw (A:=A) e).
Proof. intros s. reflexivity. Qed.

Lemma respects_gets {A} (f : State → A) : respects T (gets f).
Proof. intros s. reflexivity. Qed.

Lemma respects_liftResult {A} (r : Result A) : respects T (liftResult r).
Proof. intros s. reflexivity. Qed.

Lemma respects_deref {A} what (x : option A) : respects T (deref what x).
Proof. destruct x; [apply respects_ret | apply respects_throw]. Qed.

Lemma respects_newDate : respects T newDate.
Proof. apply respects_gets. Qed.

Lemma respects_bind {A B} (m : M A) (k : A → M B) :
  respects T m → (∀ a, respects T (k a)) → respects T (m ≫= k).
Proof.
  intros Hm Hk s. rewrite bind_unfold. specialize (Hm s).
  destruct (m s) as [[a|e] s1]; simpl in *; [|done].
  etrans; [exact Hm|]. apply Hk.
Qed.

Lemma respects_try_catch {A} (m : M A) (h : Error → M A) :
  respects T m → (∀ e, respects T (h e)) → respects T (try_catch m h).
Proof.
  intros Hm Hh s. unfold try_catch. specialize (Hm s).
  destruct (m s) as [[a|e] s1]; simpl in *; [done|].
  etrans; [exact Hm|]. apply Hh.
Qed.

Lemma respects_forOf {A} (body : A → M unit) xs :
  (∀ x, respects T (body x)) → respects T (forOf body xs).
Proof.
  intros Hb. induction xs as [|x xs IH]; simpl; [apply respects_ret|].
  apply respects_bind; [apply Hb|]. intros _. exact IH.
Qed.

Lemma TaskRespects_ret {A} (a : A) : TaskRespects T (mret a : Task A).
Proof. exact I. Qed.

Lemma TaskRespects_settled {A} (r : Result A) : TaskRespects T (Settled r).
Proof. exact I. Qed.

Lemma TaskRespects_await {A} (m : M A) : respects T m → TaskRespects T (await m).
Proof. intros Hm. split; [exact Hm|]. intros s. exact I. Qed.

Lemma TaskRespects_derefTask {A} what (x : option A) : TaskRespects T (derefTask what x).
Proof. by destruct x. Qed.

Lemma TaskRespects_bind {A B} (t : Task A) (k : A → Task B) :
  TaskRespects T t → (∀ a, TaskRespects T (k a)) → TaskRespects T (t ≫= k).
Proof.
  intros Ht Hk. induction t as [[a|e]|effect next IH]; [apply Hk|exact I|].
  destruct Ht as [He Hn]. split; [exact He|]. intros s. apply IH, Hn.
Qed.

Lemma TaskRespects_tryCatch {A} (t : Task A) (h : Error → Task A) :
  TaskRespects T t → (∀ e, TaskRespects T (h e)) → TaskRespects T (tryCatch t h).
Proof.
  intros Ht Hh. induction t as [[a|e]|effect next IH]; [exact I|apply Hh|].
  destruct Ht as [He Hn]. split; [exact He|]. intros s. apply IH, Hn.
Qed.

Lemma TaskRespects_forOfTask {A} (body : A → Task unit) xs :
  (∀ x, TaskRespects T (body x)) → TaskRespects T (forOfTask body xs).
Proof.
  intros Hb. induction xs as [|x xs IH]; [exact I|].
  apply TaskRespects_bind; [apply Hb|]. intros _. exact IH.
Qed.

Lemma respects_settle {A} (t : Task A) : TaskRespects T t → respects T (settle t).
Proof.
  induction t as [r|effect next IH]; intros Ht s; [reflexivity|].
  destruct Ht as [He Hn]. simpl. etrans; [apply He|]. apply (IH s (Hn s)).
Qed.

(** Callbacks which respect [T] still do after any of them has taken a
    turn, and the turn respects [T]. *)
Lemma respects_takeTurn i ps :
  Forall (TaskRespects T) (callbacks ps.1) →
  Forall (TaskRespects T) (callbacks (takeTurn i ps).1) ∧ T ps.2 (takeTurn i ps).2.
Proof.
  intros Hall. unfold takeTurn.
  destruct (callbacks ps.1 !! i) as [[r|effect next]|] eqn:Hi; simpl; [done| |done].
  apply (Forall_lookup_1 _ _ _ _ Hall) in Hi as [He Hn].
  split; [|apply He]. apply Forall_insert; [done|apply Hn].
Qed.

Lemma respects_takeTurns turns ps :
  Forall (TaskRespects T) (callbacks ps.1) →
  Forall (TaskRespects T) (callbacks (takeTurns turns ps).1) ∧ T ps.2 (takeTurns turns ps).2.
Proof.
  revert ps. induction turns as [|i turns IH]; intros ps Hall; [done|].
  rewrite takeTurns_cons. destruct (respects_takeTurn i ps Hall) as [Hall' HT].
  destruct (IH _ Hall') as [Hall'' HT']. split; [done|]. by etrans.
Qed.

Lemma respects_promiseAllAfter turns ts s :
  Forall (TaskRespects T) ts → T s (promiseAllAfter turns ts s).2.
Proof. intros Hall. by apply (respects_takeTurns _ (mkPool ts None, s)). Qed.

Lemma respects_promiseAll schedule (ts : list (Task unit)) :
  Forall (TaskRespects T) ts → respects T (promiseAll schedule ts).
Proof.
  intros Hall s. destruct (promiseAll_turns schedule ts s) as (more & ->).
  by apply respects_promiseAllAfter.
Qed.

(** Packaging respects [T] when writing a file does. *)
Lemma respects_save env build modules :
  (∀ path content, respects T (diskPut env path content)) →
  respects T (save env build modules).
Proof.
  intros Hput. unfold save. apply respects_bind; [|intros _].
  - apply respects_promiseAll.
    repeat apply Forall_cons_2; [..|apply Forall_nil_2];
      (apply TaskRespects_bind; [apply TaskRespects_await, respects_ret|intros archive]);
      apply TaskRespects_await, Hput.
  - unfold getFileURL. destruct (diskGetUrl env _) as [url|[]];
      first [apply respects_ret|apply respects_throw].
Qed.

(** [run] respects [T] when creating a step, logging and completing the
    new step do, and the work does. *)
Lemma respects_run {A} actionId name message (work : ActionStep.t → M A) isFinalStep :
  respects T (beginStep actionId name message) →
  (∀ step, respects T (work step)) →
  (∀ step msg meta, respects T (logInfo step msg meta)) →
  (∀ step st, respects T (complete step st)) →
  respects T (run actionId name message work isFinalStep).
Proof.
  intros Hb Hw Hl Hc. unfold run. apply respects_bind; [exact Hb|]. intros step.
  apply respects_try_catch.
  - apply respects_bind; [apply Hw|]. intros result.
    apply respects_bind; [apply respects_gets|]. intros row.
    apply respects_bind; [|intros _; apply respects_ret].
    destruct row as [r|]; [|apply respects_ret].
    destruct (negb isFinalStep && _); [apply Hc | apply respects_ret].
  - intros e. apply respects_bind; [apply Hl|]. intros _.
    apply respects_bind; [apply Hc|]. intros _.
    destruct isFinalStep; [apply respects_throw | apply respects_ret].
Qed.

End Respects.

Lemma respects_modify (T : State → State → Prop) f :
  (∀ s, T s (f s)) → respects T (modify f).
Proof. intros H s. apply H. Qed.

#[global] Instance emitsOnly_preorder P : PreOrder (emitsOnly P).
Proof.
  split.
  - intros s. exists []. by rewrite app_nil_r.
  - intros s1 s2 s3 (e1 & H1 & F1) (e2 & H2 & F2). exists (e1 ++ e2).
    split; [by rewrite H2, H1, app_assoc | by apply Forall_app].
Qed.

#[global] Instance touchesOnly_preorder i k : PreOrder (touchesOnly i k).
Proof.
  split.
  - intros s. split_and!; [done..|]. exists []. by rewrite app_nil_r.
  - intros s1 s2 s3 (A1 & B1 & e1 & C1) (A2 & B2 & e2 & C2). split_and!.
    + intros j Hj. by rewrite A2, A1.
    + intros k' Hk. by rewrite B2, B1.
    + exists (e1 ++ e2). by rewrite C2, C1, app_assoc.
Qed.

#[global] Instance keepsStepsBelow_preorder n : PreOrder (keepsStepsBelow n).
Proof.
  split.
  - intros s H. done.
  - intros s1 s2 s3 H1 H2 Hn.
    destruct (H1 Hn) as [Hn2 E1]. destruct (H2 Hn2) as [Hn3 E2].
    split; [done|]. intros j Hj. by rewrite E2, E1.
Qed.

Create HintDb respects.

(** Takes a computation apart along its binds, handlers, loops and case
    distinctions, and closes the leaves with the lemmas of the [respects]
    database. *)
Ltac respects_step :=
  first
    [ apply respects_ret; solve [typeclasses eauto]
    | apply respects_throw; solve [typeclasses eauto]
    | apply respects_gets; solve [typeclasses eauto]
    | apply respects_newDate; solve [typeclasses eauto]
    | apply respects_liftResult; solve [typeclasses eauto]
    | apply respects_deref; solve [typeclasses eauto]
    | solve [eauto with respects]
    | apply respects_bind; [typeclasses eauto| |intros ?]
    | apply respects_try_catch; [typeclasses eauto| |intros ?]
    | apply respects_forOf; [typeclasses eauto|intros ?]
    | match goal with
      | |- respects _ (match ?x with _ => _ end) => destruct x
      end ].

Ltac respects_auto := repeat respects_step.

(** The same along the awaits of a callback. *)
Ltac task_respects_step :=
  first
    [ solve [apply TaskRespects_ret]
    | solve [apply TaskRespects_settled]
    | solve [apply TaskRespects_derefTask]
    | apply TaskRespects_await; solve [respects_auto]
    | apply TaskRespects_bind; [|intros ?]
    | apply TaskRespects_tryCatch; [|intros ?]
    | apply TaskRespects_forOfTask; intros ?
    | match goal with
      | |- TaskRespects _ (match ?x with _ => _ end) => destruct x
      end ].

Ltac task_respects_auto := repeat task_respects_step.

(** ** What one poll writes *)

Lemma touchesOnly_log step level message meta k :
  respects (touchesOnly (ActionStep.id step) k) (log step level message meta).
Proof.
  intros s. rewrite log_eval. simpl. split_and!; [|done|].
  - intros j Hj. simpl. by rewrite list_lookup_alter_ne.
  - exists []. simpl. by rewrite app_nil_r.
Qed.

Lemma touchesOnly_logInfo step message meta k :
  respects (touchesOnly (ActionStep.id step) k) (logInfo step message meta).
Proof. apply touchesOnly_log. Qed.

Lemma touchesOnly_complete step status k :
  respects (touchesOnly (ActionStep.id step) k) (complete step status).
Proof.
  intros s. unfold complete. rewrite bind_gets.
  destruct (steps s !! ActionStep.id step) as [row|]; [|reflexivity].
  case_decide; [|reflexivity]. simpl. split_and!; [|done|].
  - intros j Hj. simpl. by rewrite list_lookup_alter_ne.
  - exists []. simpl. by rewrite app_nil_r.
Qed.

Lemma touchesOnly_prismaBuildUpdate i k f :
  respects (touchesOnly i k) (prismaBuildUpdate k f).
Proof.
  intros s. unfold prismaBuildUpdate. rewrite bind_gets.
  destruct (builds s !! k) as [row|]; [|reflexivity].
  simpl. split_and!; [done| |].
  - intros k' Hk. simpl. by rewrite lookup_alter_ne.
  - exists []. simpl. by rewrite app_nil_r.
Qed.

Lemma touchesOnly_emit i k e : respects (touchesOnly i k) (emit e).
Proof. intros s. simpl. split_and!; [done..|]. by exists [e]. Qed.

#[export] Hint Resolve touchesOnly_log touchesOnly_logInfo touchesOnly_complete
  touchesOnly_prismaBuildUpdate touchesOnly_emit : respects.

Lemma touchesOnly_handleContainerBuilderResult env build step result :
  respects (touchesOnly (ActionStep.id step) (Build.id build))
    (handleContainerBuilderResult env build step result).
Proof.
  apply respects_settle; [typeclasses eauto|].
  unfold handleContainerBuilderResultTask. task_respects_auto.
Qed.

#[export] Hint Resolve touchesOnly_handleContainerBuilderResult : respects.

Lemma dockerStepOf_Some b step :
  dockerStepOf b = Some step →
  ∃ action,
    Build.action b = Some action
    ∧ List.find (λ step, String.eqb (ActionStep.name step) BUILD_DOCKER_IMAGE_STEP_NAME)
        (Action.steps action) = Some step.
Proof.
  unfold dockerStepOf. destruct (Build.action b) as [action|]; simpl; [|done].
  intros H. by exists action.
Qed.

(** ** One poll on a Build that can be polled *)

(** ** Grouping (groupBy) *)

Lemma addToGroup_concat {A} k (x : A) groups :
  concat (addToGroup k x groups).*2 ≡ₚ concat groups.*2 ++ [x].
Proof.
  induction groups as [|[k' g] groups IH]; simpl; [done|].
  destruct (String.eqb k' k); simpl.
  - rewrite <- !app_assoc. f_equiv. apply Permutation_app_comm.
  - by rewrite IH, app_assoc.
Qed.

Lemma groupBy_concat {A} (xs : list A) key :
  concat (groupBy xs key).*2 ≡ₚ xs.
Proof.
  unfold groupBy.
  assert (H : ∀ acc, concat (fold_left (λ groups x, addToGroup (key x) x groups) xs acc).*2
                     ≡ₚ concat acc.*2 ++ xs).
  { induction xs as [|x xs IH]; intros acc; simpl; [by rewrite app_nil_r|].
    rewrite IH, addToGroup_concat, <- app_assoc. done. }
  by rewrite H.
Qed.

(** ** The Builds a sweep selects *)

Lemma elem_of_runningBuildsAt t s b :
  b ∈ runningBuildsAt t s ↔
  ∃ id r, builds s !! id = Some r ∧ b = withAction s id r ∧ dueForPoll t b = true.
Proof.
  unfold runningBuildsAt. rewrite orderBy_Permutation.
  rewrite list_elem_of_In, filter_In, in_map_iff. split.
  - intros [([id r] & <- & Hin) Hdue]. exists id, r.
    apply list_elem_of_In, elem_of_map_to_list in Hin. done.
  - intros (id & r & Hr & -> & Hdue). split; [|done].
    exists (id, r). split; [done|]. by apply list_elem_of_In, elem_of_map_to_list.
Qed.

Lemma NoDup_runningBuildsAt t s : NoDup (runningBuildsAt t s).
Proof.
  unfold runningBuildsAt. rewrite orderBy_Permutation.
  apply NoDup_ListNoDup, List.NoDup_filter, NoDup_ListNoDup.
  apply (NoDup_fmap_2_strong (λ kv, withAction s kv.1 kv.2)).
  - intros [id r] [id' r'] Hin Hin' Heq.
    apply elem_of_map_to_list in Hin, Hin'.
    assert (id = id') by (by injection Heq). subst id'.
    f_equal. congruence.
  - apply NoDup_map_to_list.
Qed.

Lemma StronglySorted_runningBuildsAt t s :
  StronglySorted (keyLe Build.createdAt) (runningBuildsAt t s).
Proof. apply orderBy_StronglySorted. Qed.

Lemma dockerStepOf_withAction s id r :
  dockerStepOf (withAction s id r) =
    List.find (λ step, String.eqb (ActionStep.name step) BUILD_DOCKER_IMAGE_STEP_NAME)
      (stepsOf s (BuildRow.actionId r)).
Proof. reflexivity. Qed.

Lemma dockerStepOf_selected s id r step :
  dockerStepOf (withAction s id r) = Some step →
  ∃ row,
    steps s !! ActionStep.id step = Some row
    ∧ step = toActionStep (ActionStep.id step) row
    ∧ StepRow.actionId row = BuildRow.actionId r
    ∧ StepRow.name row = BUILD_DOCKER_IMAGE_STEP_NAME.
Proof.
  rewrite dockerStepOf_withAction. intros Hf.
  apply find_some in Hf as [Hin Hname].
  apply list_elem_of_In, elem_of_stepsOf in Hin as (row & Hrow & Hst & Ha).
  exists row. split_and!; [done..|].
  apply String.eqb_eq in Hname. rewrite Hst in Hname. done.
Qed.

Lemma selected_pollable t s b :
  oneDockerStepPerAction s → b ∈ runningBuildsAt t s → pollable s b.
Proof.
  intros Hone Hb. apply elem_of_runningBuildsAt in Hb as (id & r & Hr & -> & Hdue).
  unfold dueForPoll in Hdue. apply andb_true_iff in Hdue as [_ Hrun].
  simpl in Hrun. apply existsb_exists in Hrun as (st & Hin & Hst).
  unfold isRunningDockerStep in Hst. apply andb_true_iff in Hst as [Hrunning Hname].
  apply bool_decide_eq_true in Hrunning. apply String.eqb_eq in Hname.
  apply list_elem_of_In, elem_of_stepsOf in Hin as (rowst & Hrowst & Hsteq & Hast).
  destruct (dockerStepOf (withAction s id r)) as [step|] eqn:Hd.
  - destruct (dockerStepOf_selected s id r step Hd) as (row & Hrow & Hstep & Ha & Hn).
    assert (Hid : ActionStep.id step = ActionStep.id st).
    { apply (Hone _ _ row rowst); [done..| |congruence].
      rewrite Hsteq in Hname. done. }
    exists step, row, r. split_and!; [done..| |done].
    rewrite Hid, Hrowst in Hrow. injection Hrow as <-.
    rewrite Hsteq in Hrunning. done.
  - exfalso. rewrite dockerStepOf_withAction in Hd.
    assert (Hfalse : String.eqb (ActionStep.name st) BUILD_DOCKER_IMAGE_STEP_NAME = false).
    { apply (find_none _ _ Hd st).
      apply list_elem_of_In, elem_of_stepsOf. by exists rowst. }
    apply String.eqb_neq in Hfalse. done.
Qed.

Lemma selected_apart t s b c :
  actionsNotShared s →
  b ∈ runningBuildsAt t s → c ∈ runningBuildsAt t s →
  pollable s b → pollable s c → b ≠ c → apart b c.
Proof.
  intros Hns Hb Hc (stb & _ & _ & Hdb & _) (stc & _ & _ & Hdc & _) Hne.
  apply elem_of_runningBuildsAt in Hb as (id & r & Hr & -> & _).
  apply elem_of_runningBuildsAt in Hc as (id' & r' & Hr' & -> & _).
  assert (Hid : id ≠ id').
  { intros ->. apply Hne. congruence. }
  split; [done|]. rewrite Hdb, Hdc. simpl. intros [= E].
  destruct (dockerStepOf_selected s id r stb Hdb) as (row & Hrow & _ & Ha & _).
  destruct (dockerStepOf_selected s id' r' stc Hdc) as (row' & Hrow' & _ & Ha' & _).
  rewrite E, Hrow' in Hrow. injection Hrow as <-.
  apply Hid. apply (Hns _ _ r r'); [done..|]. congruence.
Qed.

(** ** Groups are the members with the group's key, in their order *)

Lemma filter_key_snoc {A} (key : A → string) k (p : list A) x :
  List.filter (λ y, String.eqb (key y) k) (p ++ [x]) =
    List.filter (λ y, String.eqb (key y) k) p ++
    (if String.eqb (key x) k then [x] else []).
Proof. rewrite List.filter_app. simpl. by destruct (String.eqb (key x) k). Qed.

Lemma addToGroup_keys {A} kx (x : A) groups k :
  k ∈ (addToGroup kx x groups).*1 ↔ k = kx ∨ k ∈ groups.*1.
Proof.
  induction groups as [|[k' g] groups IH]; simpl.
  - rewrite list_elem_of_singleton. split; [by left|]. intros [->|H]; [done|].
    by apply elem_of_nil in H.
  - destruct (String.eqb k' kx) eqn:E; simpl.
    + apply String.eqb_eq in E. subst k'. rewrite elem_of_cons. tauto.
    + rewrite !elem_of_cons, IH. tauto.
Qed.

Lemma addToGroup_NoDup {A} kx (x : A) groups :
  NoDup groups.*1 → NoDup (addToGroup kx x groups).*1.
Proof.
  induction groups as [|[k' g] groups IH]; simpl; intros Hnd.
  - apply NoDup_singleton.
  - apply NoDup_cons in Hnd as [Hk Hnd].
    destruct (String.eqb k' kx) eqn:E; simpl.
    + by apply NoDup_cons.
    + apply NoDup_cons. split; [|by apply IH].
      rewrite addToGroup_keys. intros [->|H]; [|done].
      by rewrite String.eqb_refl in E.
Qed.

Lemma addToGroup_members {A} (key : A → string) (p : list A) x groups :
  NoDup groups.*1 →
  (∀ k g, (k, g) ∈ groups → g = List.filter (λ y, String.eqb (key y) k) p) →
  (key x ∉ groups.*1 → List.filter (λ y, String.eqb (key y) (key x)) p = []) →
  ∀ k g, (k, g) ∈ addToGroup (key x) x groups →
         g = List.filter (λ y, String.eqb (key y) k) (p ++ [x]).
Proof.
  induction groups as [|[k' g'] groups IH]; simpl; intros Hnd Hg Hnew k g Hin.
  - apply list_elem_of_singleton in Hin. injection Hin as -> ->.
    rewrite filter_key_snoc, String.eqb_refl, Hnew; [done|].
    intros H. by apply elem_of_nil in H.
  - apply NoDup_cons in Hnd as [Hk' Hnd].
    destruct (String.eqb k' (key x)) eqn:E.
    + apply String.eqb_eq in E. subst k'.
      apply elem_of_cons in Hin as [Hin|Hin].
      * injection Hin as -> ->. rewrite filter_key_snoc, String.eqb_refl.
        f_equal. apply Hg. left.
      * rewrite filter_key_snoc.
        destruct (String.eqb (key x) k) eqn:E2.
        { apply String.eqb_eq in E2. subst k. exfalso. apply Hk'.
          apply list_elem_of_fmap. by exists (key x, g). }
        rewrite app_nil_r. apply Hg. by right.
    + apply elem_of_cons in Hin as [Hin|Hin].
      * injection Hin as -> ->. rewrite filter_key_snoc.
        rewrite String.eqb_sym, E, app_nil_r. apply Hg. left.
      * apply IH; [done| | |done].
        -- intros k0 g0 H0. apply Hg. by right.
        -- intros Hx. apply Hnew. intros H. apply elem_of_cons in H as [H|H]; [|done].
           rewrite H, String.eqb_refl in E. done.
Qed.

Lemma groupBy_spec {A} (xs : list A) (key : A → string) :
  NoDup (groupBy xs key).*1
  ∧ (∀ k g, (k, g) ∈ groupBy xs key →
            g = List.filter (λ y, String.eqb (key y) k) xs)
  ∧ (∀ x, x ∈ xs → key x ∈ (groupBy xs key).*1).
Proof.
  unfold groupBy.
  assert (H : ∀ p acc,
    NoDup acc.*1 →
    (∀ k g, (k, g) ∈ acc → g = List.filter (λ y, String.eqb (key y) k) p) →
    (∀ x, x ∈ p → key x ∈ acc.*1) →
    let res := fold_left (λ groups x, addToGroup (key x) x groups) xs acc in
    NoDup res.*1
    ∧ (∀ k g, (k, g) ∈ res → g = List.filter (λ y, String.eqb (key y) k) (p ++ xs))
    ∧ (∀ x, x ∈ p ++ xs → key x ∈ res.*1)).
  { induction xs as [|x xs IH]; intros p acc Hnd Hg Hk; simpl.
    - rewrite app_nil_r. done.
    - replace (p ++ x :: xs) with ((p ++ [x]) ++ xs) by (by rewrite <- app_assoc).
      apply IH.
      + by apply addToGroup_NoDup.
      + apply addToGroup_members; [done..|].
        intros Hx. apply NoDup_ListNoDup in Hnd.
        destruct (List.filter (λ y, String.eqb (key y) (key x)) p) as [|y l] eqn:Ef;
          [done|].
        exfalso. apply Hx.
        assert (Hy : In y (List.filter (λ y, String.eqb (key y) (key x)) p))
          by (rewrite Ef; by left).
        apply filter_In in Hy as [Hy Hkey]. apply String.eqb_eq in Hkey.
        rewrite <- Hkey. apply Hk. by apply list_elem_of_In.
      + intros y Hy. apply addToGroup_keys.
        apply elem_of_app in Hy as [Hy|Hy]; [right; by apply Hk|].
        apply list_elem_of_singleton in Hy. left. by rewrite Hy. }
  apply (H [] []); simpl.
  - constructor.
  - intros k g Hin. by apply elem_of_nil in Hin.
  - intros x Hin. by apply elem_of_nil in Hin.
Qed.

(** ** What the loops of a sweep do to the state *)

#[global] Instance sweepStep_preorder rows ids : PreOrder (sweepStep rows ids).
Proof.
  split.
  - intros s. split_and!; [done..|]. exists []. split; [by rewrite app_nil_r|constructor].
  - intros s1 s2 s3 (Hs1 & Hb1 & Hc1 & evs1 & Ht1 & He1)
                    (Hs2 & Hb2 & Hc2 & evs2 & Ht2 & He2).
    split_and!.
    + intros j Hj. by rewrite Hs2, Hs1.
    + intros k Hk. by rewrite Hb2, Hb1.
    + congruence.
    + exists (evs1 ++ evs2). split; [by rewrite Ht2, Ht1, app_assoc|by apply Forall_app].
Qed.

Lemma sweepStep_mono (rows rows' : nat → Prop) (ids ids' : string → Prop) s s' :
  (∀ j, rows j → rows' j) → (∀ k, ids k → ids' k) →
  sweepStep rows ids s s' → sweepStep rows' ids' s s'.
Proof.
  intros Hrows Hids (Hs & Hb & Hc & evs & Ht & He). split_and!; [| |done|].
  - intros j Hj. apply Hs. intros H. by apply Hj, Hrows.
  - intros k Hk. apply Hb. intros H. by apply Hk, Hids.
  - exists evs. split; [done|]. eapply Forall_impl; [exact He|].
    intros e H id q Heq. eapply Hids, H, Heq.
Qed.

Lemma sweepStep_log (rows : nat → Prop) ids step level message meta :
  rows (ActionStep.id step) →
  respects (sweepStep rows ids) (log step level message meta).
Proof.
  intros Hrow s. rewrite log_eval. simpl. split_and!; [|done|done|].
  - intros j Hj. simpl. rewrite list_lookup_alter_ne; [done|]. intros E. apply Hj.
    by rewrite <- E.
  - exists []. simpl. rewrite app_nil_r. split; [done|constructor].
Qed.

Lemma sweepStep_logInfo (rows : nat → Prop) ids step message meta :
  rows (ActionStep.id step) →
  respects (sweepStep rows ids) (logInfo step message meta).
Proof. apply sweepStep_log. Qed.

Lemma sweepStep_complete (rows : nat → Prop) ids step status :
  rows (ActionStep.id step) →
  respects (sweepStep rows ids) (complete step status).
Proof.
  intros Hrow s. unfold complete. rewrite bind_gets.
  destruct (steps s !! ActionStep.id step) as [row|]; [|reflexivity].
  case_decide; [|reflexivity]. simpl. split_and!; [|done|done|].
  - intros j Hj. simpl. rewrite list_lookup_alter_ne; [done|]. intros E. apply Hj.
    by rewrite <- E.
  - exists []. simpl. rewrite app_nil_r. split; [done|constructor].
Qed.

Lemma sweepStep_prismaBuildUpdate rows (ids : string → Prop) id f :
  ids id → respects (sweepStep rows ids) (prismaBuildUpdate id f).
Proof.
  intros Hid s. unfold prismaBuildUpdate. rewrite bind_gets.
  destruct (builds s !! id) as [r|]; [|reflexivity].
  simpl. split_and!; [done| |done|].
  - intros k Hk. simpl. rewrite lookup_alter_ne; [done|]. intros E. apply Hk.
    by rewrite <- E.
  - exists []. simpl. rewrite app_nil_r. split; [done|constructor].
Qed.

Lemma sweepStep_emit rows (ids : string → Prop) e :
  (∀ id statusQuery, e = EvGetStatus id statusQuery → ids id) →
  respects (sweepStep rows ids) (emit e).
Proof.
  intros He s. simpl. split_and!; [done..|]. exists [e]. split; [done|].
  by apply Forall_singleton.
Qed.

#[export] Hint Resolve sweepStep_log sweepStep_logInfo sweepStep_complete
  sweepStep_prismaBuildUpdate : respects.

(** The operations of one poll are those of the loop it belongs to. *)
Lemma sweepStep_handleContainerBuilderResultTask env (rows : nat → Prop)
    (ids : string → Prop) build step result :
  rows (ActionStep.id step) → ids (Build.id build) →
  TaskRespects (sweepStep rows ids) (handleContainerBuilderResultTask env build step result).
Proof.
  intros Hrow Hid. unfold handleContainerBuilderResultTask.
  destruct (BuildResult.status result); [task_respects_auto| |task_respects_auto].
  apply TaskRespects_bind; [task_respects_step|intros _].
  apply TaskRespects_bind; [task_respects_step|intros _].
  apply TaskRespects_bind; [task_respects_step|intros _].
  destruct (canDeploy env); [|task_respects_step].
  apply TaskRespects_await.
  apply respects_bind; [typeclasses eauto| |intros _; respects_step].
  by apply sweepStep_emit.
Qed.

Lemma elem_of_dockerRows g b step :
  b ∈ g → dockerStepOf b = Some step → ActionStep.id step ∈ dockerRows g.
Proof.
  intros Hb Hd. unfold dockerRows. apply list_elem_of_omap. exists b.
  split; [done|]. by rewrite Hd.
Qed.

Lemma derefTask_bind_Some {A B} what (a : A) (k : A → Task B) :
  (derefTask what (Some a) ≫= k) = k a.
Proof. reflexivity. Qed.

Lemma loopStep_pollBuildTask env g b :
  b ∈ g → TaskRespects (loopStep g) (pollBuildTask env b).
Proof.
  intros Hb. unfold pollBuildTask.
  destruct (Build.action b) as [action|] eqn:Ha; [|exact I].
  rewrite derefTask_bind_Some.
  assert (Hid : Build.id b ∈ Build.id <$> g).
  { apply list_elem_of_fmap. by exists b. }
  apply TaskRespects_tryCatch; [|intros error].
  - apply TaskRespects_bind; [|intros _].
    { apply TaskRespects_await, sweepStep_emit. by intros id q [= <- _]. }
    apply TaskRespects_bind; [task_respects_step|intros result].
    destruct (List.find _ (Action.steps action)) as [step|] eqn:Hf; [|exact I].
    rewrite derefTask_bind_Some.
    apply sweepStep_handleContainerBuilderResultTask; [|done].
    eapply elem_of_dockerRows; [done|]. unfold dockerStepOf. rewrite Ha. exact Hf.
  - destruct (List.find _ (Action.steps action)) as [step|] eqn:Hf; [|exact I].
    rewrite derefTask_bind_Some.
    assert (Hrow : ActionStep.id step ∈ dockerRows g).
    { eapply elem_of_dockerRows; [done|]. unfold dockerStepOf. rewrite Ha. exact Hf. }
    task_respects_auto.
Qed.

Lemma loopStep_forOfTask env g :
  TaskRespects (loopStep g) (forOfTask (pollBuildTask env) g).
Proof.
  assert (H : ∀ l, l ⊆ g → TaskRespects (loopStep g) (forOfTask (pollBuildTask env) l)).
  { induction l as [|b l IH]; intros Hl; [exact I|].
    simpl. apply TaskRespects_bind.
    - apply loopStep_pollBuildTask, Hl. left.
    - intros _. apply IH. intros x Hx. apply Hl. by right. }
  by apply H.
Qed.

(** ** The loop over the Builds of one application *)

Lemma callsSince_app s0 s s' events :
  (length (trace s0) ≤ length (trace s))%nat → trace s' = trace s ++ events →
  callsSince s0 s' = callsSince s0 s ++ events.
Proof. intros Hlen Ht. unfold callsSince. by rewrite Ht, drop_app_le. Qed.

Lemma callsSince_start s : callsSince s s = [].
Proof. unfold callsSince. by rewrite drop_all. Qed.

Lemma pollStarted_sweepStep rows ids s0 s s' b :
  sweepStep rows ids s s' → (length (trace s0) ≤ length (trace s))%nat →
  pollStarted s0 s b → pollStarted s0 s' b.
Proof.
  intros (_ & _ & _ & evs & Ht & _) Hlen Hstarted. unfold pollStarted.
  rewrite (callsSince_app s0 s s' evs) by done. apply elem_of_app. by left.
Qed.

Lemma advanced_sweepStep env (rows : nat → Prop) (ids : string → Prop) s0 s s' c :
  sweepStep rows ids s s' → (length (trace s0) ≤ length (trace s))%nat →
  ¬ ids (Build.id c) →
  (∀ step, dockerStepOf c = Some step → ¬ rows (ActionStep.id step)) →
  advanced env s0 s c → advanced env s0 s' c.
Proof.
  intros Hstep Hlen Hid Hrow (Hstarted & step & row & r & Hd & Hrow' & Hr & Hadv).
  split; [by eapply pollStarted_sweepStep|].
  destruct Hstep as (Hs & Hb & _).
  exists step, row, r. split_and!; [done| | |done].
  - rewrite Hs; [done|]. by apply Hrow.
  - by rewrite Hb.
Qed.

Lemma pollable_sweepStep (rows : nat → Prop) (ids : string → Prop) s s' c :
  sweepStep rows ids s s' →
  ¬ ids (Build.id c) →
  (∀ step, dockerStepOf c = Some step → ¬ rows (ActionStep.id step)) →
  pollable s c → pollable s' c.
Proof.
  intros (Hs & Hb & _) Hid Hrow (step & row & r & Hd & Hrow' & Hst & Hr).
  exists step, row, r. split_and!; [done| |done|].
  - rewrite Hs; [done|]. by apply Hrow.
  - by rewrite Hb.
Qed.

Lemma loopAt_sweepStep env (rows : nat → Prop) (ids : string → Prop) s0 done rest s s' :
  sweepStep rows ids s s' →
  (∀ c, c ∈ done ++ rest →
     ¬ ids (Build.id c)
     ∧ ∀ step, dockerStepOf c = Some step → ¬ rows (ActionStep.id step)) →
  loopAt env s0 done rest s → loopAt env s0 done rest s'.
Proof.
  intros Hstep Hfree (Hclock & Hlen & Hdone & Hrest).
  pose proof Hstep as (Hs & Hb & Hc & evs & Ht & He).
  split_and!.
  - congruence.
  - rewrite Ht, length_app. lia.
  - intros c Hc'. destruct (Hfree c) as [Hid Hrow]; [apply elem_of_app; by left|].
    apply (advanced_sweepStep env rows ids s0 s s' c Hstep Hlen Hid Hrow), Hdone, Hc'.
  - intros c Hc'. destruct (Hfree c) as [Hid Hrow]; [apply elem_of_app; by right|].
    destruct (Hrest c Hc') as [Hp Hnot].
    split; [exact (pollable_sweepStep rows ids s s' c Hstep Hid Hrow Hp)|].
    intros q Hin. rewrite (callsSince_app s0 s s' evs) in Hin by done.
    apply elem_of_app in Hin as [Hin|Hin]; [by apply (Hnot q)|].
    rewrite Forall_forall in He. by apply Hid, (He _ Hin (Build.id c) q).
Qed.

Lemma duringPoll_mono env s0 g b step rest (φ φ' : StepRow.t → BuildRow.t → Prop) s :
  (∀ row r, φ row r → φ' row r) →
  duringPoll env s0 g b step rest φ s → duringPoll env s0 g b step rest φ' s.
Proof.
  intros Himp (done & row & r & Hg & Hloop & Hst & Hd & Hrow & Hr & Hφ).
  exists done, row, r. split_and!; [done..|]. by apply Himp.
Qed.

Lemma pollBuildTask_eval env b step :
  dockerStepOf b = Some step →
  pollBuildTask env b =
    tryCatch
      (_ ← await (emit (EvGetStatus (Build.id b) (Build.containerStatusQuery b)));
       match getStatus env (Build.containerStatusQuery b) with
       | Ok result => handleContainerBuilderResultTask env b step result
       | Throw e => Settled (Throw e)
       end)
      (λ error,
       _ ← await (logInfo step (errorText error) []);
       await (complete step EnumActionStepStatus.Failed)).
Proof.
  intros Hd. apply dockerStepOf_Some in Hd as (action & Ha & Hf).
  unfold pollBuildTask. rewrite Ha, derefTask_bind_Some. cbv zeta. rewrite Hf.
  destruct (getStatus env (Build.containerStatusQuery b)); reflexivity.
Qed.

Section PollLoop.

Context (env : Env) (s0 : State) (g : list Build.t).

Hypothesis g_NoDup : NoDup g.
Hypothesis g_apart : ∀ b c, b ∈ g → c ∈ g → b ≠ c → apart b c.

Lemma others_free c :
  c ∈ g →
  ¬ (Build.id c ∉ Build.id <$> g)
  ∧ ∀ step, dockerStepOf c = Some step → ¬ (ActionStep.id step ∉ dockerRows g).
Proof.
  intros Hc. split.
  - intros H. apply H, list_elem_of_fmap. by exists c.
  - intros step Hd H. by apply H, (elem_of_dockerRows g c).
Qed.

Lemma own_free done b rest step c :
  g = done ++ b :: rest → dockerStepOf b = Some step → c ∈ done ++ rest →
  ¬ (Build.id b = Build.id c)
  ∧ ∀ stepc, dockerStepOf c = Some stepc → ¬ (ActionStep.id step = ActionStep.id stepc).
Proof.
  intros Hg Hd Hc.
  assert (Hne : b ≠ c).
  { intros <-. rewrite Hg in g_NoDup. apply NoDup_app in g_NoDup as (_ & Hdisj & Hn).
    apply NoDup_cons in Hn as [Hb _].
    apply elem_of_app in Hc as [Hc|Hc]; [|done]. apply (Hdisj b Hc). left. }
  destruct (g_apart b c) as [Hid Hrow]; [| |done|].
  - rewrite Hg. apply elem_of_app. right. left.
  - rewrite Hg. apply elem_of_app in Hc as [Hc|Hc]; apply elem_of_app; [by left|].
    right. by right.
  - split; [done|]. intros stepc Hdc E. apply Hrow. rewrite Hd, Hdc. simpl. by rewrite E.
Qed.

Lemma betweenPolls_stable rest : stable (othersStep g) (betweenPolls env s0 g rest).
Proof.
  intros s s' (done & Hg & Hloop) Hstep. exists done. split; [done|].
  eapply loopAt_sweepStep; [exact Hstep| |done].
  intros c Hc. apply others_free. by rewrite Hg.
Qed.

Lemma duringPoll_stable b step rest φ :
  stable (othersStep g) (duringPoll env s0 g b step rest φ).
Proof.
  intros s s' (done & row & r & Hg & Hloop & Hst & Hd & Hrow & Hr & Hφ) Hstep.
  assert (Hb : b ∈ g).
  { rewrite Hg. apply elem_of_app. right. left. }
  exists done, row, r. split_and!; [done| | |done| | |done].
  - eapply loopAt_sweepStep; [exact Hstep| |done].
    intros c Hc. apply others_free. rewrite Hg.
    apply elem_of_app in Hc as [Hc|Hc]; apply elem_of_app; [by left|]. right. by right.
  - eapply pollStarted_sweepStep; [exact Hstep| |done]. apply Hloop.
  - destruct Hstep as (Hs & _). rewrite Hs; [done|]. by apply (others_free b).
  - destruct Hstep as (_ & Hbs & _). rewrite Hbs; [done|]. by apply (others_free b).
Qed.

Lemma betweenPolls_sequential rest s :
  betweenPolls env s0 g rest s → sequentialIn env s0 g s.
Proof.
  intros (done & Hg & Hclock & Hlen & Hdone & Hrest) before b after Hsplit Hstarted a Ha.
  apply Hdone. rewrite Hg in Hsplit.
  apply app_eq_inv in Hsplit as [(k & Hd & Hr)|(k & Hb & Hr)].
  - rewrite Hd. apply elem_of_app. by left.
  - exfalso. destruct (Hrest b) as [_ Hnot]; [|by apply (Hnot _ Hstarted)].
    rewrite Hr. apply elem_of_app. right. left.
Qed.

Lemma duringPoll_sequential b step rest φ s :
  duringPoll env s0 g b step rest φ s → sequentialIn env s0 g s.
Proof.
  intros (done & row & r & Hg & (Hclock & Hlen & Hdone & Hrest) & _)
         before b' after Hsplit Hstarted a Ha.
  apply Hdone. rewrite Hg in Hsplit.
  apply app_eq_inv in Hsplit as [(k & Hd & Hr)|(k & Hb & Hr)].
  - rewrite Hd. apply elem_of_app. by left.
  - destruct k as [|x k]; simpl in Hr.
    + rewrite app_nil_r in Hb. by rewrite <- Hb.
    + injection Hr as _ Hr. exfalso.
      destruct (Hrest b') as [_ Hnot]; [|by apply (Hnot _ Hstarted)].
      rewrite Hr. apply elem_of_app. right. left.
Qed.

(** An operation of the poll of [b] on the step and the row of [b]. *)
Lemma Triple_op {A} (m : M A) b step rest (φ : StepRow.t → BuildRow.t → Prop)
    (ψ : Result A → StepRow.t → BuildRow.t → Prop) :
  respects (sweepStep (eq (ActionStep.id step)) (eq (Build.id b))) m →
  (∀ s row r,
     clock s = clock s0 →
     steps s !! ActionStep.id step = Some row → builds s !! Build.id b = Some r →
     φ row r →
     ∃ row' r',
       steps (m s).2 !! ActionStep.id step = Some row'
       ∧ builds (m s).2 !! Build.id b = Some r'
       ∧ ψ (m s).1 row' r') →
  Triple (othersStep g) (sequentialIn env s0 g)
    (duringPoll env s0 g b step rest φ) (await m)
    (λ res, duringPoll env s0 g b step rest (ψ res)).
Proof.
  intros Hm Hview. apply Triple_await.
  - intros res. apply duringPoll_stable.
  - intros res s. apply duringPoll_sequential.
  - intros s (done & row & r & Hg & Hloop & Hst & Hd & Hrow & Hr & Hφ).
    destruct (Hview s row r) as (row' & r' & Hrow' & Hr' & Hψ); [apply Hloop|done..|].
    exists done, row', r'. split_and!; [done| | |done..].
    + eapply loopAt_sweepStep; [apply Hm| |done].
      intros c Hc. by eapply own_free.
    + eapply pollStarted_sweepStep; [apply Hm| |done]. apply Hloop.
Qed.

Lemma Triple_startPoll b step rest :
  dockerStepOf b = Some step →
  Triple (othersStep g) (sequentialIn env s0 g)
    (betweenPolls env s0 g (b :: rest))
    (await (emit (EvGetStatus (Build.id b) (Build.containerStatusQuery b))))
    (λ res, duringPoll env s0 g b step rest
              (λ row r, res = Ok tt
                        ∧ StepRow.status row = EnumActionStepStatus.Running)).
Proof.
  intros Hd. apply Triple_await.
  - intros res. apply duringPoll_stable.
  - intros res s. apply duringPoll_sequential.
  - intros s (done & Hg & Hclock & Hlen & Hdone & Hrest).
    destruct (Hrest b) as [(step' & row & r & Hd' & Hrow & Hst & Hr) _]; [left|].
    assert (step' = step) by congruence. subst step'.
    assert (Hstep : sweepStep (eq (ActionStep.id step)) (eq (Build.id b)) s
              (emit (EvGetStatus (Build.id b) (Build.containerStatusQuery b)) s).2).
    { apply sweepStep_emit. by intros id q [= <- _]. }
    exists done, row, r. split_and!; [done| | |done..].
    + eapply loopAt_sweepStep; [exact Hstep|intros c Hc; by eapply own_free|].
      split_and!; [done..|]. intros c Hc. apply Hrest. by right.
    + unfold pollStarted.
      rewrite (callsSince_app s0 s _ [EvGetStatus (Build.id b) (Build.containerStatusQuery b)])
        by done.
      apply elem_of_app. right. by apply list_elem_of_singleton.
Qed.

Lemma duringPoll_done b step rest s :
  duringPoll env s0 g b step rest (advancedRows env (clock s0) b) s →
  betweenPolls env s0 g rest s.
Proof.
  intros (done & row & r & Hg & (Hclock & Hlen & Hdone & Hrest) & Hst & Hd & Hrow & Hr & Hadv).
  exists (done ++ [b]). split; [by rewrite <- app_assoc|].
  split_and!; [done..| |done].
  intros c Hc. apply elem_of_app in Hc as [Hc|Hc]; [by apply Hdone|].
  apply list_elem_of_singleton in Hc as ->. split; [done|]. by exists step, row, r.
Qed.

Lemma duringPoll_absurd b step rest (φ : StepRow.t → BuildRow.t → Prop) s :
  (∀ row r, ¬ φ row r) → ¬ duringPoll env s0 g b step rest φ s.
Proof. intros Hφ (done & row & r & _ & _ & _ & _ & _ & _ & H). by apply (Hφ row r). Qed.

Lemma Triple_logInfo b step rest (φ ψ : StepRow.t → BuildRow.t → Prop) message meta :
  (∀ row r, φ row r →
     ψ (StepRow.add_log (ActionLog.mk (Some EnumActionLogLevel.Info) message meta) row) r) →
  Triple (othersStep g) (sequentialIn env s0 g)
    (duringPoll env s0 g b step rest φ) (await (logInfo step message meta))
    (λ res, duringPoll env s0 g b step rest (λ row r, res = Ok tt ∧ ψ row r)).
Proof.
  intros Hψ. apply Triple_op; [by apply sweepStep_logInfo|].
  intros s row r _ Hrow Hr Hφ. rewrite logInfo_eval. simpl.
  eexists _, r. split_and!; [by rewrite list_lookup_alter_eq, Hrow|done|done|].
  by apply Hψ.
Qed.

Lemma Triple_complete b step rest (φ : StepRow.t → BuildRow.t → Prop)
    (ψ : Result unit → StepRow.t → BuildRow.t → Prop) status :
  (∀ row r, φ row r →
     if decide (StepRow.status row = EnumActionStepStatus.Running)
     then ψ (Ok tt) (StepRow.set_status status (clock s0) row) r
     else ψ (Throw (InvalidStepTransition (ActionStep.id step))) row r) →
  Triple (othersStep g) (sequentialIn env s0 g)
    (duringPoll env s0 g b step rest φ) (await (complete step status))
    (λ res, duringPoll env s0 g b step rest (ψ res)).
Proof.
  intros Hψ. apply Triple_op; [by apply sweepStep_complete|].
  intros s row r Hclock Hrow Hr Hφ. specialize (Hψ row r Hφ).
  destruct (decide (StepRow.status row = EnumActionStepStatus.Running)) as [Hrun|Hrun].
  - rewrite (complete_running step status s row Hrow Hrun). simpl.
    eexists _, r. split_and!; [by rewrite list_lookup_alter_eq, Hrow|done|].
    by rewrite Hclock.
  - rewrite (complete_not_running step status s row Hrow Hrun). simpl.
    by exists row, r.
Qed.

Lemma Triple_update b step rest (φ ψ : StepRow.t → BuildRow.t → Prop)
    (f : Z → BuildRow.t → BuildRow.t) :
  (∀ row r, φ row r → ψ row (f (clock s0) r)) →
  Triple (othersStep g) (sequentialIn env s0 g)
    (duringPoll env s0 g b step rest φ)
    (await (now ← newDate; prismaBuildUpdate (Build.id b) (f now)))
    (λ res, duringPoll env s0 g b step rest (λ row r, res = Ok tt ∧ ψ row r)).
Proof.
  intros Hψ. apply Triple_op.
  { apply respects_bind; [typeclasses eauto|respects_step|intros now].
    by apply sweepStep_prismaBuildUpdate. }
  intros s row r Hclock Hrow Hr Hφ. unfold newDate. rewrite bind_gets.
  rewrite (prismaBuildUpdate_found _ _ _ r Hr). simpl.
  eexists row, _. split_and!; [done|by rewrite lookup_alter_eq, Hr|done|].
  rewrite Hclock. by apply Hψ.
Qed.

Lemma Triple_deploy b step rest (φ : StepRow.t → BuildRow.t → Prop)
    (ψ : Result unit → StepRow.t → BuildRow.t → Prop) :
  (∀ row r, φ row r → ψ (autoDeployToSandbox env b) row r) →
  Triple (othersStep g) (sequentialIn env s0 g)
    (duringPoll env s0 g b step rest φ)
    (await (_ ← emit (EvAutoDeployToSandbox (Build.id b));
            liftResult (autoDeployToSandbox env b)))
    (λ res, duringPoll env s0 g b step rest (ψ res)).
Proof.
  intros Hψ. apply Triple_op.
  { apply respects_bind; [typeclasses eauto| |intros _; respects_step].
    by apply sweepStep_emit. }
  intros s row r Hclock Hrow Hr Hφ. rewrite bind_emit. unfold liftResult. simpl.
  exists row, r. split_and!; [done..|]. by apply Hψ.
Qed.

Ltac triple_absurd :=
  let e := fresh in let s := fresh in let H := fresh in
  intros e s H; exfalso; revert H; apply duringPoll_absurd; by intros ? ? [? ?].

(** An operation that does not throw, and then the rest. *)
Tactic Notation "triple_step" tactic(tac) :=
  eapply Triple_bind; [tac|intros []|triple_absurd].

(** Handling the answer to the poll of [b]. *)
Lemma Triple_handleContainerBuilderResultTask b step rest result :
  getStatus env (Build.containerStatusQuery b) = Ok result →
  Triple (othersStep g) (sequentialIn env s0 g)
    (duringPoll env s0 g b step rest
       (λ row r, StepRow.status row = EnumActionStepStatus.Running))
    (handleContainerBuilderResultTask env b step result)
    (λ res, duringPoll env s0 g b step rest
       (λ row r, match res with
                 | Ok _ => advancedRows env (clock s0) b row r
                 | Throw _ => ¬ deploymentSucceeds env b
                              ∧ StepRow.status row = EnumActionStepStatus.Success
                 end)).
Proof.
  intros Hg. unfold handleContainerBuilderResultTask.
  destruct (BuildResult.status result) eqn:Hres.
  - triple_step (apply Triple_logInfo
        with (ψ := λ row r, StepRow.status row = EnumActionStepStatus.Running);
                 by intros row r H).
    eapply Triple_post; cycle 1.
    { apply (Triple_update b step rest _
               (λ row r, StepRow.status row = EnumActionStepStatus.Running
                         ∧ BuildRow.containerStatusQuery r = BuildResult.statusQuery result
                         ∧ BuildRow.containerStatusUpdatedAt r = Some (clock s0))
               (BuildRow.set_containerStatus (BuildResult.statusQuery result))).
      by intros row r [_ H]. }
    intros res s. apply duringPoll_mono. intros row r [-> H].
    unfold advancedRows. by rewrite Hg, Hres.
  - triple_step (apply Triple_logInfo
        with (ψ := λ row r, StepRow.status row = EnumActionStepStatus.Running);
                 by intros row r H).
    triple_step (apply Triple_complete
        with (ψ := λ res row r,
                res = Ok tt ∧ StepRow.status row = EnumActionStepStatus.Success);
                 intros row r [_ H]; by rewrite decide_True).
    triple_step (apply (Triple_update b step rest _
               (λ row r, StepRow.status row = EnumActionStepStatus.Success
                         ∧ BuildRow.images r = BuildResult.images result)
               (λ _, BuildRow.set_images (BuildResult.images result)));
                 by intros row r [_ H]).
    destruct (canDeploy env) eqn:Hcan.
    + apply Triple_deploy. intros row r [_ [Hst Himg]].
      destruct (autoDeployToSandbox env b) as [[]|e] eqn:Hdep.
      * unfold advancedRows. by rewrite Hg, Hres.
      * split; [|done]. intros H. by rewrite (H Hcan result Hg Hres) in Hdep.
    + apply Triple_ret. intros s. apply duringPoll_mono. intros row r [_ H].
      unfold advancedRows. by rewrite Hg, Hres.
  - triple_step (apply Triple_logInfo
        with (ψ := λ row r, StepRow.status row = EnumActionStepStatus.Running);
                 by intros row r H).
    eapply Triple_post; cycle 1.
    { apply Triple_complete
        with (ψ := λ res row r,
                res = Ok tt ∧ StepRow.status row = EnumActionStepStatus.Failed).
      intros row r [_ H]. by rewrite decide_True. }
    intros res s. apply duringPoll_mono. intros row r [-> H].
    unfold advancedRows. by rewrite Hg, Hres.
Qed.

(** One poll, from the status query to the end of the [try] or [catch]
    block. *)
Lemma Triple_pollBuildTask b rest :
  Triple (othersStep g) (sequentialIn env s0 g)
    (betweenPolls env s0 g (b :: rest)) (pollBuildTask env b)
    (λ res s, match res with
              | Ok _ => betweenPolls env s0 g rest s
              | Throw e => loopEnds env s0 g (Throw e) s
              end).
Proof.
  apply Triple_pure with (P := b ∈ g ∧ ∃ step, dockerStepOf b = Some step).
  { intros s (done & Hg & _ & _ & _ & Hrest). split.
    - rewrite Hg. apply elem_of_app. right. left.
    - destruct (Hrest b) as [(step & _ & _ & Hd & _) _]; [left|]. by exists step. }
  intros [Hb (step & Hd)]. rewrite (pollBuildTask_eval env b step Hd).
  eapply Triple_post; cycle 1.
  { eapply Triple_tryCatch
      with (Mid := λ res, duringPoll env s0 g b step rest
              (λ row r,
                 match res with
                 | Ok _ => advancedRows env (clock s0) b row r
                 | Throw e =>
                     (getStatus env (Build.containerStatusQuery b) = Throw e
                      ∧ StepRow.status row = EnumActionStepStatus.Running)
                     ∨ (¬ deploymentSucceeds env b
                        ∧ StepRow.status row = EnumActionStepStatus.Success)
                 end))
           (Post := λ res, duringPoll env s0 g b step rest
              (λ row r,
                 match res with
                 | Ok _ => advancedRows env (clock s0) b row r
                 | Throw _ => ¬ deploymentSucceeds env b
                 end)).
    - eapply Triple_bind; [by apply Triple_startPoll|intros []|triple_absurd].
      destruct (getStatus env (Build.containerStatusQuery b)) as [result|e] eqn:Hg.
      + eapply Triple_post; cycle 1.
        { eapply Triple_pre; [|by apply Triple_handleContainerBuilderResultTask].
          intros s. apply duringPoll_mono. by intros row r [_ H]. }
        intros [[]|e] s; apply duringPoll_mono; [done|]. intros row r H. by right.
      + apply Triple_settled. intros s. apply duringPoll_mono. intros row r [_ H].
        by left.
    - intros e.
      triple_step (apply Triple_logInfo
          with (ψ := λ row r,
                  (getStatus env (Build.containerStatusQuery b) = Throw e
                   ∧ StepRow.status row = EnumActionStepStatus.Running
                   ∧ ActionLog.mk (Some EnumActionLogLevel.Info) (errorText e) []
                       ∈ StepRow.logs row)
                  ∨ (¬ deploymentSucceeds env b
                     ∧ StepRow.status row = EnumActionStepStatus.Success));
                 intros row r [[Hg Hst]|[Hdep Hst]]; [left|by right];
                 split_and!; [done..|]; simpl; apply elem_of_app; right;
                 by apply list_elem_of_singleton).
      apply Triple_complete. intros row r [_ [(Hg & Hst & Hlog)|[Hdep Hst]]].
      + rewrite decide_True by done. unfold advancedRows. by rewrite Hg.
      + rewrite decide_False; [done|]. by rewrite Hst.
    - done. }
  intros [[]|e] s H.
  - by eapply duringPoll_done.
  - exists b. split; [done|]. destruct H as (done & row & r & _ & _ & _ & _ & _ & _ & H).
    exact H.
Qed.

(** The loop over the group, from its start to its end. *)
Lemma Triple_loop :
  Triple (othersStep g) (sequentialIn env s0 g)
    (betweenPolls env s0 g g) (forOfTask (pollBuildTask env) g) (loopEnds env s0 g).
Proof.
  apply (Triple_forOfTask _ _ _ (betweenPolls env s0 g)).
  - intros b rest. eapply Triple_post; [|apply Triple_pollBuildTask].
    by intros [[]|e] s.
  - intros s (done & Hg & _ & _ & Hdone & _) b Hb. apply Hdone.
    by rewrite Hg, app_nil_r in Hb.
Qed.

Lemma betweenPolls_start :
  (∀ b, b ∈ g → pollable s0 b) → betweenPolls env s0 g g s0.
Proof.
  intros Hp. exists []. split; [done|]. split_and!; [done..| |].
  - intros b Hb. by apply elem_of_nil in Hb.
  - intros b Hb. split; [by apply Hp|]. intros q. rewrite callsSince_start.
    apply not_elem_of_nil.
Qed.

End PollLoop.

(** ** The loops of a sweep, side by side *)

Lemma filter_partition {A} (f : A → bool) (l : list A) :
  List.filter f l ++ List.filter (λ x, negb (f x)) l ≡ₚ l.
Proof.
  induction l as [|x l IH]; simpl; [done|].
  destruct (f x); simpl; [by rewrite IH|].
  by rewrite <- Permutation_middle, IH.
Qed.

Lemma objectEntries_Permutation {A} (o : list (string * A)) : objectEntries o ≡ₚ o.
Proof. unfold objectEntries. rewrite orderBy_Permutation. apply filter_partition. Qed.

Lemma sweepGroups_spec s :
  NoDup (sweepGroups s).*1
  ∧ (∀ k g, (k, g) ∈ sweepGroups s →
       g = List.filter (λ b, String.eqb (Build.appId b) k) (selectedBuilds s))
  ∧ (∀ b, b ∈ selectedBuilds s → Build.appId b ∈ (sweepGroups s).*1).
Proof.
  destruct (groupBy_spec (selectedBuilds s) Build.appId) as (Hnd & Hg & Hk).
  unfold sweepGroups. split_and!.
  - by rewrite objectEntries_Permutation.
  - intros k g Hin. rewrite objectEntries_Permutation in Hin. by apply Hg.
  - intros b Hb. rewrite objectEntries_Permutation. by apply Hk.
Qed.

Lemma elem_of_sweepGroup s k g b :
  (k, g) ∈ sweepGroups s → b ∈ g ↔ b ∈ selectedBuilds s ∧ Build.appId b = k.
Proof.
  intros Hin. destruct (sweepGroups_spec s) as (_ & Hg & _).
  rewrite (Hg k g Hin), list_elem_of_In, filter_In, <- list_elem_of_In.
  by rewrite String.eqb_eq.
Qed.

Lemma NoDup_sweepGroup s k g : (k, g) ∈ sweepGroups s → NoDup g.
Proof.
  intros Hin. destruct (sweepGroups_spec s) as (_ & Hg & _). rewrite (Hg k g Hin).
  apply NoDup_ListNoDup, List.NoDup_filter, NoDup_ListNoDup, NoDup_runningBuildsAt.
Qed.

Lemma groupAt_lookup s i k g : sweepGroups s !! i = Some (k, g) → groupAt s i = g.
Proof. intros H. unfold groupAt. by rewrite H. Qed.

Lemma elem_of_groupAt s i b :
  b ∈ groupAt s i →
  ∃ g, sweepGroups s !! i = Some (Build.appId b, g) ∧ groupAt s i = g
       ∧ b ∈ selectedBuilds s.
Proof.
  unfold groupAt. destruct (sweepGroups s !! i) as [[k g]|] eqn:Hi; simpl.
  - intros Hb. apply (elem_of_sweepGroup s k g b) in Hb as [Hb <-].
    + by exists g.
    + by eapply list_elem_of_lookup_2.
  - intros Hb. by apply elem_of_nil in Hb.
Qed.

Lemma groupAt_apart s i k b c :
  oneDockerStepPerAction s → actionsNotShared s →
  b ∈ groupAt s i → c ∈ groupAt s k → (i ≠ k ∨ b ≠ c) → apart b c.
Proof.
  intros Hone Hns Hb Hc Hne.
  apply elem_of_groupAt in Hb as (gb & Hi & _ & Hb).
  apply elem_of_groupAt in Hc as (gc & Hk & _ & Hc).
  eapply selected_apart; [done|exact Hb|exact Hc| | |].
  - by eapply selected_pollable.
  - by eapply selected_pollable.
  - destruct Hne as [Hne|Hne]; [|done]. intros <-. apply Hne.
    destruct (sweepGroups_spec s) as (Hnd & _).
    eapply NoDup_lookup; [exact Hnd| |].
    + rewrite list_lookup_fmap, Hi. reflexivity.
    + rewrite list_lookup_fmap, Hk. reflexivity.
Qed.

Lemma NoDup_groupAt s i : NoDup (groupAt s i).
Proof.
  unfold groupAt. destruct (sweepGroups s !! i) as [[k g]|] eqn:Hi; [|constructor].
  eapply NoDup_sweepGroup, list_elem_of_lookup_2, Hi.
Qed.

Lemma sweepCallbacks_lookup env s i t :
  sweepCallbacks env s !! i = Some t → t = forOfTask (pollBuildTask env) (groupAt s i).
Proof.
  unfold sweepCallbacks, groupAt. rewrite list_lookup_fmap.
  destruct (sweepGroups s !! i) as [entry|]; simpl; [|done]. by intros [= <-].
Qed.

Lemma updateRunningBuildsStatus_eval env s :
  updateRunningBuildsStatus env s = promiseAll (schedule env) (sweepCallbacks env s) s.
Proof. reflexivity. Qed.

(** What one loop does, the loops of the other applications allow for. *)
Lemma loopStep_othersStep s i k :
  oneDockerStepPerAction s → actionsNotShared s → i ≠ k →
  ∀ s1 s2, loopStep (groupAt s k) s1 s2 → othersStep (groupAt s i) s1 s2.
Proof.
  intros Hone Hns Hne s1 s2. apply sweepStep_mono.
  - intros j Hk Hi. unfold dockerRows in Hk, Hi.
    apply list_elem_of_omap in Hk as (c & Hc & Hdc).
    apply list_elem_of_omap in Hi as (b & Hb & Hdb).
    destruct (groupAt_apart s i k b c Hone Hns Hb Hc (or_introl Hne)) as [_ Hrows].
    apply Hrows. by rewrite Hdb, Hdc.
  - intros id Hk Hi.
    apply list_elem_of_fmap in Hk as (c & -> & Hc).
    apply list_elem_of_fmap in Hi as (b & Hid & Hb).
    destruct (groupAt_apart s i k b c Hone Hns Hb Hc (or_introl Hne)) as [Hids _].
    by apply Hids.
Qed.

(** Whatever the order in which the loops of a sweep go on, each polls
    its Builds one after the other, and a loop that has ended has ended as
    [loopEnds] says. *)
Lemma sweep_sound env s turns i :
  oneDockerStepPerAction s → actionsNotShared s →
  let ps := promiseAllAfter turns (sweepCallbacks env s) s in
  sequentialIn env s (groupAt s i) ps.2
  ∧ ∀ r, callbacks ps.1 !! i = Some (Settled r) → loopEnds env s (groupAt s i) r ps.2.
Proof.
  intros Hone Hns ps.
  destruct (decide (i < length (sweepCallbacks env s))%nat) as [Hi|Hi]; cycle 1.
  { assert (Hnone : sweepGroups s !! i = None).
    { apply lookup_ge_None. unfold sweepCallbacks in Hi. rewrite length_map in Hi. lia. }
    split.
    - unfold groupAt. rewrite Hnone. intros before b after Hsplit.
      by destruct before.
    - intros r Hr. apply lookup_lt_Some in Hr. unfold ps, promiseAllAfter in Hr.
      rewrite length_takeTurns in Hr. simpl in Hr. lia. }
  apply (PoolOk_promiseAllAfter
           (λ i, othersStep (groupAt s i)) (λ i, loopStep (groupAt s i))
           (λ i, sequentialIn env s (groupAt s i)) (λ i, loopEnds env s (groupAt s i))
           (λ i, betweenPolls env s (groupAt s i) (groupAt s i))); [| |done].
  - intros j k s1 s2 Hne. by apply loopStep_othersStep.
  - intros j t Ht. apply sweepCallbacks_lookup in Ht as ->.
    assert (Hapart : ∀ b c, b ∈ groupAt s j → c ∈ groupAt s j → b ≠ c → apart b c).
    { intros b c Hb Hc Hne. apply (groupAt_apart s j j); [done..|by right]. }
    split_and!.
    + apply loopStep_forOfTask.
    + apply betweenPolls_stable.
    + apply betweenPolls_sequential.
    + apply betweenPolls_start. intros b Hb.
      apply elem_of_groupAt in Hb as (g & _ & _ & Hb). by eapply selected_pollable.
    + apply Triple_loop; [apply NoDup_groupAt|done].
Qed.



Lemma selected_group s b :
  b ∈ selectedBuilds s →
  ∃ i g, sweepGroups s !! i = Some (Build.appId b, g) ∧ groupAt s i = g ∧ b ∈ g
         ∧ g = List.filter (λ c, String.eqb (Build.appId c) (Build.appId b))
                 (selectedBuilds s).
Proof.
  intros Hb. destruct (sweepGroups_spec s) as (_ & Hg & Hk).
  specialize (Hk b Hb). apply list_elem_of_fmap in Hk as ([k g] & Hkey & Hin).
  simpl in Hkey. subst k. pose proof Hin as Hin'.
  apply list_elem_of_lookup_1 in Hin as [i Hi]. exists i, g.
  split_and!; [done|by eapply groupAt_lookup| |by apply Hg].
  by apply (elem_of_sweepGroup s (Build.appId b) g b).
Qed.


(** *** The sweep over two applications *)


Lemma Sweeps_oneDockerStepPerAction : oneDockerStepPerAction Sweeps.state.
Proof.
  intros i j ri rj Hi Hj _ _ Ha.
  change (steps Sweeps.state)
    with [Sweeps.dockerStep 0; Sweeps.dockerStep 1; Sweeps.dockerStep 2;
          Sweeps.dockerStep 3] in Hi, Hj.
  destruct i as [|[|[|[|i]]]]; simpl in Hi; try done; injection Hi as <-;
    destruct j as [|[|[|[|j]]]]; simpl in Hj; try done; injection Hj as <-;
    done.
Qed.

Lemma Sweeps_actionsNotShared : actionsNotShared Sweeps.state.
Proof.
  intros id id' r r' Hr Hr' Ha.
  change (builds Sweeps.state)
    with (<["b1" := Sweeps.row 100 "app1" 0 "unreachable"]>
            (<["b2" := Sweeps.row 100 "app1" 1 "built"]>
               (<["b3" := Sweeps.row 200 "app1" 2 "pending"]>
                  (<["b4" := Sweeps.row 150 "app2" 3 "built"]>
                     (∅ : gmap string BuildRow.t))))) in Hr, Hr'.
  rewrite !lookup_insert_Some, lookup_empty in Hr, Hr'.
  destruct Hr as [[<- <-]|[_ [[<- <-]|[_ [[<- <-]|[_ [[<- <-]|[_ ?]]]]]]]]; [..|done];
    destruct Hr' as [[<- <-]|[_ [[<- <-]|[_ [[<- <-]|[_ [[<- <-]|[_ ?]]]]]]]]; done.
Qed.




(** In every state a sweep passes through, whatever the order in which
    its loops go on: of two selected Builds of one application, the poll of
    the one that comes later in the selection has started only if the
    earlier one has been polled and advanced. *)
Lemma sweep_sequential env s turns l1 b1 l2 b2 l3 :
  oneDockerStepPerAction s → actionsNotShared s →
  selectedBuilds s = l1 ++ b1 :: l2 ++ b2 :: l3 →
  Build.appId b1 = Build.appId b2 →
  pollStarted s (sweepAfter env turns s) b2 →
  advanced env s (sweepAfter env turns s) b1.
Proof.
  intros Hone Hns Hsel Happ Hstarted.
  assert (Hb2 : b2 ∈ selectedBuilds s).
  { rewrite Hsel. apply elem_of_app. right. right. apply elem_of_app. right. left. }
  destruct (selected_group s b2 Hb2) as (i & g & Hi & Hgi & _ & Hg).
  destruct (sweep_sound env s turns i Hone Hns) as [Hseq _].
  apply (Hseq (List.filter (λ c, String.eqb (Build.appId c) (Build.appId b2)) l1
               ++ b1 :: List.filter (λ c, String.eqb (Build.appId c) (Build.appId b2)) l2)
              b2 (List.filter (λ c, String.eqb (Build.appId c) (Build.appId b2)) l3)).
  - rewrite Hgi, Hg, Hsel. rewrite List.filter_app. simpl.
    rewrite Happ, String.eqb_refl. rewrite List.filter_app. simpl.
    rewrite String.eqb_refl. by rewrite <- app_assoc.
  - done.
  - apply elem_of_app. right. left.
Qed.

(** ** How a sweep starts *)

Lemma forOfTask_pollBuildTask_first env b rest action :
  Build.action b = Some action →
  ∃ next,
    forOfTask (pollBuildTask env) (b :: rest)
    = Pending (add_event (EvGetStatus (Build.id b) (Build.containerStatusQuery b))) next.
Proof.
  intros Ha. simpl. unfold pollBuildTask. rewrite Ha, derefTask_bind_Some.
  eexists. reflexivity.
Qed.

(** Started one after the other, the loops send the status query of their
    first Build each, and nothing else happens. *)
Lemma takeTurns_spawn env (groups : list (string * list Build.t))
    (pre : list (Task unit)) rej s :
  (∀ k g b, (k, g) ∈ groups → b ∈ g → is_Some (Build.action b)) →
  let ps := takeTurns (seq (length pre) (length groups))
              (mkPool (pre ++ map (λ entry, forOfTask (pollBuildTask env) entry.2) groups)
                      rej, s) in
  steps ps.2 = steps s ∧ builds ps.2 = builds s
  ∧ trace ps.2 = trace s
      ++ ((λ b, EvGetStatus (Build.id b) (Build.containerStatusQuery b))
          <$> omap (λ entry, head entry.2) groups).
Proof.
  revert pre rej s. induction groups as [|[k g] groups IH]; intros pre rej s Hact.
  { simpl. by rewrite app_nil_r. }
  cbn [length seq]. rewrite takeTurns_cons.
  assert (Hact' : ∀ k' g' b, (k', g') ∈ groups → b ∈ g' → is_Some (Build.action b)).
  { intros k' g' b Hin Hb. apply (Hact k' g' b); [by right|done]. }
  destruct g as [|b rest].
  - unfold takeTurn. cbn [fst snd callbacks map].
    rewrite list_lookup_middle by done. cbn [forOfTask].
    specialize (IH (pre ++ [mret tt]) (noteRejection rej (Settled (Ok tt))) s Hact').
    rewrite length_app, Nat.add_1_r, <- app_assoc in IH. exact IH.
  - destruct (Hact k (b :: rest) b) as [action Ha]; [left|left|].
    destruct (forOfTask_pollBuildTask_first env b rest action Ha) as (next & Hnext).
    unfold takeTurn. cbn [fst snd callbacks map].
    rewrite list_lookup_middle by done. rewrite Hnext.
    cbn [fst snd callbacks rejection].
    rewrite insert_app_r_alt, Nat.sub_diag by done. cbn [insert list_insert].
    specialize (IH (pre ++ [next s])
                  (noteRejection rej (next s))
                  (add_event (EvGetStatus (Build.id b) (Build.containerStatusQuery b)) s)
                  Hact').
    rewrite length_app, Nat.add_1_r, <- app_assoc in IH.
    destruct IH as (Hs & Hb & Ht). split_and!; [exact Hs|exact Hb|].
    etrans; [exact Ht|]. simpl. by rewrite <- app_assoc.
Qed.

Lemma selected_action s b : b ∈ selectedBuilds s → is_Some (Build.action b).
Proof.
  intros Hb. apply elem_of_runningBuildsAt in Hb as (id & r & _ & -> & _). by eexists.
Qed.

Lemma sweep_start env s :
  callsSince s (sweepAfter env [] s)
    = ((λ b, EvGetStatus (Build.id b) (Build.containerStatusQuery b))
       <$> omap (λ entry, head entry.2) (sweepGroups s))
  ∧ steps (sweepAfter env [] s) = steps s
  ∧ builds (sweepAfter env [] s) = builds s.
Proof.
  unfold sweepAfter, promiseAllAfter, sweepCallbacks.
  rewrite app_nil_r, length_map.
  destruct (takeTurns_spawn env (sweepGroups s) [] None s) as (Hs & Hb & Ht).
  { intros k g b Hin Hbg. apply (selected_action s).
    by apply (elem_of_sweepGroup s k g b). }
  simpl in Hs, Hb, Ht. split_and!; [|done..].
  unfold callsSince. by rewrite Ht, drop_app_length.
Qed.

(** C3.  The sweep selects its Builds in ascending creation order, and in
    every state it passes through, whatever the order in which the loops
    of the applications go on: of two selected Builds of one application,
    the poll of the one that comes later in the selection has started only
    if the earlier one has been polled and advanced.  The loops of the
    applications run side by side: once they are started, the status query
    of the first Build of every application has been sent and no Build has
    been advanced.  The state in which [updateRunningBuildsStatus] leaves
    the system is one of the states so passed through.  (Each action has
    one "build docker" step and Builds do not share actions.) *)
Theorem reconciliation_is_sequential_per_application env s :
  oneDockerStepPerAction s → actionsNotShared s →
  StronglySorted (keyLe Build.createdAt) (selectedBuilds s)
  ∧ (∀ turns l1 b1 l2 b2 l3,
       selectedBuilds s = l1 ++ b1 :: l2 ++ b2 :: l3 →
       Build.appId b1 = Build.appId b2 →
       pollStarted s (sweepAfter env turns s) b2 →
       advanced env s (sweepAfter env turns s) b1)
  ∧ (callsSince s (sweepAfter env [] s)
       = ((λ b, EvGetStatus (Build.id b) (Build.containerStatusQuery b))
          <$> omap (λ entry, head entry.2) (sweepGroups s))
     ∧ steps (sweepAfter env [] s) = steps s
     ∧ builds (sweepAfter env [] s) = builds s)
  ∧ (∃ more,
       (updateRunningBuildsStatus env s).2 = sweepAfter env (schedule env ++ more) s).
Proof.
  intros Hone Hns. split_and!.
  - apply StronglySorted_runningBuildsAt.
  - intros turns l1 b1 l2 b2 l3. by apply sweep_sequential.
  - apply sweep_start.
  - apply sweep_start.
  - apply sweep_start.
  - rewrite updateRunningBuildsStatus_eval.
    destruct (promiseAll_turns (schedule env) (sweepCallbacks env s) s) as (more & ->).
    by exists more.
Qed.

Lemma reconciliation_is_sequential_per_application_witness :
  oneDockerStepPerAction Sweeps.state
  ∧ actionsNotShared Sweeps.state
  ∧ StronglySorted (keyLe Build.createdAt) (selectedBuilds Sweeps.state)
  ∧ (∀ turns l1 b1 l2 b2 l3,
       selectedBuilds Sweeps.state = l1 ++ b1 :: l2 ++ b2 :: l3 →
       Build.appId b1 = Build.appId b2 →
       pollStarted Sweeps.state (sweepAfter Sweeps.envCalm turns Sweeps.state) b2 →
       advanced Sweeps.envCalm Sweeps.state
         (sweepAfter Sweeps.envCalm turns Sweeps.state) b1)
  ∧ (callsSince Sweeps.state (sweepAfter Sweeps.envCalm [] Sweeps.state)
       = ((λ b, EvGetStatus (Build.id b) (Build.containerStatusQuery b))
          <$> omap (λ entry, head entry.2) (sweepGroups Sweeps.state))
     ∧ steps (sweepAfter Sweeps.envCalm [] Sweeps.state) = steps Sweeps.state
     ∧ builds (sweepAfter Sweeps.envCalm [] Sweeps.state) = builds Sweeps.state)
  ∧ (∃ more,
       (updateRunningBuildsStatus Sweeps.envCalm Sweeps.state).2
       = sweepAfter Sweeps.envCalm (schedule Sweeps.envCalm ++ more) Sweeps.state).
Proof.
  split; [exact Sweeps_oneDockerStepPerAction|].
  split; [exact Sweeps_actionsNotShared|].
  exact (reconciliation_is_sequential_per_application
           Sweeps.envCalm Sweeps.state
           Sweeps_oneDockerStepPerAction Sweeps_actionsNotShared).
Defined.

(** In the sweep over two applications, once the loops are started the
    status queries of the first Builds of both applications have been sent;
    and when the loop of the second application goes on first, its Build is
    deployed before the second Build of the first application is polled. *)
Lemma sweep_over_two_applications :
  callsSince Sweeps.state (sweepAfter Sweeps.envCalm [] Sweeps.state)
    = [EvGetStatus "b1" (Some "unreachable"); EvGetStatus "b4" (Some "built")]
  ∧ callsSince Sweeps.state (updateRunningBuildsStatus Sweeps.envCalm Sweeps.state).2
    = [EvGetStatus "b1" (Some "unreachable"); EvGetStatus "b4" (Some "built");
       EvAutoDeployToSandbox "b4"; EvGetStatus "b2" (Some "built");
       EvAutoDeployToSandbox "b2"; EvGetStatus "b3" (Some "pending")].
Proof. split; vm_compute; reflexivity. Qed.


(** ** External calls made by each stage *)

Lemma respects_bind_deref (T : relation State) `{!PreOrder T} {A B} what
    (x : option A) (k : A → M B) :
  (∀ a, x = Some a → respects T (k a)) → respects T (deref what x ≫= k).
Proof.
  intros Hk. destruct x as [a|]; simpl.
  - intros s. apply (Hk a eq_refl).
  - intros s. reflexivity.
Qed.

Lemma emitsOnly_silent P f :
  (∀ s, trace (f s) = trace s) → respects (emitsOnly P) (modify f).
Proof. intros H s. exists []. simpl. by rewrite H, app_nil_r. Qed.

Lemma emitsOnly_emit (P : Event → Prop) e : P e → respects (emitsOnly P) (emit e).
Proof. intros H s. exists [e]. split; [done|]. by apply Forall_singleton. Qed.

Lemma emitsOnly_beginStep P actionId name message :
  respects (emitsOnly P) (beginStep actionId name message).
Proof.
  unfold beginStep. apply respects_bind; [typeclasses eauto|respects_step|].
  intros n. case_decide; [|respects_step].
  apply respects_bind; [typeclasses eauto|respects_step|]. intros i.
  apply respects_bind; [typeclasses eauto|by apply emitsOnly_silent|]. intros _.
  respects_step.
Qed.

Lemma emitsOnly_log P step level message meta :
  respects (emitsOnly P) (log step level message meta).
Proof. by apply emitsOnly_silent. Qed.

Lemma emitsOnly_logInfo P step message meta :
  respects (emitsOnly P) (logInfo step message meta).
Proof. by apply emitsOnly_silent. Qed.

Lemma emitsOnly_complete P step status : respects (emitsOnly P) (complete step status).
Proof.
  unfold complete. apply respects_bind; [typeclasses eauto|respects_step|].
  intros [row|]; [|respects_step].
  case_decide; [|respects_step].
  apply respects_bind; [typeclasses eauto|respects_step|]. intros now.
  by apply emitsOnly_silent.
Qed.

Lemma emitsOnly_prismaBuildUpdate P id f :
  respects (emitsOnly P) (prismaBuildUpdate id f).
Proof.
  unfold prismaBuildUpdate.
  apply respects_bind; [typeclasses eauto|respects_step|].
  intros [row|]; [by apply emitsOnly_silent|respects_step].
Qed.

Lemma emitsOnly_diskPut (P : Event → Prop) env path content :
  P (EvDiskPut path) → respects (emitsOnly P) (diskPut env path content).
Proof.
  intros HP. unfold diskPut.
  apply respects_bind; [typeclasses eauto|by apply emitsOnly_emit|intros _].
  apply respects_bind; [typeclasses eauto|respects_step|intros _].
  by apply emitsOnly_silent.
Qed.

Lemma emitsOnly_run P {A} actionId name message (work : ActionStep.t → M A) isFinalStep :
  (∀ step, respects (emitsOnly P) (work step)) →
  respects (emitsOnly P) (run actionId name message work isFinalStep).
Proof.
  intros Hw. apply respects_run; [typeclasses eauto| |done| |].
  - apply emitsOnly_beginStep.
  - intros. apply emitsOnly_logInfo.
  - intros. apply emitsOnly_complete.
Qed.

#[export] Hint Resolve emitsOnly_beginStep emitsOnly_log emitsOnly_logInfo
  emitsOnly_complete emitsOnly_prismaBuildUpdate : respects.

Lemma emitsOnly_save (P : Event → Prop) env build modules :
  (∀ path, P (EvDiskPut path)) →
  respects (emitsOnly P) (save env build modules).
Proof.
  intros HP. apply respects_save; [typeclasses eauto|]. intros path content.
  by apply emitsOnly_diskPut.
Qed.

Lemma emitsOnly_saveToGitHub env build modules :
  respects (emitsOnly (generationCall build)) (saveToGitHub env build modules).
Proof.
  unfold saveToGitHub.
  apply respects_bind_deref; [typeclasses eauto|]. intros commit Hcommit.
  apply respects_bind_deref; [typeclasses eauto|]. intros app Happ.
  destruct (App.githubSyncEnabled app) eqn:Hsync; [|respects_step].
  apply respects_bind; [typeclasses eauto| |intros _; respects_step].
  apply emitsOnly_run. intros step.
  apply respects_bind; [typeclasses eauto|apply emitsOnly_logInfo|]. intros _.
  apply respects_try_catch; [typeclasses eauto| |intros error].
  - apply respects_bind; [typeclasses eauto| |intros _].
    { apply emitsOnly_emit. simpl. split; [done|]. by exists app. }
    apply respects_bind; [typeclasses eauto|respects_step|intros prUrl].
    apply respects_bind; [typeclasses eauto|by apply emitsOnly_emit|intros _].
    respects_auto.
  - apply respects_bind; [typeclasses eauto|apply emitsOnly_logInfo|intros _].
    apply respects_bind; [typeclasses eauto|apply emitsOnly_logInfo|intros _].
    apply respects_bind; [typeclasses eauto|apply emitsOnly_complete|intros _].
    apply respects_bind; [typeclasses eauto|by apply emitsOnly_emit|intros _].
    respects_step.
Qed.

Lemma emitsOnly_generate env build :
  respects (emitsOnly (generationCall build)) (generate env build).
Proof.
  unfold generate. apply emitsOnly_run. intros step. unfold generateWork.
  apply respects_bind; [typeclasses eauto| |intros entities].
  { unfold getOrderedEntities. respects_auto. }
  apply respects_bind; [typeclasses eauto|respects_step|intros roles].
  apply respects_bind; [typeclasses eauto|respects_step|intros app].
  apply respects_bind; [typeclasses eauto|by apply emitsOnly_emit|intros _].
  apply respects_bind; [typeclasses eauto| |intros _].
  { apply respects_forOf; [typeclasses eauto|]. intros info. apply emitsOnly_log. }
  apply respects_bind; [typeclasses eauto|respects_step|intros modules].
  apply respects_bind; [typeclasses eauto|apply emitsOnly_logInfo|intros _].
  apply respects_bind; [typeclasses eauto| |intros _].
  { destruct (AMP_PROJECTS_PATH env); [|respects_step].
    apply respects_bind; [typeclasses eauto|by apply emitsOnly_emit|intros _].
    respects_step. }
  apply respects_bind; [typeclasses eauto|by apply emitsOnly_save|intros tarballURL].
  apply respects_bind; [typeclasses eauto|apply emitsOnly_saveToGitHub|intros _].
  respects_auto.
Qed.

Lemma emitsOnly_handleContainerBuilderResultTask env build step result :
  TaskRespects (emitsOnly imageBuildCall)
    (handleContainerBuilderResultTask env build step result).
Proof.
  unfold handleContainerBuilderResultTask.
  destruct (BuildResult.status result); [task_respects_auto| |task_respects_auto].
  apply TaskRespects_bind; [task_respects_step|intros _].
  apply TaskRespects_bind; [task_respects_step|intros _].
  apply TaskRespects_bind; [task_respects_step|intros _].
  destruct (canDeploy env); [|task_respects_step].
  apply TaskRespects_await.
  apply respects_bind; [typeclasses eauto| |intros _; respects_step].
  apply emitsOnly_emit. unfold imageBuildCall. simpl. tauto.
Qed.

Lemma emitsOnly_handleContainerBuilderResult env build step result :
  respects (emitsOnly imageBuildCall)
    (handleContainerBuilderResult env build step result).
Proof.
  apply respects_settle; [typeclasses eauto|].
  apply emitsOnly_handleContainerBuilderResultTask.
Qed.

Lemma emitsOnly_buildDockerImage env build tarballURL :
  respects (emitsOnly imageBuildCall) (buildDockerImage env build tarballURL).
Proof.
  unfold buildDockerImage.
  apply respects_bind; [typeclasses eauto| |intros _; respects_step].
  apply emitsOnly_run. intros step.
  apply respects_bind; [typeclasses eauto|apply emitsOnly_logInfo|intros _].
  apply respects_bind; [typeclasses eauto| |intros _].
  { apply emitsOnly_emit. unfold imageBuildCall. simpl. tauto. }
  apply respects_bind; [typeclasses eauto|respects_step|intros result].
  apply emitsOnly_handleContainerBuilderResult.
Qed.

Lemma emitsOnly_pollBuildTask env build :
  TaskRespects (emitsOnly imageBuildCall) (pollBuildTask env build).
Proof.
  unfold pollBuildTask.
  apply TaskRespects_bind; [task_respects_step|intros action].
  apply TaskRespects_tryCatch; [|intros error].
  - apply TaskRespects_bind; [|intros _].
    { apply TaskRespects_await, emitsOnly_emit. unfold imageBuildCall. simpl. tauto. }
    apply TaskRespects_bind; [task_respects_step|intros result].
    apply TaskRespects_bind; [task_respects_step|intros step].
    apply emitsOnly_handleContainerBuilderResultTask.
  - task_respects_auto.
Qed.

Lemma emitsOnly_updateRunningBuildsStatus env :
  respects (emitsOnly imageBuildCall) (updateRunningBuildsStatus env).
Proof.
  unfold updateRunningBuildsStatus.
  apply respects_bind; [typeclasses eauto|respects_step|intros now].
  apply respects_bind; [typeclasses eauto|respects_step|intros found].
  apply respects_promiseAll; [typeclasses eauto|].
  apply Forall_forall. intros m Hm.
  apply list_elem_of_In, in_map_iff in Hm as (entry & <- & _).
  apply TaskRespects_forOfTask. intros b. apply emitsOnly_pollBuildTask.
Qed.

(** ** The external calls of [create], stage by stage *)

(** ** Steps are never reopened by later stages *)

Lemma keepsStepsBelow_silent n f :
  (∀ s, steps (f s) = steps s) → respects (keepsStepsBelow n) (modify f).
Proof. intros H s Hn. simpl. by rewrite H. Qed.

Lemma keepsStepsBelow_emit n e : respects (keepsStepsBelow n) (emit e).
Proof. by apply keepsStepsBelow_silent. Qed.

Lemma keepsStepsBelow_diskPut n env path content :
  respects (keepsStepsBelow n) (diskPut env path content).
Proof.
  unfold diskPut.
  apply respects_bind; [typeclasses eauto|apply keepsStepsBelow_emit|intros _].
  apply respects_bind; [typeclasses eauto|respects_step|intros _].
  by apply keepsStepsBelow_silent.
Qed.

Lemma keepsStepsBelow_prismaBuildUpdate n id f :
  respects (keepsStepsBelow n) (prismaBuildUpdate id f).
Proof.
  unfold prismaBuildUpdate. apply respects_bind; [typeclasses eauto|respects_step|].
  intros [row|]; [by apply keepsStepsBelow_silent|respects_step].
Qed.

Lemma keepsStepsBelow_log n step level message meta :
  respects (keepsStepsBelow n) (log step level message meta).
Proof.
  intros s Hn. rewrite log_eval. simpl. rewrite length_alter. split; [done|].
  intros j Hj. rewrite list_lookup_alter. case_decide; [|done].
  subst j. by destruct (steps s !! ActionStep.id step).
Qed.

Lemma keepsStepsBelow_logInfo n step message meta :
  respects (keepsStepsBelow n) (logInfo step message meta).
Proof. apply keepsStepsBelow_log. Qed.

Lemma keepsStepsBelow_complete n step status :
  (n ≤ ActionStep.id step)%nat →
  respects (keepsStepsBelow n) (complete step status).
Proof.
  intros Hid s Hn. unfold complete. rewrite bind_gets.
  destruct (steps s !! ActionStep.id step) as [row|]; [|done].
  case_decide; [|done]. simpl. rewrite length_alter. split; [done|].
  intros j Hj. rewrite list_lookup_alter_ne; [done|lia].
Qed.

Lemma beginStep_eval actionId name message s :
  (actionId < actions s)%nat →
  beginStep actionId name message s =
    (Ok (toActionStep (length (steps s))
           (StepRow.mk actionId name message EnumActionStepStatus.Running None [])),
     set_steps (λ l, l ++ [StepRow.mk actionId name message
                             EnumActionStepStatus.Running None []]) s).
Proof.
  intros Ha. unfold beginStep. rewrite bind_gets. by rewrite decide_True.
Qed.

Lemma beginStep_missing actionId name message s :
  ¬ (actionId < actions s)%nat →
  beginStep actionId name message s = (Throw (ActionNotFound actionId), s).
Proof.
  intros Ha. unfold beginStep. rewrite bind_gets. by rewrite decide_False.
Qed.

Lemma keepsStepsBelow_beginStep n actionId name message :
  respects (keepsStepsBelow n) (beginStep actionId name message).
Proof.
  intros s Hn. destruct (decide (actionId < actions s)%nat) as [Ha|Ha].
  - rewrite beginStep_eval by done. simpl. rewrite length_app. split; [lia|].
    intros j Hj. rewrite lookup_app_l; [done|lia].
  - by rewrite beginStep_missing.
Qed.

#[export] Hint Resolve keepsStepsBelow_emit keepsStepsBelow_diskPut
  keepsStepsBelow_prismaBuildUpdate keepsStepsBelow_log keepsStepsBelow_logInfo
  keepsStepsBelow_beginStep : respects.

(** The step [run] creates lies above every row that existed before, so
    completing it leaves those rows alone. *)
Lemma keepsStepsBelow_run n {A} actionId name message
    (work : ActionStep.t → M A) isFinalStep :
  (∀ step, (n ≤ ActionStep.id step)%nat → respects (keepsStepsBelow n) (work step)) →
  respects (keepsStepsBelow n) (run actionId name message work isFinalStep).
Proof.
  intros Hw s Hn. unfold run.
  destruct (decide (actionId < actions s)%nat) as [Ha|Ha]; cycle 1.
  { rewrite (bind_throw _ _ _ _ _ (beginStep_missing _ _ _ _ Ha)). done. }
  rewrite (bind_ok _ _ _ _ _ (beginStep_eval _ _ _ _ Ha)).
  set (step := toActionStep _ _). set (s1 := set_steps _ s).
  assert (Hid : (n ≤ ActionStep.id step)%nat) by done.
  assert (H01 : keepsStepsBelow n s s1).
  { pose proof (keepsStepsBelow_beginStep n actionId name message s) as H.
    by rewrite beginStep_eval in H. }
  revert Hn. change (keepsStepsBelow n s
    (try_catch
       (result ← work step;
        row ← gets (λ s, steps s !! ActionStep.id step);
        _ ← match row with
            | Some r =>
                if negb isFinalStep
                   && bool_decide (StepRow.status r = EnumActionStepStatus.Running)
                then complete step EnumActionStepStatus.Success
                else mret tt
            | None => mret tt
            end;
        mret (Some result))
       (λ error,
        _ ← logInfo step (errorText error) [];
        _ ← complete step EnumActionStepStatus.Failed;
        if isFinalStep then throw error else mret None) s1).2).
  etrans; [exact H01|]. generalize s1. clear H01.
  change (respects (keepsStepsBelow n)
    (try_catch
       (result ← work step;
        row ← gets (λ s, steps s !! ActionStep.id step);
        _ ← match row with
            | Some r =>
                if negb isFinalStep
                   && bool_decide (StepRow.status r = EnumActionStepStatus.Running)
                then complete step EnumActionStepStatus.Success
                else mret tt
            | None => mret tt
            end;
        mret (Some result))
       (λ error,
        _ ← logInfo step (errorText error) [];
        _ ← complete step EnumActionStepStatus.Failed;
        if isFinalStep then throw error else mret None))).
  apply respects_try_catch; [typeclasses eauto| |intros error].
  - apply respects_bind; [typeclasses eauto|by apply Hw|intros result].
    apply respects_bind; [typeclasses eauto|respects_step|intros row].
    apply respects_bind; [typeclasses eauto| |intros _; respects_step].
    destruct row as [r|]; [|respects_step].
    destruct (negb isFinalStep && _); [by apply keepsStepsBelow_complete|respects_step].
  - apply respects_bind; [typeclasses eauto|apply keepsStepsBelow_logInfo|intros _].
    apply respects_bind; [typeclasses eauto|by apply keepsStepsBelow_complete|intros _].
    destruct isFinalStep; respects_step.
Qed.

Lemma keepsStepsBelow_save n env build modules :
  respects (keepsStepsBelow n) (save env build modules).
Proof.
  apply respects_save; [typeclasses eauto|]. intros path content.
  apply keepsStepsBelow_diskPut.
Qed.

Lemma keepsStepsBelow_saveToGitHub n env build modules :
  respects (keepsStepsBelow n) (saveToGitHub env build modules).
Proof.
  unfold saveToGitHub.
  apply respects_bind; [typeclasses eauto|respects_step|intros commit].
  apply respects_bind; [typeclasses eauto|respects_step|intros app].
  destruct (App.githubSyncEnabled app); [|respects_step].
  apply respects_bind; [typeclasses eauto| |intros _; respects_step].
  apply keepsStepsBelow_run. intros step Hid.
  apply respects_bind; [typeclasses eauto|apply keepsStepsBelow_logInfo|intros _].
  apply respects_try_catch; [typeclasses eauto| |intros error].
  - apply respects_bind; [typeclasses eauto|respects_step|intros _].
    apply respects_bind; [typeclasses eauto|respects_step|intros prUrl].
    apply respects_bind; [typeclasses eauto|respects_step|intros _].
    apply respects_bind; [typeclasses eauto|respects_step|intros _].
    apply respects_bind; [typeclasses eauto|respects_step|intros _].
    apply respects_bind; [typeclasses eauto|respects_step|intros _].
    by apply keepsStepsBelow_complete.
  - apply respects_bind; [typeclasses eauto|respects_step|intros _].
    apply respects_bind; [typeclasses eauto|respects_step|intros _].
    apply respects_bind; [typeclasses eauto|by apply keepsStepsBelow_complete|intros _].
    respects_auto.
Qed.

Lemma keepsStepsBelow_generateWork n env build step :
  respects (keepsStepsBelow n) (generateWork env build step).
Proof.
  unfold generateWork.
  apply respects_bind; [typeclasses eauto| |intros entities].
  { unfold getOrderedEntities. respects_auto. }
  apply respects_bind; [typeclasses eauto|respects_step|intros roles].
  apply respects_bind; [typeclasses eauto|respects_step|intros app].
  apply respects_bind; [typeclasses eauto|respects_step|intros _].
  apply respects_bind; [typeclasses eauto| |intros _].
  { apply respects_forOf; [typeclasses eauto|]. intros info.
    apply keepsStepsBelow_log. }
  apply respects_bind; [typeclasses eauto|respects_step|intros modules].
  apply respects_bind; [typeclasses eauto|respects_step|intros _].
  apply respects_bind; [typeclasses eauto| |intros _].
  { destruct (AMP_PROJECTS_PATH env); respects_auto. }
  apply respects_bind; [typeclasses eauto|apply keepsStepsBelow_save|intros tarballURL].
  apply respects_bind; [typeclasses eauto|apply keepsStepsBelow_saveToGitHub|intros _].
  respects_auto.
Qed.

Lemma keepsStepsBelow_handleContainerBuilderResult n env build step result :
  (n ≤ ActionStep.id step)%nat →
  respects (keepsStepsBelow n) (handleContainerBuilderResult env build step result).
Proof.
  intros Hid. apply respects_settle; [typeclasses eauto|].
  unfold handleContainerBuilderResultTask.
  destruct (BuildResult.status result).
  - task_respects_auto.
  - apply TaskRespects_bind; [task_respects_step|intros _].
    apply TaskRespects_bind;
      [by apply TaskRespects_await, keepsStepsBelow_complete|intros _].
    task_respects_auto.
  - apply TaskRespects_bind; [task_respects_step|intros _].
    by apply TaskRespects_await, keepsStepsBelow_complete.
Qed.

Lemma keepsStepsBelow_buildDockerImage n env build tarballURL :
  respects (keepsStepsBelow n) (buildDockerImage env build tarballURL).
Proof.
  unfold buildDockerImage.
  apply respects_bind; [typeclasses eauto| |intros _; respects_step].
  apply keepsStepsBelow_run. intros step Hid.
  apply respects_bind; [typeclasses eauto|respects_step|intros _].
  apply respects_bind; [typeclasses eauto|respects_step|intros _].
  apply respects_bind; [typeclasses eauto|respects_step|intros result].
  by apply keepsStepsBelow_handleContainerBuilderResult.
Qed.

(** ** A stage that is not final ends with its step in a terminal status *)

Lemma run_not_final_terminal {A} actionId name message (work : ActionStep.t → M A) s :
  (actionId < actions s)%nat →
  (∀ step, respects (keepsStepsBelow (S (length (steps s)))) (work step)) →
  ∃ result s' row,
    run actionId name message work false s = (Ok result, s')
    ∧ steps s' !! length (steps s) = Some row
    ∧ StepRow.actionId row = actionId
    ∧ StepRow.name row = name
    ∧ (StepRow.status row = EnumActionStepStatus.Success
       ∨ StepRow.status row = EnumActionStepStatus.Failed).
Proof.
  intros Ha Hw. unfold run.
  rewrite (bind_ok _ _ _ _ _ (beginStep_eval _ _ _ _ Ha)).
  set (row0 := StepRow.mk actionId name message EnumActionStepStatus.Running None []).
  set (step := toActionStep (length (steps s)) row0).
  set (s1 := set_steps _ s).
  assert (Hlen1 : (S (length (steps s)) ≤ length (steps s1))%nat).
  { simpl. rewrite length_app. simpl. lia. }
  assert (Hrow1 : steps s1 !! length (steps s) = Some row0).
  { simpl. by rewrite list_lookup_middle. }
  destruct (Hw step s1 Hlen1) as [Hlen2 Hcore].
  specialize (Hcore (length (steps s)) (Nat.lt_succ_diag_r _)).
  rewrite Hrow1 in Hcore. simpl in Hcore.
  unfold try_catch. rewrite bind_unfold.
  destruct (work step s1) as [[result|error] s2]; simpl in Hlen2, Hcore.
  - rewrite bind_gets.
    destruct (steps s2 !! length (steps s)) as [row2|] eqn:Hrow2; [|done].
    injection Hcore as Hact Hname Hstatus.
    change (ActionStep.id step) with (length (steps s)). rewrite Hrow2. simpl.
    rewrite bool_decide_eq_true_2 by done.
    erewrite bind_ok; [|by eapply complete_running].
    eexists _, _, _. split; [reflexivity|].
    split; [simpl; rewrite list_lookup_alter_eq, Hrow2; reflexivity|].
    simpl. split_and!; [done..|by left].
  - rewrite (bind_ok _ _ _ _ _ (logInfo_eval _ _ _ _)).
    destruct (steps s2 !! length (steps s)) as [row2|] eqn:Hrow2; [|done].
    injection Hcore as Hact Hname Hstatus.
    erewrite bind_ok; cycle 1.
    { eapply complete_running.
      - simpl. change (ActionStep.id step) with (length (steps s)).
        rewrite list_lookup_alter_eq, Hrow2. reflexivity.
      - done. }
    eexists _, _, _. split; [reflexivity|].
    split.
    { simpl. change (ActionStep.id step) with (length (steps s)).
      rewrite !list_lookup_alter_eq, Hrow2. reflexivity. }
    simpl. split_and!; [done..|by right].
Qed.

(** A stage run as final returns normally only if its work did. *)
Lemma run_final_ok {A} actionId name message (work : ActionStep.t → M A) s result s' :
  run actionId name message work true s = (Ok result, s') →
  ∃ step s1 r,
    beginStep actionId name message s = (Ok step, s1)
    ∧ work step s1 = (Ok r, s').
Proof.
  unfold run. rewrite bind_unfold.
  destruct (beginStep actionId name message s) as [[step|e] s1]; [|done].
  unfold try_catch. rewrite bind_unfold.
  destruct (work step s1) as [[r|error] s2] eqn:Hwork.
  - rewrite bind_gets. simpl.
    destruct (steps s2 !! ActionStep.id step); simpl; intros [= <- <-];
      by exists step, s1, r.
  - rewrite (bind_ok _ _ _ _ _ (logInfo_eval _ _ _ _)). rewrite bind_unfold.
    destruct (complete step EnumActionStepStatus.Failed _) as [[[]|e] s3]; done.
Qed.

Lemma buildDockerImage_submits env build tarballURL s s' :
  buildDockerImage env build tarballURL s = (Ok tt, s') →
  ∃ request, EvContainerBuild (Build.id build) request ∈ trace s'.
Proof.
  unfold buildDockerImage. rewrite bind_unfold.
  destruct (run _ _ _ _ true s) as [[result|e] s2] eqn:Hrun; [|done].
  intros [= <-].
  apply run_final_ok in Hrun as (step & s1 & r & _ & Hwork).
  rewrite (bind_ok _ _ _ _ _ (logInfo_eval _ _ _ _)) in Hwork.
  rewrite bind_emit in Hwork. rewrite bind_liftResult in Hwork.
  destruct (containerBuild env _) as [res|e]; [|done].
  eexists.
  match type of Hwork with
  | handleContainerBuilderResult _ _ _ _ ?s0 = _ =>
      destruct (emitsOnly_handleContainerBuilderResult env build step res s0)
        as (evs & Htr & _)
  end.
  rewrite Hwork in Htr. simpl in Htr. rewrite Htr.
  apply elem_of_app. left. apply elem_of_app. right. by apply list_elem_of_singleton.
Qed.

Lemma generate_terminal env build s :
  (Build.actionId build < actions s)%nat →
  ∃ tarballURL s' row,
    generate env build s = (Ok tarballURL, s')
    ∧ steps s' !! length (steps s) = Some row
    ∧ StepRow.actionId row = Build.actionId build
    ∧ StepRow.name row = GENERATE_STEP_NAME
    ∧ (StepRow.status row = EnumActionStepStatus.Success
       ∨ StepRow.status row = EnumActionStepStatus.Failed).
Proof.
  intros Ha. apply run_not_final_terminal; [done|].
  intros step. apply keepsStepsBelow_generateWork.
Qed.

(** C2.  [create] does not return before generation: when it returns the
    Build, the generation stage has run to its end inside the call, so the
    Build's action holds the generation step in a terminal status, and,
    unless [skipPublish] is set, the image build has been submitted to the
    container builder as well. *)
Theorem create_returns_after_generation env args skipPublish s build s' :
  create env args skipPublish s = (Ok build, s') →
  (∃ i step,
     stepsOf s' (Build.actionId build) !! i = Some step
     ∧ ActionStep.name step = GENERATE_STEP_NAME
     ∧ (ActionStep.status step = EnumActionStepStatus.Success
        ∨ ActionStep.status step = EnumActionStepStatus.Failed))
  ∧ (skipPublish = false →
     ∃ request, EvContainerBuild (Build.id build) request ∈ trace s').
Proof.
  unfold create. rewrite bind_liftResult.
  destruct (getLatestVersions env (CreateBuildArgs.appId args)) as [versions|e]; [|done].
  unfold newDate. rewrite bind_gets.
  rewrite (bind_ok _ _ _ _ _ (createInitialStepData_eval _ _ _)).
  destruct (findApp env (CreateBuildArgs.appId args)) as [app|] eqn:Happ; cycle 1.
  { unfold prismaBuildCreate. by rewrite Happ. }
  destruct (findCommit env (CreateBuildArgs.commitId args)) as [commit|] eqn:Hcommit;
    cycle 1.
  { unfold prismaBuildCreate. by rewrite Happ, Hcommit. }
  erewrite bind_ok; [|by apply prismaBuildCreate_eval].
  set (created := toBuild _ _ (Some app) (Some commit) None).
  rewrite bind_emit. set (s1 := add_event _ _).
  destruct (generate_terminal env created s1) as (url & s2 & row & Hgen & Hrow & Hact & Hname & Hst).
  { simpl. lia. }
  rewrite (bind_ok _ _ _ _ _ Hgen).
  set (i := length (steps s1)) in *.
  assert (Hfinal : ∀ s3 e, keepsStepsBelow (S i) s2 s3 →
            ∃ j step,
              stepsOf (add_event e s3) (Build.actionId created) !! j = Some step
              ∧ ActionStep.name step = GENERATE_STEP_NAME
              ∧ (ActionStep.status step = EnumActionStepStatus.Success
                 ∨ ActionStep.status step = EnumActionStepStatus.Failed)).
  { intros s3 e Hkeep. destruct Hkeep as [Hlen Hcore].
    { apply lookup_lt_Some in Hrow. lia. }
    specialize (Hcore i (Nat.lt_succ_diag_r _)). rewrite Hrow in Hcore.
    destruct (steps s3 !! i) as [row3|] eqn:Hrow3; [|done].
    injection Hcore as Hact3 Hname3 Hst3.
    assert (Hin : toActionStep i row3
                    ∈ stepsOf (add_event e s3) (Build.actionId created)).
    { apply elem_of_stepsOf. exists row3. split_and!; [done..|].
      simpl. rewrite Hact3, Hact. reflexivity. }
    apply list_elem_of_lookup in Hin as [j Hj]. exists j, (toActionStep i row3).
    split; [done|]. simpl. split; [congruence|]. by rewrite Hst3. }
  destruct skipPublish; cbn [negb].
  - rewrite bind_ret, bind_emit. intros [= <- <-]. split; [|done].
    apply Hfinal. reflexivity.
  - rewrite bind_unfold.
    destruct (buildDockerImage env created url s2) as [[[]|e] s3] eqn:Hd; [|done].
    rewrite bind_emit. intros [= <- <-]. split.
    + apply Hfinal.
      pose proof (keepsStepsBelow_buildDockerImage (S i) env created url s2) as Hk.
      by rewrite Hd in Hk.
    + intros _. destruct (buildDockerImage_submits _ _ _ _ _ Hd) as (request & Hreq).
      exists request. simpl. apply elem_of_app. by left.
Qed.

(** ** The two runs, evaluated *)

Lemma create_eval :
  create Runs.envFailing Scenario.args false Scenario.empty
    = (Ok Runs.createdBuild, Runs.createdState).
Proof. vm_compute. reflexivity. Qed.

Lemma created_eval : Runs.created = (Ok Runs.createdBuild, Runs.createdState).
Proof. unfold Runs.created. exact create_eval. Qed.

Lemma swept_eval : Runs.swept = (Ok tt, Runs.sweptState).
Proof. vm_compute. reflexivity. Qed.

(** C1, as stated, fails: the application pushes to GitHub, the image
    build is accepted and the first poll finds it failed; the Build's
    "build docker" step is Failed and the pull request had been created
    when the Build was generated. *)
Lemma publisher_called_though_image_build_failed :
  Runs.created.1 = Ok Runs.createdBuild
  ∧ Runs.swept.1 = Ok tt
  ∧ ¬ publisherNeverCalledForFailedImageBuild Runs.swept.2.
Proof.
  rewrite created_eval, swept_eval. cbn [fst snd].
  split; [reflexivity|]. split; [reflexivity|].
  intros H.
  assert (Hb : builds Runs.sweptState !! "0" = Some Runs.createdRow)
    by (vm_compute; reflexivity).
  assert (Hstep : ∃ i step,
            stepsOf Runs.sweptState (BuildRow.actionId Runs.createdRow) !! i = Some step
            ∧ ActionStep.name step = BUILD_DOCKER_IMAGE_STEP_NAME
            ∧ ActionStep.status step = EnumActionStepStatus.Failed).
  { exists 3%nat. eexists. split; [reflexivity|]. split; reflexivity. }
  exact (H "0" Runs.createdRow Hb Hstep 4%nat _ eq_refl).
Qed.

(** C2, as stated, fails: when [create] returns the Build of the first
    run, the code generator has been called and the generation step is
    already in Success status. *)
Lemma create_returns_with_generation_completed :
  ¬ returnsBeforeGeneration Runs.envFailing Scenario.args false Scenario.empty.
Proof.
  intros H.
  destruct (H Runs.createdBuild Runs.createdState create_eval) as [Hstep Hcall].
  exact (Hcall 1%nat _ eq_refl).
Qed.

(** ** The theorems at work on the two runs *)

Lemma create_returns_after_generation_witness :
  create Runs.envFailing Scenario.args false Scenario.empty
    = (Ok Runs.createdBuild, Runs.createdState)
  ∧ ∃ request,
      EvContainerBuild (Build.id Runs.createdBuild) request ∈ trace Runs.createdState.
Proof.
  split; [exact create_eval|].
  exact (proj2 (create_returns_after_generation Runs.envFailing Scenario.args false
                  Scenario.empty Runs.createdBuild Runs.createdState create_eval)
               eq_refl).
Defined.

Lemma calcBuildStatus_by_step_statuses_witness :
  builds Runs.createdState !! "0" = Some Runs.createdRow
  ∧ ∃ status, calcBuildStatus "0" Runs.createdState = (Ok status, Runs.createdState).
Proof.
  assert (H : builds Runs.createdState !! "0" = Some Runs.createdRow)
    by (vm_compute; reflexivity).
  split; [exact H|].
  destruct (calcBuildStatus_by_step_statuses Runs.createdState "0" Runs.createdRow H)
    as (status & Heq & _).
  exists status. exact Heq.
Defined.

Lemma calcBuildStatus_unknown_build_throws_witness :
  builds Scenario.empty !! "0" = None
  ∧ calcBuildStatus "0" Scenario.empty = (Throw (TypeError "action"), Scenario.empty).
Proof.
  assert (H : builds Scenario.empty !! "0" = None) by (vm_compute; reflexivity).
  split; [exact H|].
  exact (proj1 (calcBuildStatus_unknown_build_throws Scenario.empty "0" H)).
Defined.

Lemma download_outcomes_witness :
  builds Runs.createdState !! "0" = Some Runs.createdRow
  ∧ download Runs.envFailing "0" Runs.createdState
    = (Ok [Byte.x50; Byte.x4b], Runs.createdState).
Proof.
  assert (H : builds Runs.createdState !! "0" = Some Runs.createdRow)
    by (vm_compute; reflexivity).
  split; [exact H|].
  destruct (download_outcomes Runs.envFailing Runs.createdState "0" Runs.createdRow H)
    as (_ & _ & _ & _ & Hok & _).
  eapply Hok.
  - reflexivity.
  - reflexivity.
  - vm_compute. reflexivity.
Defined.

Lemma initial_step_alone_gives_completed_witness :
  stepsBelongToActions Scenario.empty
  ∧ ∃ build s',
      prismaBuildCreate Runs.envFailing Scenario.args "23456789" 1000 ["version1"]
        (StepCreateInput.mk "Adding task to queue" "ADD_TO_QUEUE"
           EnumActionStepStatus.Success (Some 1000%Z)
           [ ActionLog.mk (Some EnumActionLogLevel.Info)
               "create build generation task" [];
             ActionLog.mk (Some EnumActionLogLevel.Info) "Build Version: 23456789" [];
             ActionLog.mk (Some EnumActionLogLevel.Info) "Build message: msg" [] ])
        Scenario.empty = (Ok build, s')
      ∧ calcBuildStatus (Build.id build) s' = (Ok EnumBuildStatus.Completed, s').
Proof.
  assert (Hwf : stepsBelongToActions Scenario.empty) by constructor.
  split; [exact Hwf|].
  destruct (initial_step_alone_gives_completed Runs.envFailing Scenario.args
              "23456789" 1000 ["version1"] Scenario.empty
              (Scenario.app true) Scenario.commit Hwf eq_refl eq_refl)
    as (init & build & s' & Hinit & _ & _ & _ & Hcreate & _ & _ & Hstatus).
  exists build, s'. split; [|exact Hstatus].
  rewrite createInitialStepData_eval in Hinit. injection Hinit as <-.
  exact Hcreate.
Defined.

Lemma handleContainerBuilderResult_cases_witness :
  steps Runs.later !! ActionStep.id Runs.laterDockerStep = Some Runs.laterDockerRow
  ∧ StepRow.status Runs.laterDockerRow = EnumActionStepStatus.Running
  ∧ builds Runs.later !! Build.id Runs.laterBuild = Some Runs.createdRow
  ∧ ∃ outcome s',
      handleContainerBuilderResult Runs.envFailing Runs.laterBuild
        Runs.laterDockerStep Scenario.completed Runs.later = (outcome, s')
      ∧ StepRow.status <$> steps s' !! ActionStep.id Runs.laterDockerStep
        = Some EnumActionStepStatus.Success
      ∧ builds s' !! Build.id Runs.laterBuild
        = Some (BuildRow.set_images ["img:v1"] Runs.createdRow).
Proof.
  assert (Hrow : steps Runs.later !! ActionStep.id Runs.laterDockerStep
                 = Some Runs.laterDockerRow) by (vm_compute; reflexivity).
  assert (Hr : builds Runs.later !! Build.id Runs.laterBuild = Some Runs.createdRow)
    by (vm_compute; reflexivity).
  split; [exact Hrow|]. split; [reflexivity|]. split; [exact Hr|].
  destruct (handleContainerBuilderResult_cases Runs.envFailing Runs.laterBuild
              Runs.laterDockerStep Scenario.completed Runs.later
              Runs.laterDockerRow Runs.createdRow Hrow eq_refl Hr)
    as (outcome & s' & Heq & Hsucc & Himg & _).
  exists outcome, s'. split; [exact Heq|]. split; [exact Hsucc|exact Himg].
Defined.

(** * Further properties of the service *)

(** ** The query of the sweep *)

Lemma NoDup_runningBuildsAt_ids t s : NoDup (Build.id <$> runningBuildsAt t s).
Proof.
  unfold runningBuildsAt. rewrite orderBy_Permutation.
  set (l := map_to_list (builds s)).
  assert (Hl : NoDup l.*1) by apply NoDup_fst_map_to_list.
  clearbody l. induction l as [|[k r] l IH]; simpl; [constructor|].
  apply NoDup_cons in Hl as [Hk Hl].
  destruct (dueForPoll _ _); [|by apply IH].
  simpl. apply NoDup_cons. split; [|by apply IH].
  intros Hin. apply Hk.
  apply list_elem_of_fmap in Hin as (b & Hb & Hin).
  apply list_elem_of_In, filter_In in Hin as [Hin _].
  apply in_map_iff in Hin as ([k' r'] & <- & Hin). simpl in Hb. subst k'.
  apply list_elem_of_fmap. exists (k, r'). split; [done|]. by apply list_elem_of_In.
Qed.

(** The sweep selects exactly the Builds that were last polled more than
    ten seconds ago and have a running "build docker" step; it reads each
    of them once, with its action and steps, oldest first.  A Build that
    was never submitted (no poll time) is not selected. *)
Theorem sweep_selects_due_builds s :
  (∀ b, b ∈ selectedBuilds s ↔
     ∃ id r,
       builds s !! id = Some r
       ∧ b = withAction s id r
       ∧ (∃ t, BuildRow.containerStatusUpdatedAt r = Some t
               ∧ (t < clock s - 10 * 1000)%Z)
       ∧ ∃ step, step ∈ stepsOf s (BuildRow.actionId r)
                 ∧ ActionStep.name step = BUILD_DOCKER_IMAGE_STEP_NAME
                 ∧ ActionStep.status step = EnumActionStepStatus.Running)
  ∧ NoDup (Build.id <$> selectedBuilds s)
  ∧ StronglySorted (keyLe Build.createdAt) (selectedBuilds s).
Proof.
  split_and!.
  - intros b. unfold selectedBuilds. rewrite elem_of_runningBuildsAt.
    split.
    + intros (id & r & Hr & -> & Hdue). exists id, r. split_and!; [done..| |].
      * unfold dueForPoll in Hdue. apply andb_true_iff in Hdue as [Ht _].
        simpl in Ht. destruct (BuildRow.containerStatusUpdatedAt r) as [t|]; [|done].
        exists t. split; [done|]. apply Z.ltb_lt in Ht.
        unfold CONTAINER_STATUS_UPDATE_INTERVAL_SEC in Ht. lia.
      * unfold dueForPoll in Hdue. apply andb_true_iff in Hdue as [_ Hrun].
        simpl in Hrun. apply existsb_exists in Hrun as (st & Hin & Hst).
        unfold isRunningDockerStep in Hst. apply andb_true_iff in Hst as [H1 H2].
        exists st. split_and!.
        -- by apply list_elem_of_In.
        -- by apply String.eqb_eq.
        -- by apply bool_decide_eq_true in H1.
    + intros (id & r & Hr & -> & (t & Ht & Hlt) & (st & Hin & Hn & Hst)).
      exists id, r. split_and!; [done..|].
      unfold dueForPoll. simpl. rewrite Ht. apply andb_true_iff. split.
      * apply Z.ltb_lt. unfold CONTAINER_STATUS_UPDATE_INTERVAL_SEC. lia.
      * apply existsb_exists. exists st. split; [by apply list_elem_of_In|].
        unfold isRunningDockerStep. apply andb_true_iff. split.
        -- by apply bool_decide_eq_true.
        -- by apply String.eqb_eq.
  - apply NoDup_runningBuildsAt_ids.
  - apply StronglySorted_runningBuildsAt.
Qed.

(** ** Download of an unknown Build *)

(** For an identifier that matches no Build, [download] throws
    BuildNotFoundError before looking at any step or file, and changes
    nothing. *)
Theorem download_unknown_build env s id :
  builds s !! id = None →
  download env id s = (Throw (BuildNotFoundError id), s).
Proof. intros Hr. by rewrite download_eval, Hr. Qed.

(** ** What the stages leave alone *)

#[global] Instance buildsKept_preorder id : PreOrder (buildsKept id).
Proof.
  split.
  - intros s k. done.
  - intros s1 s2 s3 H1 H2 k. destruct (H1 k) as [A1 B1]. destruct (H2 k) as [A2 B2].
    split; [intros Hk; by rewrite A2, A1|by rewrite B2, B1].
Qed.

#[global] Instance addsSteps_preorder P : PreOrder (addsSteps P).
Proof.
  split.
  - intros s i row Hrow. left. by exists row.
  - intros s1 s2 s3 H1 H2 i row3 Hrow3.
    destruct (H2 i row3 Hrow3) as [(row2 & Hrow2 & Ha & Hn)|HP]; [|by right].
    destruct (H1 i row2 Hrow2) as [(row1 & Hrow1 & Ha1 & Hn1)|HP].
    + left. exists row1. split_and!; congruence.
    + right. by rewrite <- Ha, <- Hn.
Qed.

Lemma buildsKept_silent id f :
  (∀ s, builds (f s) = builds s) → respects (buildsKept id) (modify f).
Proof. intros H s k. simpl. by rewrite H. Qed.

Lemma buildsKept_beginStep id actionId name message :
  respects (buildsKept id) (beginStep actionId name message).
Proof.
  intros s. destruct (decide (actionId < actions s)%nat) as [Ha|Ha].
  - rewrite beginStep_eval by done. done.
  - rewrite beginStep_missing by done. done.
Qed.

Lemma buildsKept_log id step level message meta :
  respects (buildsKept id) (log step level message meta).
Proof. by apply buildsKept_silent. Qed.

Lemma buildsKept_complete id step status :
  respects (buildsKept id) (complete step status).
Proof.
  intros s. unfold complete. rewrite bind_gets.
  destruct (steps s !! ActionStep.id step) as [row|]; [|done].
  case_decide; done.
Qed.

Lemma buildsKept_prismaBuildUpdate id f :
  (∀ r, buildCore (f r) = buildCore r) →
  respects (buildsKept id) (prismaBuildUpdate id f).
Proof.
  intros Hf s. unfold prismaBuildUpdate. rewrite bind_gets.
  destruct (builds s !! id) as [row|] eqn:Hrow; [|done].
  intros k. simpl. split.
  - intros Hk. by rewrite lookup_alter_ne.
  - rewrite lookup_alter. case_decide; [|done]. subst k.
    rewrite Hrow. simpl. by rewrite Hf.
Qed.

Lemma addsSteps_silent P f :
  (∀ s, steps (f s) = steps s) → respects (addsSteps P) (modify f).
Proof. intros H s i row Hrow. simpl in Hrow. rewrite H in Hrow. left. by exists row. Qed.

Lemma addsSteps_alter P f i s :
  (∀ r, StepRow.actionId (f r) = StepRow.actionId r
        ∧ StepRow.name (f r) = StepRow.name r) →
  addsSteps P s (set_steps (alter f i) s).
Proof.
  intros Hf j row' Hrow'. simpl in Hrow'. left.
  rewrite list_lookup_alter in Hrow'. case_decide.
  - subst j. destruct (steps s !! i) as [row|] eqn:Hrow; [|done].
    injection Hrow' as <-. exists row. destruct (Hf row). done.
  - by exists row'.
Qed.

Lemma addsSteps_log P step level message meta :
  respects (addsSteps P) (log step level message meta).
Proof. intros s. rewrite log_eval. by apply addsSteps_alter. Qed.

Lemma addsSteps_complete P step status :
  respects (addsSteps P) (complete step status).
Proof.
  intros s. unfold complete. rewrite bind_gets.
  destruct (steps s !! ActionStep.id step) as [row|]; [|reflexivity].
  case_decide; [|reflexivity]. by apply addsSteps_alter.
Qed.

Lemma addsSteps_beginStep (P : nat → string → Prop) actionId name message :
  P actionId name → respects (addsSteps P) (beginStep actionId name message).
Proof.
  intros HP s. destruct (decide (actionId < actions s)%nat) as [Ha|Ha].
  - rewrite beginStep_eval by done. intros i row' Hrow'. simpl in Hrow'.
    apply lookup_app_Some in Hrow' as [Hrow'|[_ Hrow']].
    + left. by exists row'.
    + right. destruct (i - length (steps s))%nat; [|done].
      by injection Hrow' as <-.
  - rewrite beginStep_missing by done. reflexivity.
Qed.

(** A relation that creating a step (for an allowed action and name),
    logging, completing a step, updating the row of Build [id], writing to
    the disk and recording a call all respect is respected by the stages
    built from them. *)
Section Stages.

Context (T : relation State) `{!PreOrder T}.
Variables (allowed : nat → string → Prop) (id : string).

Hypothesis T_beginStep : ∀ actionId name message,
  allowed actionId name → respects T (beginStep actionId name message).
Hypothesis T_log : ∀ step level message meta, respects T (log step level message meta).
Hypothesis T_complete : ∀ step status, respects T (complete step status).
Hypothesis T_update : ∀ f, (∀ r, buildCore (f r) = buildCore r) →
  respects T (prismaBuildUpdate id f).
Hypothesis T_diskPut : ∀ f, respects T (modify (set_disk f)).
Hypothesis T_emit : ∀ e, respects T (emit e).

Lemma stage_logInfo step message meta : respects T (logInfo step message meta).
Proof. apply T_log. Qed.

Lemma stage_run {A} actionId name message (work : ActionStep.t → M A) isFinalStep :
  allowed actionId name →
  (∀ step, respects T (work step)) →
  respects T (run actionId name message work isFinalStep).
Proof.
  intros Ha Hw. apply respects_run; [done|by apply T_beginStep|done| |done].
  intros. apply stage_logInfo.
Qed.

Lemma stage_save env build modules : respects T (save env build modules).
Proof.
  apply respects_save; [done|]. intros path content. unfold diskPut.
  apply respects_bind; [done|apply T_emit|intros _].
  apply respects_bind; [done|by apply respects_liftResult|intros _].
  apply T_diskPut.
Qed.

Lemma stage_saveToGitHub env build modules :
  allowed (Build.actionId build) PUSH_TO_GITHUB_STEP_NAME →
  respects T (saveToGitHub env build modules).
Proof.
  intros Ha. unfold saveToGitHub.
  apply respects_bind; [done|by apply respects_deref|intros commit].
  apply respects_bind; [done|by apply respects_deref|intros app].
  destruct (App.githubSyncEnabled app); [|by apply respects_ret].
  apply respects_bind; [done| |intros _; by apply respects_ret].
  apply stage_run; [done|]. intros step.
  apply respects_bind; [done|apply stage_logInfo|intros _].
  apply respects_try_catch; [done| |intros error].
  - apply respects_bind; [done|apply T_emit|intros _].
    apply respects_bind; [done|by apply respects_liftResult|intros prUrl].
    apply respects_bind; [done|apply T_emit|intros _].
    apply respects_bind; [done|by apply respects_liftResult|intros _].
    apply respects_bind; [done|apply stage_logInfo|intros _].
    apply respects_bind; [done|apply stage_logInfo|intros _].
    apply T_complete.
  - apply respects_bind; [done|apply stage_logInfo|intros _].
    apply respects_bind; [done|apply stage_logInfo|intros _].
    apply respects_bind; [done|apply T_complete|intros _].
    apply respects_bind; [done|apply T_emit|intros _].
    by apply respects_liftResult.
Qed.

Lemma stage_generateWork env build step :
  allowed (Build.actionId build) PUSH_TO_GITHUB_STEP_NAME →
  respects T (generateWork env build step).
Proof.
  intros Ha. unfold generateWork.
  apply respects_bind; [done| |intros entities].
  { unfold getOrderedEntities.
    apply respects_bind; [done|by apply respects_liftResult|intros es].
    by apply respects_ret. }
  apply respects_bind; [done|by apply respects_liftResult|intros roles].
  apply respects_bind; [done|by apply respects_deref|intros app].
  apply respects_bind; [done|apply T_emit|intros _].
  apply respects_bind; [done| |intros _].
  { apply respects_forOf; [done|]. intros info. apply T_log. }
  apply respects_bind; [done|by apply respects_liftResult|intros modules].
  apply respects_bind; [done|apply stage_logInfo|intros _].
  apply respects_bind; [done| |intros _].
  { destruct (AMP_PROJECTS_PATH env); [|by apply respects_ret].
    apply respects_bind; [done|apply T_emit|intros _]. by apply respects_liftResult. }
  apply respects_bind; [done|apply stage_save|intros tarballURL].
  apply respects_bind; [done|by apply stage_saveToGitHub|intros _].
  apply respects_bind; [done|apply stage_logInfo|intros _].
  by apply respects_ret.
Qed.

Lemma stage_generate env build :
  allowed (Build.actionId build) GENERATE_STEP_NAME →
  allowed (Build.actionId build) PUSH_TO_GITHUB_STEP_NAME →
  respects T (generate env build).
Proof.
  intros Hg Hp. unfold generate. apply stage_run; [done|].
  intros step. by apply stage_generateWork.
Qed.

Lemma stage_handleContainerBuilderResult env build step result :
  Build.id build = id →
  respects T (handleContainerBuilderResult env build step result).
Proof.
  intros Hid. apply respects_settle; [done|].
  unfold handleContainerBuilderResultTask. rewrite Hid.
  destruct (BuildResult.status result).
  - apply TaskRespects_bind; [apply TaskRespects_await, stage_logInfo|intros _].
    apply TaskRespects_await.
    apply respects_bind; [done|by apply respects_newDate|intros now].
    by apply T_update.
  - apply TaskRespects_bind; [apply TaskRespects_await, stage_logInfo|intros _].
    apply TaskRespects_bind; [apply TaskRespects_await, T_complete|intros _].
    apply TaskRespects_bind; [by apply TaskRespects_await, T_update|intros _].
    destruct (canDeploy env); [|by apply TaskRespects_ret].
    apply TaskRespects_await.
    apply respects_bind; [done|apply T_emit|intros _]. by apply respects_liftResult.
  - apply TaskRespects_bind; [apply TaskRespects_await, stage_logInfo|intros _].
    apply TaskRespects_await, T_complete.
Qed.

Lemma stage_buildDockerImage env build tarballURL :
  Build.id build = id →
  allowed (Build.actionId build) BUILD_DOCKER_IMAGE_STEP_NAME →
  respects T (buildDockerImage env build tarballURL).
Proof.
  intros Hid Ha. unfold buildDockerImage.
  apply respects_bind; [done| |intros _; by apply respects_ret].
  apply stage_run; [done|]. intros step.
  apply respects_bind; [done|apply stage_logInfo|intros _].
  apply respects_bind; [done|apply T_emit|intros _].
  apply respects_bind; [done|by apply respects_liftResult|intros result].
  by apply stage_handleContainerBuilderResult.
Qed.

End Stages.

Ltac buildsKept_leaf :=
  first [ typeclasses eauto
        | done
        | intros; first [ apply buildsKept_beginStep
                        | apply buildsKept_log
                        | apply buildsKept_complete
                        | by apply buildsKept_prismaBuildUpdate
                        | by apply buildsKept_silent ] ].

Lemma buildsKept_generate id env build : respects (buildsKept id) (generate env build).
Proof. apply stage_generate with (allowed := λ _ _, True); buildsKept_leaf. Qed.

Lemma buildsKept_buildDockerImage env build tarballURL :
  respects (buildsKept (Build.id build)) (buildDockerImage env build tarballURL).
Proof.
  apply stage_buildDockerImage with (allowed := λ _ _, True) (id := Build.id build);
    buildsKept_leaf.
Qed.

Lemma addsSteps_prismaBuildUpdate P id f :
  respects (addsSteps P) (prismaBuildUpdate id f).
Proof.
  unfold prismaBuildUpdate.
  apply respects_bind; [typeclasses eauto|respects_step|].
  intros [row|]; [by apply addsSteps_silent|respects_step].
Qed.

Ltac addsSteps_leaf :=
  first [ typeclasses eauto
        | done
        | intros; first [ by apply addsSteps_beginStep
                        | apply addsSteps_log
                        | apply addsSteps_complete
                        | apply addsSteps_prismaBuildUpdate
                        | by apply addsSteps_silent ] ].

Lemma addsSteps_generate (P : nat → string → Prop) env build :
  P (Build.actionId build) GENERATE_STEP_NAME →
  P (Build.actionId build) PUSH_TO_GITHUB_STEP_NAME →
  respects (addsSteps P) (generate env build).
Proof.
  intros Hg Hp. apply stage_generate with (allowed := P); addsSteps_leaf.
Qed.

Lemma addsSteps_buildDockerImage (P : nat → string → Prop) env build tarballURL :
  P (Build.actionId build) BUILD_DOCKER_IMAGE_STEP_NAME →
  respects (addsSteps P) (buildDockerImage env build tarballURL).
Proof.
  intros Hd.
  apply stage_buildDockerImage with (allowed := P) (id := Build.id build);
    addsSteps_leaf.
Qed.

Lemma keepsStepsBelow_generate n env build :
  respects (keepsStepsBelow n) (generate env build).
Proof.
  unfold generate. apply keepsStepsBelow_run. intros step _.
  apply keepsStepsBelow_generateWork.
Qed.

Lemma emitsOnly_weaken (P Q : Event → Prop) s s' :
  (∀ e, P e → Q e) → emitsOnly P s s' → emitsOnly Q s s'.
Proof.
  intros HPQ (events & Htr & HP). exists events. split; [done|].
  eapply Forall_impl; [exact HP|exact HPQ].
Qed.

(** ** What [create] does once the Build is persisted *)

Lemma create_persisted env args skipPublish s versions app commit :
  getLatestVersions env (CreateBuildArgs.appId args) = Ok versions →
  findApp env (CreateBuildArgs.appId args) = Some app →
  findCommit env (CreateBuildArgs.commitId args) = Some commit →
  let id : string := fresh (dom (builds s)) in
  let commitId := CreateBuildArgs.commitId args in
  let version := jsSlice commitId (Z.of_nat (String.length commitId) - 8) in
  let row := BuildRow.mk (clock s) (CreateBuildArgs.appId args) commitId version
               (CreateBuildArgs.message args) (actions s) [] None None in
  let build := toBuild id row (Some app) (Some commit) None in
  ∃ s1,
    builds s1 = <[id := row]> (builds s)
    ∧ actions s1 = S (actions s)
    ∧ (∃ initial, steps s1 = steps s ++ [initial]
                  ∧ StepRow.actionId initial = actions s
                  ∧ StepRow.name initial = "ADD_TO_QUEUE")
    ∧ disk s1 = disk s
    ∧ trace s1 = trace s ++ [EvLoggerInfo id JOB_STARTED_LOG]
    ∧ create env args skipPublish s =
        (tarballURL ← generate env build;
         _ ← (if negb skipPublish then buildDockerImage env build tarballURL
              else mret tt);
         _ ← emit (EvLoggerInfo id JOB_DONE_LOG);
         mret build) s1.
Proof.
  intros Hv Ha Hc id commitId version row build. eexists.
  split_and!; cycle 5.
  - unfold create. rewrite bind_liftResult, Hv. unfold newDate. rewrite bind_gets.
    rewrite (bind_ok _ _ _ _ _ (createInitialStepData_eval _ _ _)).
    erewrite bind_ok; [|by apply prismaBuildCreate_eval].
    rewrite bind_emit. reflexivity.
  - reflexivity.
  - reflexivity.
  - eexists. split; [reflexivity|]. done.
  - reflexivity.
  - reflexivity.
Qed.

Lemma create_pipeline_result env build skipPublish s1 (b : Build.t) :
  ((tarballURL ← generate env build;
    _ ← (if negb skipPublish then buildDockerImage env build tarballURL else mret tt);
    _ ← emit (EvLoggerInfo (Build.id build) JOB_DONE_LOG);
    mret build) s1).1 = Ok b →
  b = build.
Proof.
  rewrite bind_unfold. destruct (generate env build s1) as [[url|e] s2]; [|done].
  rewrite bind_unfold.
  destruct ((if negb skipPublish then buildDockerImage env build url else mret tt) s2)
    as [[[]|e] s3]; [|done].
  rewrite bind_emit. by intros [= <-].
Qed.

Lemma create_pipeline_respects (T : relation State) `{!PreOrder T}
    env build skipPublish :
  respects T (generate env build) →
  (∀ url, respects T (buildDockerImage env build url)) →
  (∀ e, respects T (emit e)) →
  respects T
    (tarballURL ← generate env build;
     _ ← (if negb skipPublish then buildDockerImage env build tarballURL else mret tt);
     _ ← emit (EvLoggerInfo (Build.id build) JOB_DONE_LOG);
     mret build).
Proof.
  intros Hg Hd He.
  apply respects_bind; [done|done|intros url].
  apply respects_bind; [done| |intros _].
  { destruct skipPublish; simpl; [by apply respects_ret|apply Hd]. }
  apply respects_bind; [done|apply He|intros _]. by apply respects_ret.
Qed.

Lemma create_failed_early env args skipPublish s :
  (∀ versions, getLatestVersions env (CreateBuildArgs.appId args) ≠ Ok versions)
  ∨ findApp env (CreateBuildArgs.appId args) = None
  ∨ findCommit env (CreateBuildArgs.commitId args) = None →
  (create env args skipPublish s).2 = s
  ∧ ∀ b, (create env args skipPublish s).1 ≠ Ok b.
Proof.
  intros Hfail. unfold create. rewrite bind_liftResult.
  destruct (getLatestVersions env (CreateBuildArgs.appId args)) as [versions|e] eqn:Hv;
    [|done].
  unfold newDate. rewrite bind_gets.
  rewrite (bind_ok _ _ _ _ _ (createInitialStepData_eval _ _ _)).
  unfold prismaBuildCreate.
  destruct Hfail as [Hfail|[Hfail|Hfail]].
  - by destruct (Hfail versions).
  - by rewrite Hfail.
  - rewrite Hfail. by destruct (findApp env _).
Qed.

(** [create] stores the new Build under an identifier that was not in
    use and touches nothing that was there before: every other Build's row
    is unchanged, every step that existed keeps its action, name and
    status, and every step added belongs to the new Build's action.  The
    Build it returns is the object as it was persisted (no images, no
    status query), whatever the stages did to the row afterwards.  If the
    latest entity versions cannot be read, nothing is persisted at all. *)
Theorem create_leaves_the_rest_alone env args skipPublish s :
  let s' := (create env args skipPublish s).2 in
  let id : string := fresh (dom (builds s)) in
  builds s !! id = None
  ∧ (∀ k, k ≠ id → builds s' !! k = builds s !! k)
  ∧ (∀ j, (j < length (steps s))%nat →
          stepCore <$> steps s' !! j = stepCore <$> steps s !! j)
  ∧ (∀ i row, steps s' !! i = Some row → (length (steps s) ≤ i)%nat →
              StepRow.actionId row = actions s)
  ∧ (∀ build, (create env args skipPublish s).1 = Ok build →
       Build.id build = id
       ∧ Build.actionId build = actions s
       ∧ Build.createdAt build = clock s
       ∧ Build.appId build = CreateBuildArgs.appId args
       ∧ Build.commitId build = CreateBuildArgs.commitId args
       ∧ Build.images build = []
       ∧ Build.containerStatusQuery build = None
       ∧ ∃ r, builds s' !! id = Some r
              ∧ BuildRow.appId r = CreateBuildArgs.appId args
              ∧ BuildRow.commitId r = CreateBuildArgs.commitId args
              ∧ BuildRow.actionId r = actions s
              ∧ BuildRow.createdAt r = clock s)
  ∧ (∀ e, getLatestVersions env (CreateBuildArgs.appId args) = Throw e →
          create env args skipPublish s = (Throw e, s)).
Proof.
  intros s' id.
  assert (Hfresh : builds s !! id = None).
  { apply not_elem_of_dom. apply is_fresh. }
  assert (Hlast : ∀ e, getLatestVersions env (CreateBuildArgs.appId args) = Throw e →
            create env args skipPublish s = (Throw e, s)).
  { intros e He. unfold create. by rewrite bind_liftResult, He. }
  destruct (getLatestVersions env (CreateBuildArgs.appId args)) as [versions|e] eqn:Hv;
    cycle 1.
  { assert (Hs' : s' = s) by (unfold s'; by rewrite (Hlast e)).
    assert (Hr : (create env args skipPublish s).1 = Throw e) by (by rewrite (Hlast e)).
    rewrite Hs'. split_and!; [done..| | |done].
    - intros i row Hrow Hi. apply lookup_lt_Some in Hrow. lia.
    - intros build Hb. by rewrite Hr in Hb. }
  destruct (findApp env (CreateBuildArgs.appId args)) as [app|] eqn:Happ; cycle 1.
  { destruct (create_failed_early env args skipPublish s) as [Hs' Hr].
    - right. by left.
    - fold s' in Hs'. rewrite Hs'. split_and!; [done..| | |done].
      + intros i row Hrow Hi. apply lookup_lt_Some in Hrow. lia.
      + intros build Hb. by destruct (Hr build). }
  destruct (findCommit env (CreateBuildArgs.commitId args)) as [commit|] eqn:Hcommit;
    cycle 1.
  { destruct (create_failed_early env args skipPublish s) as [Hs' Hr].
    - right. by right.
    - fold s' in Hs'. rewrite Hs'. split_and!; [done..| | |done].
      + intros i row Hrow Hi. apply lookup_lt_Some in Hrow. lia.
      + intros build Hb. by destruct (Hr build). }
  destruct (create_persisted env args skipPublish s versions app commit Hv Happ Hcommit)
    as (s1 & Hb1 & Ha1 & (initial & Hst1 & Hia & Hin) & Hd1 & Ht1 & Hcreate).
  fold id in Hb1, Ht1, Hcreate.
  set (row := BuildRow.mk _ _ _ _ _ _ _ _ _) in *.
  set (build := toBuild id row (Some app) (Some commit) None) in *.
  assert (HT : ∀ T : relation State, PreOrder T →
            respects T (generate env build) →
            (∀ url, respects T (buildDockerImage env build url)) →
            (∀ e, respects T (emit e)) → T s1 s').
  { intros T HPre Hg Hd He. unfold s'. rewrite Hcreate.
    by apply (create_pipeline_respects T env build skipPublish). }
  assert (HB : buildsKept id s1 s').
  { apply HT; [typeclasses eauto|apply buildsKept_generate| |].
    - apply (buildsKept_buildDockerImage env build).
    - intros. by apply buildsKept_silent. }
  assert (HK : keepsStepsBelow (length (steps s)) s1 s').
  { apply HT; [typeclasses eauto|apply keepsStepsBelow_generate| |].
    - intros url. apply keepsStepsBelow_buildDockerImage.
    - intros. apply keepsStepsBelow_emit. }
  assert (HA : addsSteps (λ a _, a = actions s) s1 s').
  { apply HT; [typeclasses eauto|by apply addsSteps_generate| |].
    - intros url. by apply addsSteps_buildDockerImage.
    - intros. by apply addsSteps_silent. }
  split_and!; [done| | | | |done].
  - intros k Hk. destruct (HB k) as [Hkeep _].
    rewrite (Hkeep Hk), Hb1. by rewrite lookup_insert_ne.
  - intros j Hj. destruct HK as [_ Hkeep].
    { rewrite Hst1, length_app. lia. }
    rewrite (Hkeep j Hj), Hst1. by rewrite lookup_app_l.
  - intros i row' Hrow' Hi.
    destruct (HA i row' Hrow') as [(row1 & Hrow1 & Hact & _)|Hnew]; [|done].
    rewrite <- Hact. rewrite Hst1 in Hrow1.
    apply lookup_app_Some in Hrow1 as [Hrow1|[_ Hrow1]].
    + apply lookup_lt_Some in Hrow1. lia.
    + destruct (i - length (steps s))%nat; [|done]. by injection Hrow1 as <-.
  - intros b Hb. destruct (HB id) as [_ Hcore].
    unfold s' in *. rewrite Hcreate in Hb, Hcore |- *.
    apply create_pipeline_result in Hb. subst b. split_and!; [done..|].
    rewrite Hb1, lookup_insert_eq in Hcore.
    match type of Hcore with
    | buildCore <$> ?x = _ => destruct x as [r|]; [|done]
    end.
    injection Hcore as H1 H2 H3 H4 H5 H6. by exists r.
Qed.

(** With [skipPublish], [create] stops after generation: it makes no call
    to the container builder or the deployment service, and it adds no
    "build docker" step. *)
Theorem create_skipPublish_skips_image_build env args s :
  let s' := (create env args true s).2 in
  emitsOnly (λ e, ¬ isImageBuild e) s s'
  ∧ ∀ i row, steps s' !! i = Some row →
      StepRow.name row = BUILD_DOCKER_IMAGE_STEP_NAME →
      ∃ row0, steps s !! i = Some row0
              ∧ StepRow.actionId row0 = StepRow.actionId row
              ∧ StepRow.name row0 = BUILD_DOCKER_IMAGE_STEP_NAME.
Proof.
  intros s'.
  assert (Hsame : s' = s →
    emitsOnly (λ e, ¬ isImageBuild e) s s'
    ∧ ∀ i row, steps s' !! i = Some row →
        StepRow.name row = BUILD_DOCKER_IMAGE_STEP_NAME →
        ∃ row0, steps s !! i = Some row0
                ∧ StepRow.actionId row0 = StepRow.actionId row
                ∧ StepRow.name row0 = BUILD_DOCKER_IMAGE_STEP_NAME).
  { intros ->. split; [reflexivity|]. intros i row Hrow Hn. by exists row. }
  destruct (getLatestVersions env (CreateBuildArgs.appId args)) as [versions|e] eqn:Hv;
    cycle 1.
  { apply Hsame. unfold s', create. by rewrite bind_liftResult, Hv. }
  destruct (findApp env (CreateBuildArgs.appId args)) as [app|] eqn:Happ; cycle 1.
  { apply Hsame. apply create_failed_early. right. by left. }
  destruct (findCommit env (CreateBuildArgs.commitId args)) as [commit|] eqn:Hcommit;
    cycle 1.
  { apply Hsame. apply create_failed_early. right. by right. }
  clear Hsame.
  destruct (create_persisted env args true s versions app commit Hv Happ Hcommit)
    as (s1 & Hb1 & Ha1 & (initial & Hst1 & Hia & Hin) & Hd1 & Ht1 & Hcreate).
  set (row := BuildRow.mk _ _ _ _ _ _ _ _ _) in *.
  set (build := toBuild _ row (Some app) (Some commit) None) in *.
  split.
  - assert (H1 : emitsOnly (λ e, ¬ isImageBuild e) s s1).
    { exists [EvLoggerInfo (fresh (dom (builds s))) JOB_STARTED_LOG].
      split; [done|]. apply Forall_singleton. simpl. tauto. }
    etrans; [exact H1|]. unfold s'. rewrite Hcreate.
    apply (respects_bind (emitsOnly (λ e, ¬ isImageBuild e))).
    + intros s0. eapply emitsOnly_weaken; [|apply (emitsOnly_generate env build)].
      intros e He. destruct e; simpl in *; tauto.
    + intros url. simpl.
      apply respects_bind; [typeclasses eauto|respects_step|intros _].
      apply respects_bind; [typeclasses eauto| |intros _; respects_step].
      apply emitsOnly_emit. simpl. tauto.
  - intros i row' Hrow' Hname.
    assert (HA : addsSteps (λ _ n, n ≠ BUILD_DOCKER_IMAGE_STEP_NAME) s1 s').
    { unfold s'. rewrite Hcreate.
      apply (respects_bind (addsSteps (λ _ n, n ≠ BUILD_DOCKER_IMAGE_STEP_NAME))).
      - by apply addsSteps_generate.
      - intros url. simpl.
        apply respects_bind; [typeclasses eauto|respects_step|intros _].
        apply respects_bind; [typeclasses eauto| |intros _; respects_step].
        by apply addsSteps_silent. }
    destruct (HA i row' Hrow') as [(row1 & Hrow1 & Hact & Hn1)|Hnew]; [|done].
    rewrite Hst1 in Hrow1. apply lookup_app_Some in Hrow1 as [Hrow1|[_ Hrow1]].
    + exists row1. split_and!; [done..|]. congruence.
    + destruct (i - length (steps s))%nat; [|done]. injection Hrow1 as <-.
      rewrite Hin in Hn1. rewrite <- Hn1 in Hname. done.
Qed.

(** ** The version label *)

Lemma substring_suffix (s : string) (n : nat) :
  (n ≤ String.length s)%nat →
  ∃ prefix,
    s = prefix +:+ substring n (String.length s - n) s
    ∧ String.length prefix = n
    ∧ String.length (substring n (String.length s - n) s) = (String.length s - n)%nat.
Proof.
  revert n. induction s as [|c s IH]; intros n Hn.
  - simpl in Hn. assert (n = 0%nat) by lia. subst n. by exists "".
  - destruct n as [|n].
    + exists "". destruct (IH 0%nat) as (p & Hp & Hlen & Hl); [lia|].
      destruct p; [|done]. rewrite Nat.sub_0_r in Hp, Hl.
      change (s = substring 0 (String.length s) s) in Hp.
      change (String c s = String c (substring 0 (String.length s) s)
              ∧ 0%nat = 0%nat
              ∧ S (String.length (substring 0 (String.length s) s))
                = S (String.length s)).
      split_and!; [congruence|done|congruence].
    + simpl in Hn. destruct (IH n) as (p & Hp & Hlen & Hl); [lia|].
      exists (String c p).
      change (String c s = String c (p +:+ substring n (String.length s - n) s)
              ∧ S (String.length p) = S n
              ∧ String.length (substring n (String.length s - n) s)
                = (String.length s - n)%nat).
      split_and!; [congruence|congruence|done].
Qed.

Lemma jsSlice_suffix (s : string) (start : Z) :
  let len := Z.of_nat (String.length s) in
  let from := if (start <? 0)%Z then Z.max (len + start) 0 else Z.min start len in
  ∃ prefix,
    s = prefix +:+ jsSlice s start
    ∧ Z.of_nat (String.length (jsSlice s start)) = (len - from)%Z.
Proof.
  intros len from. unfold jsSlice. fold len. fold from.
  assert (Hfrom : (0 ≤ from ≤ len)%Z).
  { unfold from. destruct (start <? 0)%Z eqn:E; [lia|].
    apply Z.ltb_ge in E. lia. }
  replace (Z.to_nat (len - from)) with (String.length s - Z.to_nat from)%nat by lia.
  destruct (substring_suffix s (Z.to_nat from)) as (p & Hp & _ & Hl); [lia|].
  exists p. split; [done|]. rewrite Hl. lia.
Qed.

(** The version of a created Build is [commitId.slice(commitId.length - 8)]:
    always a suffix of the commit id; its last 8 characters when the id has
    at least 8; but for a shorter id the start index is negative and counts
    from the end, so an id of length n < 8 gives only its last
    min(n, 8 - n) characters. *)
Theorem create_version_label env args skipPublish s build s' :
  create env args skipPublish s = (Ok build, s') →
  let commitId := CreateBuildArgs.commitId args in
  let n := String.length commitId in
  (∃ prefix, commitId = prefix +:+ Build.version build)
  ∧ ((8 ≤ n)%nat → String.length (Build.version build) = 8%nat)
  ∧ ((n < 8)%nat → String.length (Build.version build) = Nat.min n (8 - n)).
Proof.
  intros Hc commitId n.
  assert (Hv : Build.version build
               = jsSlice commitId (Z.of_nat (String.length commitId) - 8)).
  { destruct (getLatestVersions env (CreateBuildArgs.appId args)) as [versions|e] eqn:Hv.
    2:{ unfold create in Hc. by rewrite bind_liftResult, Hv in Hc. }
    destruct (findApp env (CreateBuildArgs.appId args)) as [app|] eqn:Happ.
    2:{ destruct (create_failed_early env args skipPublish s) as [_ Hr].
        - right. by left.
        - destruct (Hr build). by rewrite Hc. }
    destruct (findCommit env (CreateBuildArgs.commitId args)) as [commit|] eqn:Hcommit.
    2:{ destruct (create_failed_early env args skipPublish s) as [_ Hr].
        - right. by right.
        - destruct (Hr build). by rewrite Hc. }
    destruct (create_persisted env args skipPublish s versions app commit Hv Happ Hcommit)
      as (s1 & _ & _ & _ & _ & _ & Hcreate).
    rewrite Hcreate in Hc.
    assert (Hb : ((tarballURL ← generate env
                     (toBuild (fresh (dom (builds s)))
                        (BuildRow.mk (clock s) (CreateBuildArgs.appId args)
                           (CreateBuildArgs.commitId args)
                           (jsSlice (CreateBuildArgs.commitId args)
                              (Z.of_nat (String.length (CreateBuildArgs.commitId args)) - 8))
                           (CreateBuildArgs.message args) (actions s) [] None None)
                        (Some app) (Some commit) None);
                   _ ← (if negb skipPublish
                        then buildDockerImage env _ tarballURL else mret tt);
                   _ ← emit (EvLoggerInfo _ JOB_DONE_LOG);
                   mret _) s1).1 = Ok build) by (by rewrite Hc).
    apply create_pipeline_result in Hb. by rewrite Hb. }
  rewrite Hv.
  destruct (jsSlice_suffix commitId (Z.of_nat (String.length commitId) - 8))
    as (p & Hp & Hl).
  cbv zeta in Hl. fold n in Hl |- *. split_and!.
  - by exists p.
  - intros Hn. destruct (Z.of_nat n - 8 <? 0)%Z eqn:E.
    + apply Z.ltb_lt in E. lia.
    + lia.
  - intros Hn. destruct (Z.of_nat n - 8 <? 0)%Z eqn:E.
    + lia.
    + apply Z.ltb_ge in E. lia.
Qed.

(** ** Publishing to GitHub *)

Lemma alter_snoc {A} (f : A → A) (l : list A) x :
  alter f (length l) (l ++ [x]) = l ++ [f x].
Proof.
  rewrite <- (Nat.add_0_r (length l)) at 1. by rewrite alter_app_r.
Qed.

(** A stage run as final whose work returns: the result is the work's and
    the step is left as the work left it. *)
Lemma run_final_eval {A} actionId name message (work : ActionStep.t → M A) s r s' :
  (actionId < actions s)%nat →
  work (toActionStep (length (steps s))
          (StepRow.mk actionId name message EnumActionStepStatus.Running None []))
       (set_steps (λ l, l ++ [StepRow.mk actionId name message
                                EnumActionStepStatus.Running None []]) s)
    = (Ok r, s') →
  run actionId name message work true s = (Ok (Some r), s').
Proof.
  intros Ha Hwork. unfold run.
  rewrite (bind_ok _ _ _ _ _ (beginStep_eval _ _ _ _ Ha)).
  unfold try_catch. rewrite bind_unfold, Hwork, bind_gets. simpl.
  by destruct (steps s' !! length (steps s)).
Qed.

(** [saveToGitHub] does nothing for an application that does not sync;
    otherwise it opens a "push to GitHub" step and asks for one pull
    request.  If the publisher fails
    the step is closed as Failed, the error is reported to the application
    and the call still returns normally; if it succeeds the step is closed
    as Success with the pull request's URL in its log. *)
Theorem saveToGitHub_outcomes env build modules app commit s :
  Build.app build = Some app →
  Build.commit build = Some commit →
  let pr := pullRequestOf env build app commit modules in
  let info := ActionLog.mk (Some EnumActionLogLevel.Info) in
  (App.githubSyncEnabled app = false →
   saveToGitHub env build modules s = (Ok tt, s))
  ∧ (App.githubSyncEnabled app = true →
     (Build.actionId build < actions s)%nat →
     (∀ e,
         createPullRequest env pr = Throw e →
         reportSyncMessage env (Build.appId build) ("Error: " +:+ errorText e) = Ok tt →
         saveToGitHub env build modules s =
           (Ok tt,
            mkState (builds s) (actions s)
              (steps s ++
                 [StepRow.mk (Build.actionId build) PUSH_TO_GITHUB_STEP_NAME
                    PUSH_TO_GITHUB_STEP_MESSAGE EnumActionStepStatus.Failed
                    (Some (clock s))
                    [info PUSH_TO_GITHUB_STEP_START_LOG [];
                     info PUSH_TO_GITHUB_STEP_FAILED_LOG [];
                     info (errorText e) []]])
              (disk s) (clock s)
              (trace s ++
                 [EvCreatePullRequest (Build.id build) pr;
                  EvReportSyncMessage (Build.appId build)
                    ("Error: " +:+ errorText e)])))
     ∧ (∀ prUrl,
         createPullRequest env pr = Ok prUrl →
         reportSyncMessage env (Build.appId build) "Sync Completed Successfully" = Ok tt →
         saveToGitHub env build modules s =
           (Ok tt,
            mkState (builds s) (actions s)
              (steps s ++
                 [StepRow.mk (Build.actionId build) PUSH_TO_GITHUB_STEP_NAME
                    PUSH_TO_GITHUB_STEP_MESSAGE EnumActionStepStatus.Success
                    (Some (clock s))
                    [info PUSH_TO_GITHUB_STEP_START_LOG [];
                     info prUrl [("githubUrl", [prUrl])];
                     info PUSH_TO_GITHUB_STEP_FINISH_LOG []]])
              (disk s) (clock s)
              (trace s ++
                 [EvCreatePullRequest (Build.id build) pr;
                  EvReportSyncMessage (Build.appId build)
                    "Sync Completed Successfully"])))).
Proof.
  intros Happ Hcommit pr info. split.
  - intros Hoff. unfold saveToGitHub. rewrite Happ, Hcommit. simpl.
    by rewrite !bind_ret, Hoff.
  - intros Hon Ha. split.
    + intros e Hpr Hrep. unfold saveToGitHub. rewrite Happ, Hcommit. simpl.
      rewrite !bind_ret, Hon. rewrite bind_unfold.
      erewrite run_final_eval; [reflexivity|done|].
      unfold pr, pullRequestOf in Hpr.
      rewrite (bind_ok _ _ _ _ _ (logInfo_eval _ _ _ _)).
      unfold try_catch. rewrite bind_emit, bind_liftResult, Hpr.
      rewrite (bind_ok _ _ _ _ _ (logInfo_eval _ _ _ _)).
      rewrite (bind_ok _ _ _ _ _ (logInfo_eval _ _ _ _)).
      erewrite bind_ok; cycle 1.
      { eapply complete_running.
        - simpl. rewrite !list_lookup_alter_eq, list_lookup_middle by done.
          reflexivity.
        - reflexivity. }
      rewrite bind_emit. unfold liftResult. rewrite Hrep.
      unfold add_event, set_steps. simpl. rewrite !alter_snoc, <- app_assoc.
      reflexivity.
    + intros prUrl Hpr Hrep. unfold saveToGitHub. rewrite Happ, Hcommit. simpl.
      rewrite !bind_ret, Hon. rewrite bind_unfold.
      erewrite run_final_eval; [reflexivity|done|].
      unfold pr, pullRequestOf in Hpr.
      rewrite (bind_ok _ _ _ _ _ (logInfo_eval _ _ _ _)).
      unfold try_catch. rewrite bind_emit, bind_liftResult, Hpr.
      rewrite bind_emit, bind_liftResult, Hrep.
      rewrite (bind_ok _ _ _ _ _ (logInfo_eval _ _ _ _)).
      rewrite (bind_ok _ _ _ _ _ (logInfo_eval _ _ _ _)).
      erewrite complete_running; cycle 1.
      { simpl. rewrite !list_lookup_alter_eq, list_lookup_middle by done.
        reflexivity. }
      { reflexivity. }
      unfold add_event, set_steps. simpl. rewrite !alter_snoc, <- app_assoc.
      reflexivity.
Qed.

(** ** A refused image build *)

(** A stage run as final whose work throws while its step is still
    Running: the error is logged on the step, the step is closed as
    Failed, and the error is thrown again. *)
Lemma run_final_throws {A} actionId name message (work : ActionStep.t → M A)
    s e s2 row :
  (actionId < actions s)%nat →
  work (toActionStep (length (steps s))
          (StepRow.mk actionId name message EnumActionStepStatus.Running None []))
       (set_steps (λ l, l ++ [StepRow.mk actionId name message
                                EnumActionStepStatus.Running None []]) s)
    = (Throw e, s2) →
  steps s2 !! length (steps s) = Some row →
  StepRow.status row = EnumActionStepStatus.Running →
  run actionId name message work true s =
    (Throw e,
     set_steps (alter (StepRow.set_status EnumActionStepStatus.Failed (clock s2))
                      (length (steps s)))
       (set_steps (alter (StepRow.add_log
                            (ActionLog.mk (Some EnumActionLogLevel.Info)
                               (errorText e) []))
                         (length (steps s))) s2)).
Proof.
  intros Ha Hwork Hrow Hst. unfold run.
  rewrite (bind_ok _ _ _ _ _ (beginStep_eval _ _ _ _ Ha)).
  unfold try_catch. rewrite bind_unfold, Hwork.
  rewrite (bind_ok _ _ _ _ _ (logInfo_eval _ _ _ _)).
  erewrite bind_ok; cycle 1.
  { eapply complete_running.
    - simpl. rewrite list_lookup_alter_eq, Hrow. reflexivity.
    - done. }
  reflexivity.
Qed.

Lemma buildDockerImage_refused_eval env build tarballURL s e :
  (Build.actionId build < actions s)%nat →
  containerBuild env (dockerRequest env build tarballURL) = Throw e →
  buildDockerImage env build tarballURL s =
    (Throw e,
     mkState (builds s) (actions s)
       (steps s ++
          [StepRow.mk (Build.actionId build) BUILD_DOCKER_IMAGE_STEP_NAME
             BUILD_DOCKER_IMAGE_STEP_MESSAGE EnumActionStepStatus.Failed
             (Some (clock s))
             [ActionLog.mk (Some EnumActionLogLevel.Info)
                BUILD_DOCKER_IMAGE_STEP_START_LOG [];
              ActionLog.mk (Some EnumActionLogLevel.Info) (errorText e) []]])
       (disk s) (clock s)
       (trace s ++ [EvContainerBuild (Build.id build)
                      (dockerRequest env build tarballURL)])).
Proof.
  intros Ha Hreq. unfold buildDockerImage. rewrite bind_unfold.
  erewrite run_final_throws; cycle 1.
  - done.
  - rewrite (bind_ok _ _ _ _ _ (logInfo_eval _ _ _ _)).
    rewrite bind_emit, bind_liftResult.
    unfold dockerRequest in Hreq. rewrite Hreq. reflexivity.
  - simpl. rewrite list_lookup_alter_eq, list_lookup_middle by done. reflexivity.
  - reflexivity.
  - unfold add_event, set_steps. simpl. rewrite !alter_snoc. reflexivity.
Qed.

(** [buildDockerImage] sends the container builder one request: the tags
    <appId>:<id> and <appId>:latest, the image id of the latest tag as
    cache source, and the tarball URL.  If the builder refuses it, the
    error is thrown to the caller; the one step added is the "build docker"
    step of the Build's action, closed as Failed with the error as its last
    log line; the build table and the disk are not touched and nothing is
    deployed. *)
Theorem buildDockerImage_request_refused env build tarballURL s e :
  (Build.actionId build < actions s)%nat →
  containerBuild env (dockerRequest env build tarballURL) = Throw e →
  let s' := (buildDockerImage env build tarballURL s).2 in
  (buildDockerImage env build tarballURL s).1 = Throw e
  ∧ trace s' = trace s ++ [EvContainerBuild (Build.id build)
                             (BuildRequest.mk
                                [Build.appId build +:+ ":" +:+ Build.id build;
                                 Build.appId build +:+ ":latest"]
                                [createImageId env (Build.appId build +:+ ":latest")]
                                tarballURL)]
  ∧ builds s' = builds s
  ∧ disk s' = disk s
  ∧ ∃ row,
      steps s' = steps s ++ [row]
      ∧ StepRow.actionId row = Build.actionId build
      ∧ StepRow.name row = BUILD_DOCKER_IMAGE_STEP_NAME
      ∧ StepRow.status row = EnumActionStepStatus.Failed
      ∧ last (StepRow.logs row)
        = Some (ActionLog.mk (Some EnumActionLogLevel.Info) (errorText e) []).
Proof.
  intros Ha Hreq s'. unfold s'.
  rewrite (buildDockerImage_refused_eval _ _ _ _ _ Ha Hreq). simpl.
  split_and!; [done..|]. eexists. split; [reflexivity|]. done.
Qed.

#[global] Instance keepsActions_preorder : PreOrder keepsActions.
Proof.
  split.
  - intros s. reflexivity.
  - intros s1 s2 s3 H1 H2. unfold keepsActions in *. congruence.
Qed.




(** ** The polling interval *)

(** ** The status queries of a sweep *)

Lemma TaskCalls_weaken {A} (t : Task A) queries queries' :
  queries ⊆+ queries' → TaskCalls t queries → TaskCalls t queries'.
Proof.
  intros Hq. destruct t as [r|effect next]; [done|].
  intros Ht s. destruct (Ht s) as (events & left & Htr & Hcalls & Hsub & Hnext).
  exists events, left. split_and!; [done..| |done]. by etrans.
Qed.

Lemma TaskCalls_bind {A B} (t : Task A) (k : A → Task B) l1 l2 :
  TaskCalls t l1 → (∀ a, TaskCalls (k a) l2) → TaskCalls (t ≫= k) (l1 ++ l2).
Proof.
  intros Ht Hk. revert l1 Ht. induction t as [[a|e]|effect next IH]; intros l1 Ht.
  - change (TaskCalls (k a) (l1 ++ l2)). eapply TaskCalls_weaken; [|apply Hk].
    by apply submseteq_inserts_l.
  - exact I.
  - intros s. destruct (Ht s) as (events & left & Htr & Hcalls & Hsub & Hnext).
    exists events, (left ++ l2). split_and!; [done..| |by apply IH].
    rewrite app_assoc. by apply submseteq_skips_r.
Qed.

Lemma TaskCalls_tryCatch {A} (t : Task A) (h : Error → Task A) l1 l2 :
  TaskCalls t l1 → (∀ e, TaskCalls (h e) l2) → TaskCalls (tryCatch t h) (l1 ++ l2).
Proof.
  intros Ht Hh. revert l1 Ht. induction t as [[a|e]|effect next IH]; intros l1 Ht.
  - exact I.
  - change (TaskCalls (h e) (l1 ++ l2)). eapply TaskCalls_weaken; [|apply Hh].
    by apply submseteq_inserts_l.
  - intros s. destruct (Ht s) as (events & left & Htr & Hcalls & Hsub & Hnext).
    exists events, (left ++ l2). split_and!; [done..| |by apply IH].
    rewrite app_assoc. by apply submseteq_skips_r.
Qed.

(** A callback that sends no status query. *)
Lemma TaskCalls_silent {A} (t : Task A) :
  TaskRespects (emitsOnly (λ e, sweepCall e ∧ statusCall e = None)) t → TaskCalls t [].
Proof.
  induction t as [r|effect next IH]; [done|]. intros [He Hn] s.
  destruct (He s) as (events & Htr & Hall). exists events, [].
  split_and!; [done| | |by apply IH].
  - eapply Forall_impl; [exact Hall|]. by intros e [H _].
  - rewrite app_nil_r. clear Htr.
    induction Hall as [|e events [_ Hnone] _ IHall]; simpl; [done|]. by rewrite Hnone.
Qed.

Lemma silent_handleContainerBuilderResultTask env build step result :
  TaskRespects (emitsOnly (λ e, sweepCall e ∧ statusCall e = None))
    (handleContainerBuilderResultTask env build step result).
Proof.
  unfold handleContainerBuilderResultTask.
  destruct (BuildResult.status result); [task_respects_auto| |task_respects_auto].
  apply TaskRespects_bind; [task_respects_step|intros _].
  apply TaskRespects_bind; [task_respects_step|intros _].
  apply TaskRespects_bind; [task_respects_step|intros _].
  destruct (canDeploy env); [|task_respects_step].
  apply TaskRespects_await.
  apply respects_bind; [typeclasses eauto| |intros _; respects_step].
  by apply emitsOnly_emit.
Qed.

Lemma TaskCalls_pollBuildTask env b : TaskCalls (pollBuildTask env b) [statusCallOf b].
Proof.
  unfold pollBuildTask. destruct (Build.action b) as [action|]; [|exact I].
  rewrite derefTask_bind_Some. cbv zeta.
  apply (TaskCalls_tryCatch _ _ [statusCallOf b] []).
  - apply (TaskCalls_bind _ _ [statusCallOf b] []).
    + intros s. exists [EvGetStatus (Build.id b) (Build.containerStatusQuery b)], [].
      split_and!; [done|by constructor|done|exact I].
    + intros _. apply TaskCalls_silent.
      apply TaskRespects_bind; [task_respects_step|intros result].
      apply TaskRespects_bind; [task_respects_step|intros step].
      apply silent_handleContainerBuilderResultTask.
  - intros e. apply TaskCalls_silent. task_respects_auto.
Qed.

Lemma TaskCalls_forOfTask env g :
  TaskCalls (forOfTask (pollBuildTask env) g) (statusCallOf <$> g).
Proof.
  induction g as [|b g IH]; [exact I|].
  change (TaskCalls (pollBuildTask env b ≫= λ _, forOfTask (pollBuildTask env) g)
            ([statusCallOf b] ++ (statusCallOf <$> g))).
  apply TaskCalls_bind.
  - apply TaskCalls_pollBuildTask.
  - intros _. exact IH.
Qed.

Lemma concat_insert_submseteq {A} (ls : list (list A)) i l c left :
  ls !! i = Some l → c ++ left ⊆+ l → c ++ concat (<[i := left]> ls) ⊆+ concat ls.
Proof.
  revert i. induction ls as [|l0 ls IH]; intros [|i] Hi Hsub; simpl in *; try done.
  - injection Hi as ->. rewrite app_assoc. by apply submseteq_skips_r.
  - rewrite Permutation_app_swap_app. apply submseteq_skips_l. by apply IH.
Qed.

(** Whatever turns the callbacks take, the status queries sent so far and
    those the callbacks may still send are within the budget. *)
Lemma calls_takeTurn total s0 i ps :
  (∃ budgets events,
     Forall2 TaskCalls (callbacks ps.1) budgets
     ∧ trace ps.2 = trace s0 ++ events
     ∧ Forall sweepCall events
     ∧ omap statusCall events ++ concat budgets ⊆+ total) →
  ∃ budgets events,
    Forall2 TaskCalls (callbacks (takeTurn i ps).1) budgets
    ∧ trace (takeTurn i ps).2 = trace s0 ++ events
    ∧ Forall sweepCall events
    ∧ omap statusCall events ++ concat budgets ⊆+ total.
Proof.
  intros (budgets & events & Hall & Htr & Hcalls & Hsub). unfold takeTurn.
  destruct (callbacks ps.1 !! i) as [[r|effect next]|] eqn:Hi;
    [by exists budgets, events| |by exists budgets, events].
  destruct (Forall2_lookup_l _ _ _ _ _ Hall Hi) as (l & Hl & Ht).
  destruct (Ht ps.2) as (events' & left & Htr' & Hcalls' & Hsub' & Hnext).
  exists (<[i := left]> budgets), (events ++ events'). simpl. split_and!.
  - by apply Forall2_insert.
  - by rewrite Htr', Htr, app_assoc.
  - by apply Forall_app.
  - etrans; [|exact Hsub]. rewrite omap_app, <- app_assoc.
    apply submseteq_skips_l. by eapply concat_insert_submseteq.
Qed.

Lemma takeTurns_nil turns rej s : takeTurns turns (mkPool [] rej, s) = (mkPool [] rej, s).
Proof. induction turns as [|i turns IH]; [done|]. by rewrite takeTurns_cons. Qed.

(** A sweep calls nothing but the container builder's status endpoint and
    the deployment service, and it queries the status of selected Builds
    only, each with the Build's own status query and at most once, whatever
    the calls answer.  A sweep that selects no Build does nothing. *)
Theorem sweep_queries_selected_builds_once env s :
  callsWithin (statusCallOf <$> selectedBuilds s) s (updateRunningBuildsStatus env s).2
  ∧ NoDup (statusCallOf <$> selectedBuilds s)
  ∧ (selectedBuilds s = [] → updateRunningBuildsStatus env s = (Ok tt, s)).
Proof.
  split_and!.
  - rewrite updateRunningBuildsStatus_eval.
    destruct (promiseAll_turns (schedule env) (sweepCallbacks env s) s) as (more & ->).
    cbn [snd]. unfold promiseAllAfter.
    destruct (takeTurns_invariant
                (λ ps, ∃ budgets events,
                   Forall2 TaskCalls (callbacks ps.1) budgets
                   ∧ trace ps.2 = trace s ++ events
                   ∧ Forall sweepCall events
                   ∧ omap statusCall events ++ concat budgets
                       ⊆+ statusCallOf <$> selectedBuilds s)
                (λ i ps, calls_takeTurn _ s i ps)
                (seq 0 (length (sweepCallbacks env s)) ++ schedule env ++ more)
                (mkPool (sweepCallbacks env s) None, s))
      as (budgets & events & _ & Htr & Hcalls & Hsub).
    + exists ((λ entry : string * list Build.t, statusCallOf <$> entry.2)
                <$> sweepGroups s), [].
      split_and!; [|by rewrite app_nil_r|constructor|].
      * unfold sweepCallbacks. apply Forall2_fmap, Forall_Forall2_diag, Forall_forall.
        intros entry _. apply TaskCalls_forOfTask.
      * simpl. apply Permutation_submseteq.
        rewrite <- (groupBy_concat (selectedBuilds s) Build.appId).
        unfold sweepGroups. rewrite objectEntries_Permutation.
        induction (groupBy (selectedBuilds s) Build.appId) as [|[k g] groups IH];
          simpl; [done|]. by rewrite fmap_app, IH.
    + exists events. split_and!; [done..|]. etrans; [|exact Hsub].
      by apply submseteq_inserts_r.
  - apply (NoDup_fmap_1 fst). rewrite <- list_fmap_compose.
    apply NoDup_runningBuildsAt_ids.
  - intros Hnone. rewrite updateRunningBuildsStatus_eval.
    unfold sweepCallbacks, sweepGroups. rewrite Hnone.
    unfold promiseAll, promiseAllAfter. simpl. by rewrite takeTurns_nil.
Qed.

(** After a result that is neither Completed nor Failed has been handled
    for a Build, no sweep started within the next ten seconds selects that
    Build, and the first sweep after that selects it if its "build docker"
    step is still Running. *)
Theorem running_result_defers_next_poll env build step result s r :
  builds s !! Build.id build = Some r →
  BuildResult.status result = ContainerBuildStatus.Running →
  let s' := (handleContainerBuilderResult env build step result s).2 in
  ∀ ms,
    ((ms ≤ CONTAINER_STATUS_UPDATE_INTERVAL_SEC * 1000)%Z →
     ∀ b, b ∈ selectedBuilds (elapse ms s') → Build.id b ≠ Build.id build)
    ∧ ((CONTAINER_STATUS_UPDATE_INTERVAL_SEC * 1000 < ms)%Z →
       (∃ st, st ∈ stepsOf s' (BuildRow.actionId r)
              ∧ isRunningDockerStep st = true) →
       ∃ b, b ∈ selectedBuilds (elapse ms s') ∧ Build.id b = Build.id build).
Proof.
  intros Hr Hres s' ms.
  assert (Hs' : builds s' !! Build.id build
                = Some (BuildRow.set_containerStatus (BuildResult.statusQuery result)
                          (clock s) r)
                ∧ clock s' = clock s).
  { unfold s'. rewrite (handleContainerBuilderResult_running _ _ _ _ _ r) by done.
    simpl. by rewrite lookup_alter_eq, Hr. }
  destruct Hs' as [Hrow Hclock]. clearbody s'. split.
  - intros Hms b Hb Hid. unfold selectedBuilds in Hb.
    apply elem_of_runningBuildsAt in Hb as (id & r' & Hr' & -> & Hdue).
    simpl in Hid, Hr'. subst id. rewrite Hrow in Hr'. injection Hr' as <-.
    unfold dueForPoll in Hdue. apply andb_true_iff in Hdue as [Ht _].
    simpl in Ht. apply Z.ltb_lt in Ht. lia.
  - intros Hms (st & Hin & Hst).
    exists (withAction (elapse ms s') (Build.id build)
              (BuildRow.set_containerStatus (BuildResult.statusQuery result)
                 (clock s) r)).
    split; [|reflexivity]. unfold selectedBuilds.
    apply elem_of_runningBuildsAt. eexists _, _. split_and!; [exact Hrow|reflexivity|].
    unfold dueForPoll. apply andb_true_iff. split.
    + simpl. apply Z.ltb_lt. lia.
    + simpl. apply existsb_exists. exists st. split; [|done].
      by apply list_elem_of_In.
Qed.

(** ** The generator's log *)

Lemma forOf_createLog_eval step infos s :
  forOf (createLog step) infos s =
    (Ok tt,
     set_steps (alter (λ r, foldl (λ r info, StepRow.add_log (toActionLog info) r) r infos)
                      (ActionStep.id step)) s).
Proof.
  revert s. induction infos as [|info infos IH]; intros s; simpl.
  - unfold set_steps. rewrite list_alter_id by done. by destruct s.
  - rewrite bind_unfold. unfold createLog. rewrite log_eval, IH.
    unfold set_steps. simpl. by rewrite list_alter_alter_eq.
Qed.

(** ** Where the pull request is created *)

(** An external call found after calls none of which is of its kind is
    found in what follows them. *)
Lemma split_after {E} (P : E → Prop) (l1 l2 before after : list E) e :
  Forall (λ x, ¬ P x) l1 → P e →
  l1 ++ l2 = before ++ e :: after →
  ∃ before', before = l1 ++ before' ∧ l2 = before' ++ e :: after.
Proof.
  intros Hl1 He Heq. apply app_eq_inv in Heq as [(k & Hk1 & Hk2)|(k & Hk1 & Hk2)].
  - destruct k as [|x k]; simpl in Hk2.
    + exists []. rewrite app_nil_r in Hk1. by rewrite app_nil_r, Hk1.
    + injection Hk2 as <- _. rewrite Hk1 in Hl1.
      apply Forall_app in Hl1 as [_ Hl1]. apply Forall_cons in Hl1 as [Hx _]. done.
  - by exists k.
Qed.

Lemma split_before {E} (P : E → Prop) (l1 l2 before after : list E) e :
  Forall (λ x, ¬ P x) l2 → P e →
  l1 ++ l2 = before ++ e :: after →
  ∃ after', l1 = before ++ e :: after' ∧ after = after' ++ l2.
Proof.
  intros Hl2 He Heq. apply app_eq_inv in Heq as [(k & Hk1 & Hk2)|(k & Hk1 & Hk2)].
  - destruct k as [|x k]; simpl in Hk2.
    + rewrite <- Hk2 in Hl2. apply Forall_cons in Hl2 as [Hx _]. done.
    + injection Hk2 as -> ->. by exists k.
  - rewrite Hk2 in Hl2. apply Forall_app in Hl2 as [_ Hl2].
    apply Forall_cons in Hl2 as [Hx _]. done.
Qed.

Lemma quiet_trace {A} (m : M A) s :
  respects (emitsOnly (λ _, False)) m → trace (m s).2 = trace s.
Proof.
  intros Hm. destruct (Hm s) as (evs & -> & Hevs).
  destruct evs as [|e evs]; [by rewrite app_nil_r|].
  by apply Forall_cons in Hevs as [[] _].
Qed.

Lemma quiet_bind {A B} (m : M A) (k : A → M B) s :
  (∀ a, respects (emitsOnly (λ _, False)) (k a)) →
  trace ((m ≫= k) s).2 = trace (m s).2.
Proof.
  intros Hk. rewrite bind_unfold. destruct (m s) as [[a|e] s1]; [|done].
  by apply quiet_trace.
Qed.

Lemma quiet_try_catch {A} (m : M A) (h : Error → M A) s :
  (∀ e, respects (emitsOnly (λ _, False)) (h e)) →
  trace (try_catch m h s).2 = trace (m s).2.
Proof.
  intros Hh. unfold try_catch. destruct (m s) as [[a|e] s1]; [done|].
  by apply quiet_trace.
Qed.

(** A stage adds no external call of its own to those of its work. *)
Lemma run_trace {A} actionId name message (work : ActionStep.t → M A) isFinalStep s :
  trace (run actionId name message work isFinalStep s).2 = trace s
  ∨ ∃ step s1,
      trace s1 = trace s
      ∧ trace (run actionId name message work isFinalStep s).2 = trace (work step s1).2.
Proof.
  destruct (decide (actionId < actions s)%nat) as [Ha|Ha]; cycle 1.
  { left. unfold run. by rewrite (bind_throw _ _ _ _ _ (beginStep_missing _ _ _ _ Ha)). }
  right. unfold run. rewrite (bind_ok _ _ _ _ _ (beginStep_eval _ _ _ _ Ha)).
  set (step := toActionStep _ _). set (s1 := set_steps _ s).
  exists step, s1. split; [reflexivity|].
  rewrite quiet_try_catch.
  - apply quiet_bind. intros result. respects_auto.
  - intros error. respects_auto.
Qed.

(** The external calls of the generation stage's work: those made up to
    the end of packaging, none of them to the GitHub service or the
    container builder, and then those of [saveToGitHub], which is reached
    only when the generator has been called and the disk has accepted both
    archives. *)
Lemma generateWork_publish env build step s :
  ∃ saved pushed,
    trace (generateWork env build step s).2 = trace s ++ saved ++ pushed
    ∧ Forall (λ e, ¬ isPublish e) saved
    ∧ Forall (λ e, ¬ isImageBuild e) saved
    ∧ Forall (generationCall build) pushed
    ∧ (pushed ≠ [] →
       (∃ entities, EvCreateDataService (Build.id build) entities ∈ saved)
       ∧ EvDiskPut (getBuildZipFilePath env (Build.id build)) ∈ saved
       ∧ EvDiskPut (getBuildTarGzFilePath env (Build.id build)) ∈ saved
       ∧ ∃ modules,
           putFile env (getBuildZipFilePath env (Build.id build))
             (createZipFileFromModules env modules) = Ok tt
           ∧ putFile env (getBuildTarGzFilePath env (Build.id build))
               (createTarGzFileFromModules env modules) = Ok tt).
Proof.
  assert (Hstop : ∀ (saved : list Event) (s' : State),
            trace s' = trace s ++ saved →
            Forall (λ e, ¬ isPublish e) saved → Forall (λ e, ¬ isImageBuild e) saved →
            ∃ saved pushed,
              trace s' = trace s ++ saved ++ pushed
              ∧ Forall (λ e, ¬ isPublish e) saved
              ∧ Forall (λ e, ¬ isImageBuild e) saved
              ∧ Forall (generationCall build) pushed
              ∧ (pushed ≠ [] →
                 (∃ entities, EvCreateDataService (Build.id build) entities ∈ saved)
                 ∧ EvDiskPut (getBuildZipFilePath env (Build.id build)) ∈ saved
                 ∧ EvDiskPut (getBuildTarGzFilePath env (Build.id build)) ∈ saved
                 ∧ ∃ modules,
                     putFile env (getBuildZipFilePath env (Build.id build))
                       (createZipFileFromModules env modules) = Ok tt
                     ∧ putFile env (getBuildTarGzFilePath env (Build.id build))
                         (createTarGzFileFromModules env modules) = Ok tt)).
  { intros saved s' Ht Hp Hi. exists saved, []. rewrite app_nil_r.
    split_and!; [done..|constructor|done]. }
  unfold generateWork. rewrite bind_unfold, getOrderedEntities_eval.
  destruct (getEntitiesByVersions env (Build.id build)) as [entities|e];
    [|apply (Hstop []); [by rewrite app_nil_r|constructor..]].
  rewrite bind_liftResult.
  destruct (getAppRoles env (Build.appId build)) as [roles|e];
    [|apply (Hstop []); [by rewrite app_nil_r|constructor..]].
  destruct (findApp env (Build.appId build)) as [app|];
    [|apply (Hstop []); [by rewrite app_nil_r|constructor..]].
  cbn [deref]. rewrite bind_ret, bind_emit.
  rewrite (bind_ok _ _ _ _ _ (forOf_createLog_eval _ _ _)).
  rewrite bind_liftResult.
  set (called := EvCreateDataService (Build.id build) (orderBy entities Entity.createdAt)).
  destruct (createDataService env _ _ _).2 as [modules|e] eqn:Hgen.
  2:{ apply (Hstop [called]); [done|apply Forall_singleton; simpl; tauto..]. }
  rewrite (bind_ok _ _ _ _ _ (logInfo_eval _ _ _ _)).
  rewrite bind_unfold.
  set (s1 := set_steps _ (set_steps _ (add_event _ s))).
  assert (Ht1 : trace s1 = trace s ++ [called]) by reflexivity. clearbody s1.
  set (sync := match AMP_PROJECTS_PATH env with Some _ => _ | None => _ end).
  assert (Hsync : ∃ synced, trace (sync s1).2 = trace s1 ++ synced
                            ∧ Forall (λ e, ¬ isPublish e) synced
                            ∧ Forall (λ e, ¬ isImageBuild e) synced).
  { unfold sync. destruct (AMP_PROJECTS_PATH env) as [projectsPath|].
    - rewrite bind_emit. unfold liftResult. exists [EvProjectsSync (Build.id build)].
      split_and!; [done|apply Forall_singleton; simpl; tauto..].
    - exists []. split_and!; [by rewrite app_nil_r|constructor..]. }
  destruct Hsync as (synced & Ht2 & Hsp & Hsi).
  destruct (sync s1) as [[[]|e] s2]; simpl in Ht2.
  2:{ apply (Hstop (called :: synced)).
      - simpl. by rewrite Ht2, Ht1, <- app_assoc.
      - constructor; [simpl; tauto|done].
      - constructor; [simpl; tauto|done]. }
  rewrite bind_unfold.
  destruct (emitsOnly_save (λ e, ¬ isPublish e ∧ ¬ isImageBuild e) env build modules)
    with (s := s2) as (put & Ht3 & Hput); [intros path; simpl; tauto|].
  destruct (save env build modules s2) as [[tarballURL|e] s3] eqn:Hsave; simpl in Ht3.
  2:{ apply (Hstop (called :: synced ++ put)).
      - simpl. by rewrite Ht3, Ht2, Ht1, <- !app_assoc.
      - constructor; [simpl; tauto|]. apply Forall_app. split; [done|].
        eapply Forall_impl; [exact Hput|]. by intros e' [? ?].
      - constructor; [simpl; tauto|]. apply Forall_app. split; [done|].
        eapply Forall_impl; [exact Hput|]. by intros e' [? ?]. }
  apply save_ok in Hsave as (Hzip & Htar & _ & _ & _ & _ & _ & _ & _ & Hputs).
  rewrite bind_unfold.
  destruct (emitsOnly_saveToGitHub env build modules s3) as (pushed & Ht4 & Hpushed).
  assert (Hend : ∀ s4 : State, trace s4 = trace s3 ++ pushed →
            ∃ saved pushed,
              trace s4 = trace s ++ saved ++ pushed
              ∧ Forall (λ e, ¬ isPublish e) saved
              ∧ Forall (λ e, ¬ isImageBuild e) saved
              ∧ Forall (generationCall build) pushed
              ∧ (pushed ≠ [] →
                 (∃ entities, EvCreateDataService (Build.id build) entities ∈ saved)
                 ∧ EvDiskPut (getBuildZipFilePath env (Build.id build)) ∈ saved
                 ∧ EvDiskPut (getBuildTarGzFilePath env (Build.id build)) ∈ saved
                 ∧ ∃ modules,
                     putFile env (getBuildZipFilePath env (Build.id build))
                       (createZipFileFromModules env modules) = Ok tt
                     ∧ putFile env (getBuildTarGzFilePath env (Build.id build))
                         (createTarGzFileFromModules env modules) = Ok tt)).
  { intros s4 Hs4. exists (called :: synced ++ put), pushed. split_and!.
    - rewrite Hs4, Ht3, Ht2, Ht1. simpl. by rewrite <- !app_assoc.
    - constructor; [simpl; tauto|]. apply Forall_app. split; [done|].
      eapply Forall_impl; [exact Hput|]. by intros e' [? ?].
    - constructor; [simpl; tauto|]. apply Forall_app. split; [done|].
      eapply Forall_impl; [exact Hput|]. by intros e' [? ?].
    - done.
    - intros _.
      assert (Hboth : EvDiskPut (getBuildZipFilePath env (Build.id build)) ∈ put
                      ∧ EvDiskPut (getBuildTarGzFilePath env (Build.id build)) ∈ put).
      { destruct Hputs as [Hputs|Hputs]; rewrite Hputs in Ht3;
          apply app_inv_head in Ht3 as <-; split;
          repeat first [by left|right]. }
      split_and!.
      + exists (orderBy entities Entity.createdAt). left.
      + right. apply elem_of_app. right. apply Hboth.
      + right. apply elem_of_app. right. apply Hboth.
      + by exists modules. }
  destruct (saveToGitHub env build modules s3) as [[[]|e] s4]; simpl in Ht4.
  - rewrite (bind_ok _ _ _ _ _ (logInfo_eval _ _ _ _)). by apply Hend.
  - by apply Hend.
Qed.

Lemma generate_publish env build s :
  ∃ saved pushed,
    trace (generate env build s).2 = trace s ++ saved ++ pushed
    ∧ Forall (λ e, ¬ isPublish e) saved
    ∧ Forall (λ e, ¬ isImageBuild e) saved
    ∧ Forall (generationCall build) pushed
    ∧ (pushed ≠ [] →
       (∃ entities, EvCreateDataService (Build.id build) entities ∈ saved)
       ∧ EvDiskPut (getBuildZipFilePath env (Build.id build)) ∈ saved
       ∧ EvDiskPut (getBuildTarGzFilePath env (Build.id build)) ∈ saved
       ∧ ∃ modules,
           putFile env (getBuildZipFilePath env (Build.id build))
             (createZipFileFromModules env modules) = Ok tt
           ∧ putFile env (getBuildTarGzFilePath env (Build.id build))
               (createTarGzFileFromModules env modules) = Ok tt).
Proof.
  unfold generate.
  destruct (run_trace (Build.actionId build) GENERATE_STEP_NAME GENERATE_STEP_MESSAGE
              (generateWork env build) false s) as [Hnone|(step & s1 & Hs1 & Hrun)].
  - exists [], []. rewrite Hnone, app_nil_r. split_and!; [done|constructor..|done].
  - rewrite Hrun, <- Hs1. apply generateWork_publish.
Qed.

(** C1.  The pull request is created inside the generation stage, once
    the artifacts have been saved, and before anything is asked of the
    container builder: whenever [create] calls the GitHub service, the call
    is for the Build being created, whose application has
    [githubSyncEnabled] set; before it the code generator has been called
    and both archives have been written to the disk, which accepted them;
    and no call to the container builder or the deployment service was made
    before it.  Neither submitting the image build, nor handling a result of
    the container builder, nor a reconciliation sweep calls the GitHub
    service. *)
Theorem publish_is_part_of_generation env args skipPublish s :
  (∀ before id pr after,
     callsSince s (create env args skipPublish s).2
       = before ++ EvCreatePullRequest id pr :: after →
     id = fresh (dom (builds s))
     ∧ (∃ app, findApp env (CreateBuildArgs.appId args) = Some app
               ∧ App.githubSyncEnabled app = true)
     ∧ (∃ entities, EvCreateDataService id entities ∈ before)
     ∧ EvDiskPut (getBuildZipFilePath env id) ∈ before
     ∧ EvDiskPut (getBuildTarGzFilePath env id) ∈ before
     ∧ (∃ modules,
          putFile env (getBuildZipFilePath env id) (createZipFileFromModules env modules)
            = Ok tt
          ∧ putFile env (getBuildTarGzFilePath env id)
              (createTarGzFileFromModules env modules) = Ok tt)
     ∧ Forall (λ e, ¬ isImageBuild e) before)
  ∧ (∀ build tarballURL s0,
       emitsOnly imageBuildCall s0 (buildDockerImage env build tarballURL s0).2)
  ∧ (∀ build step result s0,
       emitsOnly imageBuildCall s0
         (handleContainerBuilderResult env build step result s0).2)
  ∧ (∀ s0, emitsOnly imageBuildCall s0 (updateRunningBuildsStatus env s0).2).
Proof.
  split_and!; cycle 1.
  { intros build tarballURL s0. apply emitsOnly_buildDockerImage. }
  { intros build step result s0. apply emitsOnly_handleContainerBuilderResult. }
  { intros s0. apply emitsOnly_updateRunningBuildsStatus. }
  intros before id pr after Hsplit.
  destruct (getLatestVersions env (CreateBuildArgs.appId args)) as [versions|e] eqn:Hv;
    cycle 1.
  { destruct (create_failed_early env args skipPublish s) as [Hs _].
    { left. intros versions. by rewrite Hv. }
    rewrite Hs, callsSince_start in Hsplit. by destruct before. }
  destruct (findApp env (CreateBuildArgs.appId args)) as [app|] eqn:Happ; cycle 1.
  { destruct (create_failed_early env args skipPublish s) as [Hs _].
    { right. by left. }
    rewrite Hs, callsSince_start in Hsplit. by destruct before. }
  destruct (findCommit env (CreateBuildArgs.commitId args)) as [commit|] eqn:Hcommit;
    cycle 1.
  { destruct (create_failed_early env args skipPublish s) as [Hs _].
    { right. by right. }
    rewrite Hs, callsSince_start in Hsplit. by destruct before. }
  destruct (create_persisted env args skipPublish s versions app commit Hv Happ Hcommit)
    as (s1 & _ & _ & _ & _ & Ht1 & Hcreate).
  set (fresh_id := fresh (dom (builds s))) in *.
  set (build := toBuild fresh_id _ (Some app) (Some commit) None) in *.
  rewrite Hcreate in Hsplit. clear Hcreate.
  destruct (generate_publish env build s1) as (saved & pushed & Ht2 & Hsp & Hsi & Hpushed & Hsaved).
  assert (Hrest : ∃ rest,
            trace ((tarballURL ← generate env build;
                    _ ← (if negb skipPublish
                         then buildDockerImage env build tarballURL else mret tt);
                    _ ← emit (EvLoggerInfo fresh_id JOB_DONE_LOG);
                    mret build) s1).2
            = trace (generate env build s1).2 ++ rest
            ∧ Forall (λ e, ¬ isPublish e) rest).
  { rewrite bind_unfold.
    destruct (generate env build s1) as [[tarballURL|e] s2];
      [|exists []; by rewrite app_nil_r].
    rewrite bind_unfold.
    assert (Hdock : ∃ dock,
              trace ((if negb skipPublish then buildDockerImage env build tarballURL
                      else mret tt) s2).2 = trace s2 ++ dock
              ∧ Forall imageBuildCall dock).
    { destruct skipPublish; simpl.
      - exists []. by rewrite app_nil_r.
      - apply emitsOnly_buildDockerImage. }
    destruct Hdock as (dock & Hdock & Fdock).
    destruct ((if negb skipPublish then buildDockerImage env build tarballURL
               else mret tt) s2) as [[[]|e] s3]; simpl in Hdock.
    - rewrite bind_emit. simpl. exists (dock ++ [EvLoggerInfo fresh_id JOB_DONE_LOG]).
      split; [by rewrite Hdock, app_assoc|]. apply Forall_app. split; [done|].
      apply Forall_singleton. simpl. tauto.
    - exists dock. by split. }
  destruct Hrest as (rest & Ht3 & Hrest).
  unfold callsSince in Hsplit. rewrite Ht3, Ht2, Ht1 in Hsplit.
  rewrite <- !app_assoc, drop_app_length in Hsplit.
  change ([EvLoggerInfo fresh_id JOB_STARTED_LOG] ++ saved ++ pushed ++ rest)
    with ((EvLoggerInfo fresh_id JOB_STARTED_LOG :: saved) ++ (pushed ++ rest)) in Hsplit.
  apply (split_after isPublish) in Hsplit as (before' & -> & Hsplit);
    [|constructor; [simpl; tauto|done]|done].
  apply (split_before isPublish) in Hsplit as (after' & Hpush & _); [|done..].
  assert (Hne : pushed ≠ []) by (rewrite Hpush; by destruct before').
  destruct (Hsaved Hne) as ((entities & Hcalled) & Hzip & Htar & Haccepted).
  assert (Hpr : generationCall build (EvCreatePullRequest id pr)).
  { rewrite Forall_forall in Hpushed. apply Hpushed. rewrite Hpush.
    apply elem_of_app. right. left. }
  destruct Hpr as (-> & app' & [= <-] & Hsync).
  change (Build.id build) with fresh_id in *.
  split_and!; [done|by exists app| | | |done|].
  - exists entities. apply elem_of_app. left. by right.
  - apply elem_of_app. left. by right.
  - apply elem_of_app. left. by right.
  - apply Forall_app. split; [constructor; [simpl; tauto|done]|].
    rewrite Hpush in Hpushed. apply Forall_app in Hpushed as [Hpushed _].
    eapply Forall_impl; [exact Hpushed|]. intros e. destruct e; simpl; tauto.
Qed.

(** ** Failures before packaging *)

(** The generation stage stops at the first thing that fails.  If the
    entities or the roles cannot be read, or the application is missing,
    nothing has happened yet and the generator is not called.  If the
    generator fails, its error is thrown after its log records were
    written to the step: no archive is stored, no step is opened and the
    publisher is not called. *)
Theorem generateWork_stops_at_first_failure env build step s :
  let id := Build.id build in
  let appId := Build.appId build in
  (∀ e, getEntitiesByVersions env id = Throw e →
        generateWork env build step s = (Throw e, s))
  ∧ (∀ entities, getEntitiesByVersions env id = Ok entities →
       (∀ e, getAppRoles env appId = Throw e →
             generateWork env build step s = (Throw e, s))
       ∧ (∀ roles, getAppRoles env appId = Ok roles →
            (findApp env appId = None →
             generateWork env build step s = (Throw (TypeError "name"), s))
            ∧ (∀ app e,
                 findApp env appId = Some app →
                 (createDataService env (orderBy entities Entity.createdAt) roles
                    (AppInfo.mk (App.name app) (App.description app)
                       (Build.version build) appId
                       (HOST env +:+ "/" +:+ appId))).2 = Throw e →
                 ∃ s',
                   generateWork env build step s = (Throw e, s')
                   ∧ disk s' = disk s
                   ∧ builds s' = builds s
                   ∧ length (steps s') = length (steps s)
                   ∧ trace s' = trace s ++
                       [EvCreateDataService id (orderBy entities Entity.createdAt)]))).
Proof.
  intros id appId. split.
  - intros e He. unfold generateWork. fold id. rewrite bind_unfold.
    unfold getOrderedEntities. by rewrite bind_liftResult, He.
  - intros entities Hentities.
    assert (Hordered : getOrderedEntities env id s
                       = (Ok (orderBy entities Entity.createdAt), s)).
    { unfold getOrderedEntities. by rewrite bind_liftResult, Hentities. }
    split.
    + intros e He. unfold generateWork. fold id appId.
      rewrite (bind_ok _ _ _ _ _ Hordered). by rewrite bind_liftResult, He.
    + intros roles Hroles. split.
      * intros Happ. unfold generateWork. fold id appId.
        rewrite (bind_ok _ _ _ _ _ Hordered). rewrite bind_liftResult, Hroles.
        by rewrite Happ.
      * intros app e Happ Hgen. unfold generateWork. fold id appId.
        rewrite (bind_ok _ _ _ _ _ Hordered). rewrite bind_liftResult, Hroles.
        rewrite Happ. cbn [deref]. rewrite bind_ret, bind_emit.
        rewrite (bind_ok _ _ _ _ _ (forOf_createLog_eval _ _ _)).
        rewrite bind_liftResult, Hgen.
        eexists. split; [reflexivity|]. simpl.
        split_and!; [done..| |done]. by rewrite length_alter.
Qed.

(** ** From generation to download *)

#[global] Instance keepsDisk_preorder : PreOrder keepsDisk.
Proof.
  split.
  - intros s. reflexivity.
  - intros s1 s2 s3 H1 H2. unfold keepsDisk in *. congruence.
Qed.

Lemma keepsDisk_beginStep actionId name message :
  respects keepsDisk (beginStep actionId name message).
Proof.
  intros s. destruct (decide (actionId < actions s)%nat) as [Ha|Ha].
  - by rewrite beginStep_eval.
  - by rewrite beginStep_missing.
Qed.

Lemma keepsDisk_complete step status : respects keepsDisk (complete step status).
Proof.
  intros s. unfold complete. rewrite bind_gets.
  destruct (steps s !! ActionStep.id step) as [row|]; [|done].
  case_decide; done.
Qed.

Lemma keepsDisk_saveToGitHub env build modules :
  respects keepsDisk (saveToGitHub env build modules).
Proof.
  apply stage_saveToGitHub with (allowed := λ _ _, True);
    first [ typeclasses eauto | done
          | intros; first [ apply keepsDisk_beginStep | apply keepsDisk_complete ] ].
Qed.

(** A stage returns what its work returned only if the work returned
    normally; its step is then closed as Success. *)
Lemma run_not_final_some {A} actionId name message (work : ActionStep.t → M A)
    s (r : A) s' :
  (∀ step, respects (keepsStepsBelow (S (length (steps s)))) (work step)) →
  run actionId name message work false s = (Ok (Some r), s') →
  ∃ s2 row,
    work (toActionStep (length (steps s))
            (StepRow.mk actionId name message EnumActionStepStatus.Running None []))
         (set_steps (λ l, l ++ [StepRow.mk actionId name message
                                  EnumActionStepStatus.Running None []]) s)
      = (Ok r, s2)
    ∧ steps s2 !! length (steps s) = Some row
    ∧ StepRow.actionId row = actionId
    ∧ StepRow.name row = name
    ∧ s' = set_steps (alter (StepRow.set_status EnumActionStepStatus.Success (clock s2))
                            (length (steps s))) s2.
Proof.
  intros Hw. destruct (decide (actionId < actions s)%nat) as [Ha|Ha]; cycle 1.
  { unfold run. by rewrite (bind_throw _ _ _ _ _ (beginStep_missing _ _ _ _ Ha)). }
  unfold run. rewrite (bind_ok _ _ _ _ _ (beginStep_eval _ _ _ _ Ha)).
  set (row0 := StepRow.mk actionId name message EnumActionStepStatus.Running None []).
  set (step := toActionStep (length (steps s)) row0).
  set (s1 := set_steps _ s).
  assert (Hlen1 : (S (length (steps s)) ≤ length (steps s1))%nat).
  { simpl. rewrite length_app. simpl. lia. }
  assert (Hrow1 : steps s1 !! length (steps s) = Some row0).
  { simpl. by rewrite list_lookup_middle. }
  destruct (Hw step s1 Hlen1) as [Hlen2 Hcore].
  specialize (Hcore (length (steps s)) (Nat.lt_succ_diag_r _)).
  rewrite Hrow1 in Hcore. simpl in Hcore.
  unfold try_catch. rewrite bind_unfold.
  destruct (work step s1) as [[result|error] s2]; simpl in Hlen2, Hcore.
  - rewrite bind_gets.
    destruct (steps s2 !! length (steps s)) as [row2|] eqn:Hrow2; [|done].
    injection Hcore as Hact Hname Hstatus.
    change (ActionStep.id step) with (length (steps s)). rewrite Hrow2. simpl.
    rewrite bool_decide_eq_true_2 by done.
    erewrite bind_ok; [|by eapply complete_running].
    intros [= <- <-]. by exists s2, row2.
  - rewrite (bind_ok _ _ _ _ _ (logInfo_eval _ _ _ _)). rewrite bind_unfold.
    by destruct (complete step EnumActionStepStatus.Failed _) as [[[]|e] s3].
Qed.

(** What the generation stage has done when its work returns. *)
Lemma generateWork_ok env build step s url s' :
  generateWork env build step s = (Ok url, s') →
  ∃ entities roles app modules,
    getEntitiesByVersions env (Build.id build) = Ok entities
    ∧ getAppRoles env (Build.appId build) = Ok roles
    ∧ findApp env (Build.appId build) = Some app
    ∧ (createDataService env (orderBy entities Entity.createdAt) roles
         (AppInfo.mk (App.name app) (App.description app) (Build.version build)
            (Build.appId build) (HOST env +:+ "/" +:+ Build.appId build))).2
      = Ok modules
    ∧ (getBuildZipFilePath env (Build.id build)
         ≠ getBuildTarGzFilePath env (Build.id build) →
       disk s' !! getBuildZipFilePath env (Build.id build)
         = Some (createZipFileFromModules env modules)).
Proof.
  unfold generateWork. rewrite bind_unfold. rewrite getOrderedEntities_eval.
  destruct (getEntitiesByVersions env (Build.id build)) as [entities|e]; [|done].
  rewrite bind_liftResult.
  destruct (getAppRoles env (Build.appId build)) as [roles|e]; [|done].
  destruct (findApp env (Build.appId build)) as [app|]; [|done].
  cbn [deref]. rewrite bind_ret, bind_emit.
  rewrite (bind_ok _ _ _ _ _ (forOf_createLog_eval _ _ _)).
  rewrite bind_liftResult.
  destruct (createDataService env _ _ _).2 as [modules|e] eqn:Hgen; [|done].
  rewrite (bind_ok _ _ _ _ _ (logInfo_eval _ _ _ _)).
  rewrite bind_unfold.
  set (s1 := set_steps _ (set_steps _ (add_event _ s))).
  assert (Hd1 : disk s1 = disk s) by reflexivity. clearbody s1.
  set (sync := match AMP_PROJECTS_PATH env with Some _ => _ | None => _ end).
  assert (Hsync : disk (sync s1).2 = disk s1).
  { unfold sync. destruct (AMP_PROJECTS_PATH env) as [projectsPath|]; [|done].
    rewrite bind_emit. unfold liftResult. done. }
  destruct (sync s1) as [[[]|e] s2]; [|done]. simpl in Hsync.
  rewrite bind_unfold.
  destruct (save env build modules s2) as [[tarballURL|e] s3] eqn:Hsave; [|done].
  apply save_ok in Hsave as (_ & _ & Hsave & _). rewrite bind_unfold.
  pose proof (keepsDisk_saveToGitHub env build modules s3) as Hpush.
  destruct (saveToGitHub env build modules s3) as [[[]|e] s4]; [|done].
  unfold keepsDisk in Hpush. simpl in Hpush.
  rewrite (bind_ok _ _ _ _ _ (logInfo_eval _ _ _ _)).
  intros [= <- <-]. exists entities, roles, app, modules.
  split_and!; [done..|]. simpl. intros Hne. rewrite Hpush. by apply Hsave.
Qed.

Lemma filter_none {A} (P : A → Prop) `{!∀ x, Decision (P x)} (l : list A) :
  (∀ x, x ∈ l → ¬ P x) → filter P l = [].
Proof.
  induction l as [|x l IH]; intros Hl; [done|].
  rewrite filter_cons_False by (apply Hl; left).
  apply IH. intros y Hy. apply Hl. by right.
Qed.

(** The generation step [download] looks at is the first step of the
    Build's action that carries the generation stage's name. *)
Lemma generationStep_first s r i row :
  steps s !! i = Some row →
  StepRow.actionId row = BuildRow.actionId r →
  StepRow.name row = GENERATE_STEP_NAME →
  (∀ j rowj, (j < i)%nat → steps s !! j = Some rowj →
     StepRow.actionId rowj = BuildRow.actionId r →
     StepRow.name rowj ≠ GENERATE_STEP_NAME) →
  generationStep s r = Some (toActionStep i row).
Proof.
  intros Hrow Hact Hname Hbefore. unfold generationStep, stepsOf.
  assert (Hlen : (i < length (steps s))%nat) by (by eapply lookup_lt_Some).
  rewrite <- (take_drop_middle _ _ _ Hrow) at 1.
  rewrite imap_app, !filter_app. simpl.
  rewrite (filter_none _ (filter _ (imap toActionStep (take i (steps s))))); cycle 1.
  { intros st Hst Hn. apply list_elem_of_filter in Hst as [Ha Hst].
    apply elem_of_lookup_imap in Hst as (j & rowj & -> & Hj).
    apply lookup_take_Some in Hj as [Hj Hlt].
    by apply (Hbefore j rowj). }
  rewrite length_take, Nat.min_l, Nat.add_0_r by lia.
  rewrite filter_cons_True by done. by rewrite filter_cons_True.
Qed.

(** When [generate] returns a tarball URL for a Build whose action had no
    generation step before, the generator has run on the Build's entities
    in creation order, and [download] then returns the zip archive of
    exactly the modules it produced. *)
Theorem generate_then_download env build s url s' r :
  generate env build s = (Ok (Some url), s') →
  builds s !! Build.id build = Some r →
  BuildRow.actionId r = Build.actionId build →
  Forall (λ st, ActionStep.name st ≠ GENERATE_STEP_NAME)
    (stepsOf s (Build.actionId build)) →
  getBuildZipFilePath env (Build.id build) ≠ getBuildTarGzFilePath env (Build.id build) →
  ∃ entities roles app modules,
    getEntitiesByVersions env (Build.id build) = Ok entities
    ∧ getAppRoles env (Build.appId build) = Ok roles
    ∧ findApp env (Build.appId build) = Some app
    ∧ (createDataService env (orderBy entities Entity.createdAt) roles
         (AppInfo.mk (App.name app) (App.description app) (Build.version build)
            (Build.appId build) (HOST env +:+ "/" +:+ Build.appId build))).2
      = Ok modules
    ∧ download env (Build.id build) s' = (Ok (createZipFileFromModules env modules), s').
Proof.
  intros Hgen Hr Hact Hnone Hpaths.
  pose proof (buildsKept_generate (Build.id build) env build s) as Hbuilds.
  pose proof (keepsStepsBelow_generate (length (steps s)) env build s) as Hsteps.
  rewrite Hgen in Hbuilds, Hsteps. simpl in Hbuilds, Hsteps.
  destruct (Hsteps (le_n _)) as [_ Hcore]. clear Hsteps.
  apply run_not_final_some in Hgen as (s2 & row & Hwork & Hrow & Hrowact & Hrowname & ->);
    [|intros step; apply keepsStepsBelow_generateWork].
  apply generateWork_ok in Hwork
    as (entities & roles & app & modules & He & Hro & Happ & Hmodules & Hdisk).
  exists entities, roles, app, modules. split_and!; [done..|].
  destruct (Hbuilds (Build.id build)) as [_ Hkept]. rewrite Hr in Hkept.
  simpl in Hkept.
  destruct (builds s2 !! Build.id build) as [r2|] eqn:Hr2; [|done].
  assert (Hact2 : BuildRow.actionId r2 = Build.actionId build).
  { injection Hkept as _ _ _ _ _ ->. done. }
  rewrite download_eval. simpl. rewrite Hr2.
  erewrite generationStep_first; cycle 1.
  - simpl. rewrite list_lookup_alter_eq, Hrow. reflexivity.
  - simpl. congruence.
  - done.
  - intros j rowj Hj Hrowj Hactj Hnamej.
    specialize (Hcore j Hj). simpl in Hcore, Hrowj.
    rewrite list_lookup_alter_ne in Hrowj, Hcore by lia. rewrite Hrowj in Hcore.
    destruct (steps s !! j) as [row0|] eqn:Hrow0; [|done].
    injection Hcore as Ha Hn _.
    rewrite Forall_forall in Hnone. apply (Hnone (toActionStep j row0)).
    + apply elem_of_stepsOf. exists row0. simpl. split_and!; [done..|]. congruence.
    + simpl. congruence.
  - simpl. by rewrite Hdisk.
Qed.

(** ** The further properties at work on the runs *)

Lemma getOrderedEntities_sorted_witness :
  getEntitiesByVersions Runs.envFailing "0" = Ok [Scenario.order; Scenario.user]
  ∧ ∃ ordered,
      getOrderedEntities Runs.envFailing "0" Scenario.empty = (Ok ordered, Scenario.empty)
      ∧ StronglySorted (keyLe Entity.createdAt) ordered.
Proof.
  split; [reflexivity|].
  destruct (getOrderedEntities_sorted Runs.envFailing "0" Scenario.empty
              [Scenario.order; Scenario.user] eq_refl)
    as (ordered & Heq & _ & Hsorted).
  exists ordered. split; [exact Heq|exact Hsorted].
Defined.

Lemma getOrderedEntities_canonical_witness :
  [Scenario.order; Scenario.user] ≡ₚ [Scenario.user; Scenario.order]
  ∧ getOrderedEntities Runs.envFailing "0" Scenario.empty
    = getOrderedEntities Variants.envReversed "0" Scenario.empty.
Proof.
  assert (Hp : [Scenario.order; Scenario.user] ≡ₚ [Scenario.user; Scenario.order])
    by apply perm_swap.
  split; [exact Hp|].
  apply (getOrderedEntities_canonical Runs.envFailing Variants.envReversed "0"
           Scenario.empty [Scenario.order; Scenario.user]
           [Scenario.user; Scenario.order] eq_refl eq_refl Hp).
  apply NoDup_cons. split; [|apply NoDup_singleton].
  intros Hin. apply list_elem_of_singleton in Hin. discriminate Hin.
Defined.

Lemma download_unknown_build_witness :
  builds Scenario.empty !! "0" = None
  ∧ download Runs.envFailing "0" Scenario.empty
    = (Throw (BuildNotFoundError "0"), Scenario.empty).
Proof.
  assert (H : builds Scenario.empty !! "0" = None) by (vm_compute; reflexivity).
  split; [exact H|].
  exact (download_unknown_build Runs.envFailing Scenario.empty "0" H).
Defined.

Lemma create_version_label_witness :
  create Runs.envFailing Scenario.args false Scenario.empty
    = (Ok Runs.createdBuild, Runs.createdState)
  ∧ String.length (Build.version Runs.createdBuild) = 8%nat.
Proof.
  split; [exact create_eval|].
  destruct (create_version_label Runs.envFailing Scenario.args false Scenario.empty
              Runs.createdBuild Runs.createdState create_eval)
    as (_ & Hlong & _).
  apply Hlong. vm_compute. lia.
Defined.

Lemma saveToGitHub_outcomes_witness :
  Build.app Runs.createdBuild = Some (Scenario.app true)
  ∧ Build.commit Runs.createdBuild = Some Scenario.commit
  ∧ (saveToGitHub Runs.envFailing Runs.createdBuild [] Runs.createdState).1 = Ok tt.
Proof.
  split; [reflexivity|]. split; [reflexivity|].
  destruct (saveToGitHub_outcomes Runs.envFailing Runs.createdBuild []
              (Scenario.app true) Scenario.commit Runs.createdState eq_refl eq_refl)
    as [_ Hon].
  assert (Ha : (Build.actionId Runs.createdBuild < actions Runs.createdState)%nat)
    by (vm_compute; lia).
  destruct (Hon eq_refl Ha) as [_ Hok].
  rewrite (Hok "https://github.com/acme/shop/pull/1" eq_refl eq_refl). reflexivity.
Defined.

Lemma buildDockerImage_request_refused_witness :
  (Build.actionId Runs.createdBuild < actions Runs.createdState)%nat
  ∧ (buildDockerImage Variants.envRefusing Runs.createdBuild None Runs.createdState).1
    = Throw (RemoteError "ECONNREFUSED").
Proof.
  assert (Ha : (Build.actionId Runs.createdBuild < actions Runs.createdState)%nat)
    by (vm_compute; lia).
  split; [exact Ha|].
  exact (proj1 (buildDockerImage_request_refused Variants.envRefusing
                  Runs.createdBuild None Runs.createdState
                  (RemoteError "ECONNREFUSED") Ha eq_refl)).
Defined.


Lemma running_result_defers_next_poll_witness :
  builds Runs.later !! Build.id Runs.laterBuild = Some Runs.createdRow
  ∧ ∀ b,
      b ∈ selectedBuilds
            (elapse 5000
               (handleContainerBuilderResult Runs.envFailing Runs.laterBuild
                  Runs.laterDockerStep (Scenario.running "query2") Runs.later).2) →
      Build.id b ≠ Build.id Runs.laterBuild.
Proof.
  assert (Hr : builds Runs.later !! Build.id Runs.laterBuild = Some Runs.createdRow)
    by (vm_compute; reflexivity).
  split; [exact Hr|].
  apply (running_result_defers_next_poll Runs.envFailing Runs.laterBuild
           Runs.laterDockerStep (Scenario.running "query2") Runs.later
           Runs.createdRow Hr eq_refl 5000%Z).
  unfold CONTAINER_STATUS_UPDATE_INTERVAL_SEC. lia.
Defined.

Lemma generate_eval :
  generate Runs.envFailing Runs.createdBuild Variants.persisted
    = (Ok (Some "/data/builds/0.tar.gz"), Variants.generatedState).
Proof. vm_compute. reflexivity. Qed.

Lemma generate_then_download_witness :
  generate Runs.envFailing Runs.createdBuild Variants.persisted
    = (Ok (Some "/data/builds/0.tar.gz"), Variants.generatedState)
  ∧ (download Runs.envFailing (Build.id Runs.createdBuild) Variants.generatedState).1
    = Ok [Byte.x50; Byte.x4b].
Proof.
  split; [exact generate_eval|].
  destruct (generate_then_download Runs.envFailing Runs.createdBuild
              Variants.persisted "/data/builds/0.tar.gz" Variants.generatedState
              Variants.persistedRow generate_eval)
    as (entities & roles & app & modules & _ & _ & _ & _ & Hdownload).
  - vm_compute. reflexivity.
  - reflexivity.
  - apply (bool_decide_unpack _). vm_compute. exact I.
  - vm_compute. discriminate.
  - rewrite Hdownload. reflexivity.
Defined.
